(** * mdc-dlp: the RSC stream decoder and the catalog crawl of [scrape.py]

    A shallow embedding of [src/mdc_dlp/scrape.py] and the properties its
    specification states about it.

    Conventions of the embedding.
    - Raw text (response bodies, hrefs, chunks) is a list of characters over
      the 8-bit range, [list ascii]; on that range Python's [\d] is [0-9] and
      [\s] is the set written out in [is_space].
    - The strings inside decoded JSON values are lists of code points ([N]),
      since a [\uXXXX] escape can leave the 8-bit range.
    - [re], [json] and [requests] are modelled by what the script uses of
      them: the regular expressions of the script are sequences of literal
      characters, greedy repetitions of a character class and anchors, and
      [Re] implements exactly that fragment with Python's leftmost, greedy,
      backtracking semantics. *)

From Stdlib Require Import Ascii String List Bool Arith ZArith NArith Lia.
Import ListNotations.

Set Implicit Arguments.
Set Warnings "-register-all".

(* ================================================================== *)
(** * Text *)

Definition text := list ascii.

Definition txt (s : string) : text := list_ascii_of_string s.

(** The double quote, the backslash and the line feed. *)
Definition dquote : ascii := "034"%char.
Definition backslash : ascii := "092"%char.
Definition newline : ascii := "010"%char.

(** [q] writes a text literal in which every apostrophe stands for a double
    quote, so that JSON examples stay readable. *)
Definition q (s : string) : text :=
  map (fun c => if Ascii.eqb c "'"%char then dquote else c) (txt s).

Definition code (c : ascii) : N := N_of_ascii c.

Definition in_range (lo hi : ascii) (c : ascii) : bool :=
  (code lo <=? code c)%N && (code c <=? code hi)%N.

(** [\d] on the 8-bit range. *)
Definition is_digit (c : ascii) : bool := in_range "0" "9" c.

(** [\s] of a Python [str] pattern on the 8-bit range: TAB, LF, VT, FF, CR,
    the separators 0x1C-0x1F, the space, NEL (0x85) and NBSP (0xA0). *)
Definition is_space (c : ascii) : bool :=
  let n := code c in
  ((9 <=? n) && (n <=? 13) || (28 <=? n) && (n <=? 32)
   || (n =? 133) || (n =? 160))%N.

Fixpoint take_while (p : ascii -> bool) (s : text) : text :=
  match s with
  | c :: s' => if p c then c :: take_while p s' else []
  | [] => []
  end.

Fixpoint text_eqb (a b : text) : bool :=
  match a, b with
  | [], [] => true
  | x :: a', y :: b' => Ascii.eqb x y && text_eqb a' b'
  | _, _ => false
  end.

Fixpoint starts_with (needle s : text) : bool :=
  match needle, s with
  | [], _ => true
  | x :: n', y :: s' => Ascii.eqb x y && starts_with n' s'
  | _ :: _, [] => false
  end.

(** [s.find(needle)]: the least index at which [needle] occurs, [None] for
    Python's -1. *)
Fixpoint find_from (needle s : text) (i : nat) : option nat :=
  if starts_with needle s then Some i
  else match s with
       | [] => None
       | _ :: s' => find_from needle s' (S i)
       end.

Definition str_find (s needle : text) : option nat := find_from needle s 0.

(* ================================================================== *)
(** * The fragment of [re] the script uses *)

Module Re.

(** One element of a pattern. [Rep grp lo cls] is a greedy repetition of
    the class [cls], at least [lo] times ([cls*] for 0, [cls+] for 1),
    inside a capturing group when [grp] is set. *)
Inductive atom : Type :=
| Chr (c : ascii)
| Rep (grp : bool) (lo : nat) (cls : ascii -> bool)
| Bol            (* ^ under re.M: start of the text or just after a line feed *)
| Bos            (* ^ without re.M: start of the text *)
| Eos.           (* $ without re.M: end of the text or just before a final line feed *)

Definition regex := list atom.

Definition Star (cls : ascii -> bool) : atom := Rep false 0 cls.
Definition Plus (cls : ascii -> bool) : atom := Rep false 1 cls.
Definition GroupPlus (cls : ascii -> bool) : atom := Rep true 1 cls.
Definition Lit (t : text) : regex := map Chr t.

(** A match: the number of characters it spans and the text of group 1. *)
Definition found := (nat * option text)%type.

Definition advance (k : nat) (g : option text) (r : option found) : option found :=
  match r with
  | Some (n, g') => Some (k + n, match g with Some _ => g | None => g' end)
  | None => None
  end.

(** The character before the position reached after [taken]. *)
Definition prev_after (prev : option ascii) (taken : text) : option ascii :=
  match rev taken with
  | c :: _ => Some c
  | [] => prev
  end.

(** Greedy repetition with backtracking: the longest count first, then one
    less, down to [lo]. *)
Fixpoint longest_first (A : Type) (attempt : nat -> option A) (lo k : nat) : option A :=
  if k <? lo then None
  else match attempt k with
       | Some r => Some r
       | None => match k with
                 | O => None
                 | S k' => longest_first attempt lo k'
                 end
       end.

(** The match of [p] that starts exactly at the head of [s]; [prev] is the
    character before it in the whole text. *)
Fixpoint match_here (p : regex) (prev : option ascii) (s : text) : option found :=
  match p with
  | [] => Some (0, None)
  | Chr c :: p' =>
      match s with
      | x :: s' => if Ascii.eqb x c
                   then advance 1 None (match_here p' (Some x) s')
                   else None
      | [] => None
      end
  | Rep grp lo cls :: p' =>
      longest_first
        (fun k =>
           let taken := firstn k s in
           advance k (if grp then Some taken else None)
                     (match_here p' (prev_after prev taken) (skipn k s)))
        lo (length (take_while cls s))
  | Bol :: p' =>
      match prev with
      | None => match_here p' prev s
      | Some c => if Ascii.eqb c newline then match_here p' prev s else None
      end
  | Bos :: p' =>
      match prev with
      | None => match_here p' prev s
      | Some _ => None
      end
  | Eos :: p' =>
      match s with
      | [] => match_here p' prev s
      | [c] => if Ascii.eqb c newline then match_here p' prev s else None
      | _ => None
      end
  end.

(** [re.match(p, s)]. *)
Definition rmatch (p : regex) (s : text) : option found := match_here p None s.

(** [re.search(p, s)]: start and end of the leftmost match. *)
Fixpoint search_from (p : regex) (prev : option ascii) (s : text) (i : nat)
  : option (nat * nat) :=
  match match_here p prev s with
  | Some (n, _) => Some (i, i + n)
  | None => match s with
            | [] => None
            | c :: s' => search_from p (Some c) s' (S i)
            end
  end.

Definition search (p : regex) (s : text) : option (nat * nat) := search_from p None s 0.

(** A replacement template: literal text and [\1]. *)
Inductive piece : Type :=
| Txt (t : text)
| Group1.

Definition template := list piece.

Definition expand (tpl : template) (g : option text) : text :=
  flat_map (fun pc => match pc with
                      | Txt t => t
                      | Group1 => match g with Some t => t | None => [] end
                      end) tpl.

(** [re.sub(p, tpl, s)]. The text is read once from the left; [skip] counts
    the characters of the current match still to be passed over. A match is
    looked for at every position outside a match; an empty match puts the
    replacement in front of the character it stands at. *)
Fixpoint sub_from (p : regex) (tpl : template) (prev : option ascii) (s : text)
         (skip : nat) : text :=
  match s with
  | [] =>
      match skip, match_here p prev [] with
      | O, Some (_, g) => expand tpl g
      | _, _ => []
      end
  | c :: s' =>
      match skip with
      | S k => sub_from p tpl (Some c) s' k
      | O =>
          match match_here p prev s with
          | Some (S n, g) => expand tpl g ++ sub_from p tpl (Some c) s' n
          | Some (O, g) => expand tpl g ++ c :: sub_from p tpl (Some c) s' 0
          | None => c :: sub_from p tpl (Some c) s' 0
          end
      end
  end.

Definition sub (p : regex) (tpl : template) (s : text) : text :=
  sub_from p tpl None s 0.

End Re.

Import Re.

(* ================================================================== *)
(** * RSC helpers *)

(** The patterns of the script are quoted in the comments with an apostrophe
    in place of every double quote, as in [q]. *)

(** The character classes of the token patterns. *)
Definition not_dquote (c : ascii) : bool := negb (Ascii.eqb c dquote).

(** [[^\s,\]\}']] *)
Definition date_char (c : ascii) : bool :=
  negb (is_space c || Ascii.eqb c "," || Ascii.eqb c "]" || Ascii.eqb c "}"
        || Ascii.eqb c dquote).

(** [[@A-Za-z0-9_]] *)
Definition ref_char (c : ascii) : bool :=
  Ascii.eqb c "@" || in_range "A" "Z" c || in_range "a" "z" c
  || in_range "0" "9" c || Ascii.eqb c "_".

(** ['\$n(\d+)'] and [\$n(\d+)] *)
Definition quoted_number : regex :=
  [Chr dquote; Chr "$"; Chr "n"; GroupPlus is_digit; Chr dquote].
Definition bare_number : regex := [Chr "$"; Chr "n"; GroupPlus is_digit].
(** ['\$D([^']+)'] and [\$D([^\s,\]\}']+)] *)
Definition quoted_date : regex :=
  [Chr dquote; Chr "$"; Chr "D"; GroupPlus not_dquote; Chr dquote].
Definition bare_date : regex := [Chr "$"; Chr "D"; GroupPlus date_char].
(** ['\$[@A-Za-z0-9_]+'] and [\$[@A-Za-z0-9_]+] *)
Definition quoted_ref : regex := [Chr dquote; Chr "$"; Plus ref_char; Chr dquote].
Definition bare_ref : regex := [Chr "$"; Plus ref_char].

Definition normalize_rsc_tokens (s : text) : text :=
  let s := sub quoted_number [Group1] s in
  let s := sub bare_number [Group1] s in
  let s := sub quoted_date [Txt [dquote]; Group1; Txt [dquote]] s in
  let s := sub bare_date [Txt [dquote]; Group1; Txt [dquote]] s in
  let s := sub quoted_ref [Txt (txt "null")] s in
  let s := sub bare_ref [Txt (txt "null")] s in
  s.

(** [^\s*\d+\s*:\s*] with [re.M] *)
Definition chunk_prefix : regex :=
  [Bol; Star is_space; Plus is_digit; Star is_space; Chr ":"; Star is_space].

Definition strip_chunk_prefixes (rsc_body : text) : text :=
  sub chunk_prefix [] rsc_body.

(** The two brace-matching loops of the extractors are one loop up to the
    bracket pair. Its state: [Code] is the outer [while], [InString] the
    inner [while] that skips a string, [Escaped] the character jumped over by
    [i += 2] after a backslash. [depth] is a Python integer; [n] counts the
    characters read since [start]. The result is the length of the span
    [joined[start:i+1]] at the closing bracket that brings [depth] to zero,
    or [None] when the text ends first. *)
Inductive scan_mode : Type := Code | InString | Escaped.

Fixpoint scan_balanced (opn cls : ascii) (s : text) (m : scan_mode) (depth : Z)
         (n : nat) : option nat :=
  match s with
  | [] => None
  | ch :: s' =>
      match m with
      | Code =>
          if Ascii.eqb ch opn then scan_balanced opn cls s' Code (depth + 1) (S n)
          else if Ascii.eqb ch cls then
                 if (depth - 1 =? 0)%Z then Some (S n)
                 else scan_balanced opn cls s' Code (depth - 1) (S n)
          else if Ascii.eqb ch dquote then scan_balanced opn cls s' InString depth (S n)
          else scan_balanced opn cls s' Code depth (S n)
      | InString =>
          if Ascii.eqb ch backslash then scan_balanced opn cls s' Escaped depth (S n)
          else if Ascii.eqb ch dquote then scan_balanced opn cls s' Code depth (S n)
          else scan_balanced opn cls s' InString depth (S n)
      | Escaped => scan_balanced opn cls s' InString depth (S n)
      end
  end.

(** The span that starts at index [start] of [joined]. *)
Definition balanced_span (opn cls : ascii) (joined : text) (start : nat) : option text :=
  match scan_balanced opn cls (skipn start joined) Code 0 0 with
  | Some len => Some (firstn len (skipn start joined))
  | None => None
  end.

(** ['{re.escape(key)}'\s*:\s*\[] *)
Definition key_anchor (key : text) : regex :=
  Chr dquote :: Lit key ++ [Chr dquote; Star is_space; Chr ":"; Star is_space; Chr "["].

(** The span [arr_text] of [extract_json_array_from_rsc], before it is
    normalized and parsed. *)
Definition array_span (body_text key : text) : option text :=
  let joined := strip_chunk_prefixes body_text in
  match search (key_anchor key) joined with
  | None => None
  | Some (_, e) => balanced_span "[" "]" joined (e - 1)
  end.

(** ['id':'{target_id}'] *)
Definition id_anchor (target_id : text) : text :=
  q "'id':'" ++ target_id ++ [dquote].

(** [while start > 0 and joined[start] != '{': start -= 1] *)
Fixpoint walk_left (joined : text) (start : nat) : nat :=
  match start with
  | O => O
  | S k => if Ascii.eqb (nth start joined "000"%char) "{" then start
           else walk_left joined k
  end.

(** The span [obj_text] of [extract_first_object_with_id]. *)
Definition object_span (body_text target_id : text) : option text :=
  let joined := strip_chunk_prefixes body_text in
  match str_find joined (id_anchor target_id) with
  | None => None
  | Some pos => balanced_span "{" "}" joined (walk_left joined pos)
  end.

(* ================================================================== *)
(** * JSON values and [json.loads] *)

(** A Python string: a list of code points. *)
Definition ustring := list N.

Definition u (t : text) : ustring := map code t.

(** The values [json.loads] produces. A number written with a fraction or an
    exponent, and the constants NaN, Infinity and -Infinity, are floats;
    floating point is outside the embedding and a float is kept as its
    lexeme. A dict keeps its keys in insertion order. *)
Inductive json : Type :=
| JNull
| JBool (b : bool)
| JInt (z : Z)
| JFloat (lexeme : text)
| JStr (s : ustring)
| JArr (items : list json)
| JObj (fields : list (ustring * json)).

Fixpoint ustring_eqb (a b : ustring) : bool :=
  match a, b with
  | [], [] => true
  | x :: a', y :: b' => (x =? y)%N && ustring_eqb a' b'
  | _, _ => false
  end.

Fixpoint dict_get (k : ustring) (d : list (ustring * json)) : option json :=
  match d with
  | [] => None
  | (k', v) :: d' => if ustring_eqb k k' then Some v else dict_get k d'
  end.

(** [d[k] = v]: an existing key keeps its place and takes the new value. *)
Fixpoint dict_set (k : ustring) (v : json) (d : list (ustring * json))
  : list (ustring * json) :=
  match d with
  | [] => [(k, v)]
  | (k', v') :: d' => if ustring_eqb k k' then (k', v) :: d'
                      else (k', v') :: dict_set k v d'
  end.

Module Json.

(** The whitespace of the JSON grammar: space, TAB, LF, CR. *)
Definition is_ws (c : ascii) : bool :=
  Ascii.eqb c " " || Ascii.eqb c "009" || Ascii.eqb c newline || Ascii.eqb c "013".

Fixpoint skip_ws (s : text) : text :=
  match s with
  | c :: s' => if is_ws c then skip_ws s' else s
  | [] => []
  end.

Definition hex_digit (c : ascii) : option N :=
  if in_range "0" "9" c then Some (code c - 48)%N
  else if in_range "a" "f" c then Some (code c - 87)%N
  else if in_range "A" "F" c then Some (code c - 55)%N
  else None.

Definition hex4 (a b c d : ascii) : option N :=
  match hex_digit a, hex_digit b, hex_digit c, hex_digit d with
  | Some x, Some y, Some z, Some w => Some (((x * 16 + y) * 16 + z) * 16 + w)%N
  | _, _, _, _ => None
  end.

Definition is_high_surrogate (n : N) : bool := (55296 <=? n)%N && (n <=? 56319)%N.
Definition is_low_surrogate (n : N) : bool := (56320 <=? n)%N && (n <=? 57343)%N.
Definition join_surrogates (hi lo : N) : N :=
  (65536 + ((hi - 55296) * 1024 + (lo - 56320)))%N.

(** The one-character escapes. *)
Definition simple_escape (c : ascii) : option N :=
  if Ascii.eqb c dquote then Some 34%N
  else if Ascii.eqb c backslash then Some 92%N
  else if Ascii.eqb c "/" then Some 47%N
  else if Ascii.eqb c "b" then Some 8%N
  else if Ascii.eqb c "f" then Some 12%N
  else if Ascii.eqb c "n" then Some 10%N
  else if Ascii.eqb c "r" then Some 13%N
  else if Ascii.eqb c "t" then Some 9%N
  else None.

(** The body of a string literal, from the character after the opening
    quote (strict mode: a control character is an error); [out] is the
    decoded text so far, reversed. *)
Fixpoint scan_string (s : text) (out : ustring) : option (ustring * text) :=
  match s with
  | [] => None
  | c :: s1 =>
      if Ascii.eqb c dquote then Some (rev out, s1)
      else if Ascii.eqb c backslash then
        match s1 with
        | [] => None
        | e :: s2 =>
            if Ascii.eqb e "u" then
              match s2 with
              | h1 :: h2 :: h3 :: h4 :: s3 =>
                  match hex4 h1 h2 h3 h4 with
                  | None => None
                  | Some hi =>
                      if is_high_surrogate hi then
                        match s3 with
                        | b :: v :: l1 :: l2 :: l3 :: l4 :: s4 =>
                            if Ascii.eqb b backslash && Ascii.eqb v "u" then
                              match hex4 l1 l2 l3 l4 with
                              | None => None
                              | Some lo =>
                                  if is_low_surrogate lo
                                  then scan_string s4 (join_surrogates hi lo :: out)
                                  else scan_string s3 (hi :: out)
                              end
                            else scan_string s3 (hi :: out)
                        | _ => scan_string s3 (hi :: out)
                        end
                      else scan_string s3 (hi :: out)
                  end
              | _ => None
              end
            else match simple_escape e with
                 | Some n => scan_string s2 (n :: out)
                 | None => None
                 end
        end
      else if (code c <? 32)%N then None
      else scan_string s1 (code c :: out)
  end.

(** Decimal digits to a natural number. *)
Definition digits_value (ds : text) : Z :=
  fold_left (fun acc c => (acc * 10 + Z.of_N (code c - 48))%Z) ds 0%Z.

(** The integer part [0|[1-9]\d*] at the head of [s]. *)
Definition int_part (s : text) : option (text * text) :=
  match s with
  | c :: s' =>
      if Ascii.eqb c "0" then Some ([c], s')
      else if in_range "1" "9" c
           then let ds := take_while is_digit s' in
                Some (c :: ds, skipn (length ds) s')
           else None
  | [] => None
  end.

(** The fraction [\.\d+], when present. *)
Definition frac_part (s : text) : text * text :=
  match s with
  | c :: s' =>
      if Ascii.eqb c "." then
        match take_while is_digit s' with
        | [] => ([], s)
        | ds => (c :: ds, skipn (length ds) s')
        end
      else ([], s)
  | [] => ([], s)
  end.

(** The exponent [[eE][-+]?\d+], when present. *)
Definition exp_part (s : text) : text * text :=
  match s with
  | c :: s' =>
      if Ascii.eqb c "e" || Ascii.eqb c "E" then
        let (sign, s'') :=
          match s' with
          | g :: r => if Ascii.eqb g "-" || Ascii.eqb g "+" then ([g], r) else ([], s')
          | [] => ([], s')
          end in
        match take_while is_digit s'' with
        | [] => ([], s)
        | ds => (c :: sign ++ ds, skipn (length ds) s'')
        end
      else ([], s)
  | [] => ([], s)
  end.

(** A number at the head of [s]: an integer when it has neither fraction
    nor exponent, a float otherwise. *)
Definition scan_number (s : text) : option (json * text) :=
  let (neg, s0) :=
    match s with
    | c :: s' => if Ascii.eqb c "-" then (true, s') else (false, s)
    | [] => (false, s)
    end in
  match int_part s0 with
  | None => None
  | Some (ip, s1) =>
      let (fp, s2) := frac_part s1 in
      let (ep, s3) := exp_part s2 in
      match fp, ep with
      | [], [] => Some (JInt (if neg then (- digits_value ip)%Z else digits_value ip), s3)
      | _, _ => Some (JFloat ((if neg then ["-"%char] else []) ++ ip ++ fp ++ ep), s3)
      end
  end.

Definition literal (word : string) (v : json) (s : text) : option (json * text) :=
  if starts_with (txt word) s then Some (v, skipn (String.length word) s) else None.

(** [scan_once]: one value at the head of [s] (no leading whitespace).
    [fuel] bounds the number of nested calls; [loads] gives enough. *)
Fixpoint scan_once (fuel : nat) (s : text) : option (json * text) :=
  match fuel with
  | O => None
  | S fuel' =>
      match s with
      | [] => None
      | c :: s' =>
          if Ascii.eqb c dquote then
            match scan_string s' [] with
            | Some (str, r) => Some (JStr str, r)
            | None => None
            end
          else if Ascii.eqb c "{" then
            match skip_ws s' with
            | d :: r => if Ascii.eqb d "}" then Some (JObj [], r)
                        else parse_members fuel' (d :: r) []
            | [] => None
            end
          else if Ascii.eqb c "[" then
            match skip_ws s' with
            | d :: r => if Ascii.eqb d "]" then Some (JArr [], r)
                        else parse_items fuel' (d :: r) []
            | [] => None
            end
          else if Ascii.eqb c "n" then literal "null" JNull s
          else if Ascii.eqb c "t" then literal "true" (JBool true) s
          else if Ascii.eqb c "f" then literal "false" (JBool false) s
          else if Ascii.eqb c "N" then literal "NaN" (JFloat (txt "NaN")) s
          else if Ascii.eqb c "I" then literal "Infinity" (JFloat (txt "Infinity")) s
          else if Ascii.eqb c "-" && starts_with (txt "-Infinity") s
               then literal "-Infinity" (JFloat (txt "-Infinity")) s
          else scan_number s
      end
  end

(** The elements of an array, from the first one; [acc] is reversed. *)
with parse_items (fuel : nat) (s : text) (acc : list json) : option (json * text) :=
  match fuel with
  | O => None
  | S fuel' =>
      match scan_once fuel' s with
      | None => None
      | Some (v, r) =>
          match skip_ws r with
          | d :: r' =>
              if Ascii.eqb d "]" then Some (JArr (rev (v :: acc)), r')
              else if Ascii.eqb d "," then parse_items fuel' (skip_ws r') (v :: acc)
              else None
          | [] => None
          end
      end
  end

(** The members of an object, from the first key. *)
with parse_members (fuel : nat) (s : text) (acc : list (ustring * json))
     : option (json * text) :=
  match fuel with
  | O => None
  | S fuel' =>
      match s with
      | c :: s' =>
          if Ascii.eqb c dquote then
            match scan_string s' [] with
            | None => None
            | Some (key, r) =>
                match skip_ws r with
                | d :: r1 =>
                    if Ascii.eqb d ":" then
                      match scan_once fuel' (skip_ws r1) with
                      | None => None
                      | Some (v, r2) =>
                          match skip_ws r2 with
                          | e :: r3 =>
                              if Ascii.eqb e "}" then Some (JObj (dict_set key v acc), r3)
                              else if Ascii.eqb e ","
                                   then parse_members fuel' (skip_ws r3) (dict_set key v acc)
                                   else None
                          | [] => None
                          end
                      end
                    else None
                | [] => None
                end
            end
          else None
      | [] => None
      end
  end.

(** [json.loads(s)]: one value, surrounded by whitespace only; [None] is
    the [JSONDecodeError]. Nesting depth and integer size are unbounded. *)
Definition loads (s : text) : option json :=
  match scan_once (2 * length s + 1) (skip_ws s) with
  | Some (v, r) => match skip_ws r with
                   | [] => Some v
                   | _ :: _ => None
                   end
  | None => None
  end.

End Json.

(* ================================================================== *)
(** * The stream decoder *)

(** [extract_json_array_from_rsc]. A span starts with its opening bracket,
    so a successful parse is a list ([decoded_span_is_array] below); the
    branch for another value is never taken. *)
Definition extract_json_array_from_rsc (body_text key : text) : list json :=
  match array_span body_text key with
  | None => []
  | Some arr_text =>
      match Json.loads (normalize_rsc_tokens arr_text) with
      | Some (JArr rows) => rows
      | Some _ => []
      | None => []
      end
  end.

(** [extract_first_object_with_id]; [None] is Python's [None]. *)
Definition extract_first_object_with_id (body_text target_id : text) : option json :=
  match object_span body_text target_id with
  | None => None
  | Some obj_text => Json.loads (normalize_rsc_tokens obj_text)
  end.

(* ================================================================== *)
(** * Python operations on decoded values *)

(** What the crawl can ask of a float: whether it is zero, and whether it
    equals another float or an integer. They stay parameters. *)
Record float_ops : Type := {
  float_is_zero : text -> bool;
  float_eq : text -> text -> bool;
  float_eq_int : text -> Z -> bool
}.

Section PyValues.

Variable fl : float_ops.

(** [bool(v)] *)
Definition truthy (v : json) : bool :=
  match v with
  | JNull => false
  | JBool b => b
  | JInt z => negb (z =? 0)%Z
  | JFloat x => negb (float_is_zero fl x)
  | JStr s => match s with [] => false | _ => true end
  | JArr l => match l with [] => false | _ => true end
  | JObj d => match d with [] => false | _ => true end
  end.

Definition Z_of_bool (b : bool) : Z := if b then 1%Z else 0%Z.

(** [a == b] *)
Fixpoint py_eq (a b : json) : bool :=
  match a, b with
  | JNull, JNull => true
  | JBool x, JBool y => Bool.eqb x y
  | JBool x, JInt y => (Z_of_bool x =? y)%Z
  | JInt x, JBool y => (x =? Z_of_bool y)%Z
  | JInt x, JInt y => (x =? y)%Z
  | JBool x, JFloat y => float_eq_int fl y (Z_of_bool x)
  | JFloat x, JBool y => float_eq_int fl x (Z_of_bool y)
  | JInt x, JFloat y => float_eq_int fl y x
  | JFloat x, JInt y => float_eq_int fl x y
  | JFloat x, JFloat y => float_eq fl x y
  | JStr x, JStr y => ustring_eqb x y
  | JArr xs, JArr ys =>
      (fix all2 (xs ys : list json) : bool :=
         match xs, ys with
         | [], [] => true
         | x :: xs', y :: ys' => py_eq x y && all2 xs' ys'
         | _, _ => false
         end) xs ys
  | JObj dx, JObj dy =>
      (length dx =? length dy)
      && (fix sub (d : list (ustring * json)) : bool :=
            match d with
            | [] => true
            | (k, v) :: d' =>
                match dict_get k dy with
                | Some w => py_eq v w && sub d'
                | None => false
                end
            end) dx
  | _, _ => false
  end.

End PyValues.

(* ================================================================== *)
(** * CSV helpers *)

Definition is_dict (v : json) : bool :=
  match v with
  | JObj _ => true
  | _ => false
  end.

(** [out.update(sub)]: the members of [sub], in their order, set in [out]. *)
Definition dict_update (out sub : list (ustring * json)) : list (ustring * json) :=
  fold_left (fun o kv => dict_set (fst kv) (snd kv) o) sub out.

(** [f'{parent}{sep}{k}' if parent else k], with the default [sep], a dot. *)
Definition flat_key (parent k : ustring) : ustring :=
  match parent with
  | [] => k
  | _ :: _ => parent ++ u (txt ".") ++ k
  end.

(** [flatten(d, parent)] for the dict [JObj d]; the inner loop is the [for]
    over [d.items()], [out] its local dict. A value that is no dict has no
    [items]: [flatten_row] below gives the error its place. *)
Fixpoint flatten_value (parent : ustring) (v : json) {struct v} : list (ustring * json) :=
  match v with
  | JObj d =>
      (fix members (d : list (ustring * json)) (out : list (ustring * json))
           {struct d} : list (ustring * json) :=
         match d with
         | [] => out
         | (k, x) :: d' =>
             members d'
               (match x with
                | JObj _ => dict_update out (flatten_value (flat_key parent k) x)
                | _ => dict_set (flat_key parent k) x out
                end)
         end) d []
  | _ => []
  end.

(** The loop of [flatten] on its own: the members [d] of the dict, read into
    [out]. *)
Fixpoint flatten_members (parent : ustring) (d out : list (ustring * json))
  : list (ustring * json) :=
  match d with
  | [] => out
  | (k, x) :: d' =>
      flatten_members parent d'
        (match x with
         | JObj _ => dict_update out (flatten_value (flat_key parent k) x)
         | _ => dict_set (flat_key parent k) x out
         end)
  end.

Definition flatten (d : list (ustring * json)) (parent : ustring)
  : list (ustring * json) :=
  flatten_value parent (JObj d).

(** [flatten(r)] for a row of [rows]: [None] is the [AttributeError] of a
    row that is no dict. *)
Definition flatten_row (r : json) : option (list (ustring * json)) :=
  match r with
  | JObj d => Some (flatten d [])
  | _ => None
  end.

(** [[flatten(r) for r in rows]]: the first row that is no dict raises. *)
Fixpoint flatten_rows (rows : list json) : option (list (list (ustring * json))) :=
  match rows with
  | [] => Some []
  | r :: rest =>
      match flatten_row r with
      | None => None
      | Some fr =>
          match flatten_rows rest with
          | None => None
          | Some flat => Some (fr :: flat)
          end
      end
  end.

Definition ustring_mem (k : ustring) (l : list ustring) : bool :=
  existsb (ustring_eqb k) l.

(** One turn of the loop of [write_csv] over the keys: the state is
    [(seen, keys_order)]. *)
Definition note_key (st : list ustring * list ustring) (k : ustring)
  : list ustring * list ustring :=
  let (seen, keys_order) := st in
  if ustring_mem k seen then st else (k :: seen, keys_order ++ [k]).

(** The keys of the flattened rows, row after row. *)
Definition all_keys (flat : list (list (ustring * json))) : list ustring :=
  flat_map (map fst) flat.

Definition preferred : list ustring :=
  map (fun s => u (txt s))
      ["id"; "slug"; "name"; "description"; "locale"; "sizeBytes"; "createdAt";
       "metadata.task"; "metadata.format"; "metadata.license";
       "organization.name"; "organization.slug"]%string.

(** The [fieldnames] that [write_csv] gives to [csv.DictWriter], from the
    flattened rows. *)
Definition csv_fieldnames (flat : list (list (ustring * json))) : list ustring :=
  let (seen, keys_order) := fold_left note_key (all_keys flat) ([], []) in
  filter (fun k => ustring_mem k seen) preferred
  ++ filter (fun k => negb (ustring_mem k preferred)) keys_order.

(* ================================================================== *)
(** * The transport and the crawl *)

Definition PAGE_LIMIT : nat := 24.

(** The requests of the script. The headers are constants of the script and
    are left out; [PostList] carries the [lastId] member of the payload
    ([None]: the payload has no such member). *)
Inductive request : Type :=
| PostList (last_id : option json)
| GetList
| GetDetail (ds_id : text).

Record response : Type := { status_code : Z; body : text }.

(** What a call of [session.get] or [session.post] does: it returns a
    response or raises (connection error, timeout). *)
Inductive reply : Type :=
| Answers (r : response)
| Fails.

(** The server as the script sees it: the reply to its n-th call. *)
Definition transport := nat -> request -> reply.

Inductive exn : Type :=
| HTTPError            (* requests.HTTPError, from raise_for_status *)
| RequestException     (* raised by the session itself; not an HTTPError *)
| KeyError
| TypeError
| AttributeError.      (* flatten on a row that is no dict: no [items] *)

(** The state [main] works on: the number of calls made so far, the local
    [all_rows], and the rows [write_csv] was given, if it was called. *)
Record crawl_state : Type := {
  calls : nat;
  all_rows : list json;
  csv_out : option (list json)
}.

Definition start_state : crawl_state :=
  {| calls := 0; all_rows := []; csv_out := None |}.

(** [Diverge]: the loop was still running when the fuel ran out. *)
Inductive result (A : Type) : Type :=
| Ok (a : A)
| Raise (e : exn)
| Diverge.
Arguments Raise {A} e.
Arguments Diverge {A}.

Definition M (A : Type) : Type := crawl_state -> result A * crawl_state.

Definition ret (A : Type) (a : A) : M A := fun st => (Ok a, st).

Definition bind (A B : Type) (m : M A) (k : A -> M B) : M B :=
  fun st => match m st with
            | (Ok a, st') => k a st'
            | (Raise e, st') => (Raise e, st')
            | (Diverge, st') => (Diverge, st')
            end.

Definition raise (A : Type) (e : exn) : M A := fun st => (Raise e, st).
Arguments raise {A} e.

Notation "x <- m ;; k" := (bind m (fun x => k))
  (at level 61, m at next level, right associativity).
Notation "m ;;; k" := (bind m (fun _ => k))
  (at level 61, right associativity).

(** [rows[-1]] of a non-empty list. *)
Definition last_row (rows : list json) : option json :=
  match rev rows with
  | r :: _ => Some r
  | [] => None
  end.

(** [row["id"]] *)
Definition getitem_id (row : json) : M json :=
  match row with
  | JObj d => match dict_get (u (txt "id")) d with
              | Some v => ret v
              | None => raise KeyError
              end
  | _ => raise TypeError
  end.

(** [^/datasets/([a-z0-9]+)$] *)
Definition id_char (c : ascii) : bool := in_range "a" "z" c || in_range "0" "9" c.

Definition dataset_href : regex :=
  Bos :: Lit (txt "/datasets/") ++ [GroupPlus id_char; Eos].

(** [m.group(1)] of [re.match] on an href, when it matches. *)
Definition href_id (href : text) : option text :=
  match rmatch dataset_href href with
  | Some (_, g) => g
  | None => None
  end.

Definition text_mem (x : text) (l : list text) : bool := existsb (text_eqb x) l.

(** One turn of the loop that keeps the first occurrence of every id: the
    state is [(seen, ordered)]. *)
Definition keep_new (st : list text * list text) (i : text) : list text * list text :=
  let (seen, ordered) := st in
  if text_mem i seen then st else (i :: seen, ordered ++ [i]).

(** The part of [get_initial_ids_from_html] after the parse: from the hrefs
    of the [a] elements that have one, in document order, to the ids. *)
Definition ids_of_hrefs (hrefs : list text) : list text :=
  let ids := flat_map (fun href => match href_id href with
                                   | Some i => [i]
                                   | None => []
                                   end) hrefs in
  let ordered := snd (fold_left keep_new ids ([], [])) in
  firstn PAGE_LIMIT ordered.

Section Crawl.

Variable fl : float_ops.

(** [BeautifulSoup] is [None] when bs4 is not installed. Otherwise it is
    taken as the function from a document to the [href] values of
    [soup.find_all('a', href=True)], in document order. *)
Variable BeautifulSoup : option (text -> list text).

Variable server : transport.

Definition send (rq : request) : M response :=
  fun st =>
    let st' := {| calls := S (calls st); all_rows := all_rows st;
                  csv_out := csv_out st |} in
    match server (calls st) rq with
    | Answers r => (Ok r, st')
    | Fails => (Raise RequestException, st')
    end.

(** [r.raise_for_status()] *)
Definition raise_for_status (r : response) : M unit :=
  if ((400 <=? status_code r) && (status_code r <? 600))%Z
  then raise HTTPError else ret tt.

(** The loop of [get_initial_via_post] over its payloads. *)
Fixpoint first_page_of (payloads : list request) : M (list json) :=
  match payloads with
  | [] => ret []
  | payload :: rest =>
      r <- send payload ;;
      if (400 <=? status_code r)%Z then first_page_of rest
      else match extract_json_array_from_rsc (body r) (txt "datasets") with
           | [] => first_page_of rest
           | rows => ret rows
           end
  end.

Definition get_initial_via_post : M (list json) :=
  first_page_of [PostList None; PostList (Some (JStr []))].

Definition get_initial_ids_from_html : M (list text) :=
  match BeautifulSoup with
  | None => ret []
  | Some find_all_a_href =>
      r <- send GetList ;;
      raise_for_status r ;;;
      ret (ids_of_hrefs (find_all_a_href (body r)))
  end.

Definition get_detail_for_id (ds_id : text) : M (option json) :=
  r <- send (GetDetail ds_id) ;;
  if (400 <=? status_code r)%Z then ret None
  else ret (extract_first_object_with_id (body r) ds_id).

Definition post_load_more (last_id : json) : M (list json * json) :=
  r <- send (PostList (Some last_id)) ;;
  raise_for_status r ;;;
  let rows := extract_json_array_from_rsc (body r) (txt "datasets") in
  next_last <- match last_row rows with
               | Some row => getitem_id row
               | None => ret JNull
               end ;;
  ret (rows, next_last).

(** [all_rows.extend(rows)] and [all_rows.append(obj)] *)
Definition extend (rows : list json) : M unit :=
  fun st => (Ok tt, {| calls := calls st; all_rows := all_rows st ++ rows;
                       csv_out := csv_out st |}).

(** [write_csv(all_rows, OUT_CSV)]. It first flattens every row, which
    raises on a row that is no dict, before the file is opened; otherwise the
    output boundary receives the rows. The columns are [csv_fieldnames] of
    the flattened rows; what the csv module then writes, the encoding of
    the file included, is outside the embedding. *)
Definition write_csv : M unit :=
  fun st => match flatten_rows (all_rows st) with
            | Some _ => (Ok tt, {| calls := calls st; all_rows := all_rows st;
                                   csv_out := Some (all_rows st) |})
            | None => (Raise AttributeError, st)
            end.

(** [{'id': ds_id}] *)
Definition minimal_record (ds_id : text) : json :=
  JObj [(u (txt "id"), JStr (u ds_id))].

(** [get_detail_for_id(s, ds_id) or {'id': ds_id}] *)
Definition detail_or_minimal (ds_id : text) (obj : option json) : json :=
  match obj with
  | Some o => if truthy fl o then o else minimal_record ds_id
  | None => minimal_record ds_id
  end.

(** The loop of the fallback branch over the seed ids. *)
Fixpoint fetch_details (ids : list text) : M unit :=
  match ids with
  | [] => ret tt
  | ds_id :: rest =>
      obj <- get_detail_for_id ds_id ;;
      extend [detail_or_minimal ds_id obj] ;;;
      fetch_details rest
  end.

(** The [while last_id:] loop of part B; [fuel] bounds its turns. *)
Fixpoint load_more_loop (fuel : nat) (last_id : json) : M unit :=
  if truthy fl last_id then
    match fuel with
    | O => fun st => (Diverge, st)
    | S fuel' =>
        page <- post_load_more last_id ;;
        let (rows, next_last) := page in
        match rows with
        | [] => ret tt
        | _ :: _ =>
            if py_eq fl next_last last_id then ret tt
            else extend rows ;;; load_more_loop fuel' next_last
        end
    end
  else ret tt.

(** The fallback branch of part A: the seed ids from the listing page, one
    detail fetch for each; the result is the first cursor. *)
Definition fallback_seed : M json :=
  ids <- get_initial_ids_from_html ;;
  fetch_details ids ;;;
  ret (match rev ids with
       | i :: _ => JStr (u i)
       | [] => JNull
       end).

(** Part A of [main]: the first page, or the fallback; the result is the
    first cursor. *)
Definition first_cursor : M json :=
  init_rows <- get_initial_via_post ;;
  match last_row init_rows with
  | Some row =>
      extend init_rows ;;;
      getitem_id row
  | None => fallback_seed
  end.

Definition main (fuel : nat) : M unit :=
  last_id <- first_cursor ;;
  load_more_loop fuel last_id ;;;
  write_csv.

(** How the script ends. *)
Inductive ending : Type :=
| Completed                (* main returned *)
| ExitOne                  (* the guard caught HTTPError: sys.exit(1) *)
| Uncaught (e : exn)       (* another exception leaves the script *)
| StillRunning.

(** The [__main__] guard around [main]. *)
Definition script (fuel : nat) : ending * crawl_state :=
  match main fuel start_state with
  | (Ok _, st) => (Completed, st)
  | (Raise HTTPError, st) => (ExitOne, st)
  | (Raise e, st) => (Uncaught e, st)
  | (Diverge, st) => (StillRunning, st)
  end.

End Crawl.

(* ================================================================== *)
(** * Notions the properties are stated with *)

(** The two tokens of the normalizer's test properties. *)
Definition number_token : text := q "'$n42'".
Definition date_token : text := q "'$D2024-01-01T00:00:00Z'".

(** ** JSON-like text as the scanner reads it

    Outside a string literal every character counts ([Out]); a string
    literal is a sequence of plain characters and of escapes, a backslash
    and the character after it, whatever it is. *)
Inductive schar : Type :=
| Plain (c : ascii)
| Esc (c : ascii).

Inductive item : Type :=
| Out (c : ascii)
| Str (chars : list schar).

Definition render_schar (x : schar) : text :=
  match x with
  | Plain c => [c]
  | Esc c => [backslash; c]
  end.

Definition render_item (it : item) : text :=
  match it with
  | Out c => [c]
  | Str chars => dquote :: flat_map render_schar chars ++ [dquote]
  end.

Definition render (items : list item) : text := flat_map render_item items.

(** A plain character of a string is neither the quote nor the backslash;
    a character outside a string is not the quote. *)
Definition schar_ok (x : schar) : bool :=
  match x with
  | Plain c => negb (Ascii.eqb c dquote) && negb (Ascii.eqb c backslash)
  | Esc _ => true
  end.

Definition item_ok (it : item) : bool :=
  match it with
  | Out c => negb (Ascii.eqb c dquote)
  | Str chars => forallb schar_ok chars
  end.

Definition well_formed (items : list item) : bool := forallb item_ok items.

(** What an item adds to the nesting depth of the bracket pair [opn], [cls]:
    only a bracket outside a string counts. *)
Definition depth_step (opn cls : ascii) (it : item) : Z :=
  match it with
  | Out c => if Ascii.eqb c opn then 1 else if Ascii.eqb c cls then -1 else 0
  | Str _ => 0
  end%Z.

Definition depth_of (opn cls : ascii) (items : list item) : Z :=
  fold_right (fun it d => depth_step opn cls it + d)%Z 0%Z items.

(** From depth [d], the depth stays positive after every item. *)
Fixpoint stays_open (opn cls : ascii) (d : Z) (items : list item) : bool :=
  match items with
  | [] => true
  | it :: rest => (0 <? d + depth_step opn cls it)%Z
                  && stays_open opn cls (d + depth_step opn cls it) rest
  end.

(** The inside of a balanced bracket pair: every closing bracket closes a
    bracket opened inside, and none is left open. *)
Definition balanced_inside (opn cls : ascii) (inner : list item) : bool :=
  stays_open opn cls 1 inner && (depth_of opn cls inner =? 0)%Z.

(** A balanced array: brackets around a balanced inside. *)
Definition array_of (inner : list item) : list item :=
  Out "[" :: inner ++ [Out "]"].

(** A string literal without escapes, and the items of a text without
    strings. *)
Definition plain (s : string) : list schar := map Plain (txt s).
Definition outs (s : string) : list item := map Out (txt s).

(** The inside of the array [[{'d':'a]{[\'x'}]]: one record whose string holds
    brackets, braces and an escaped quote. *)
Definition tricky_inside : list item :=
  outs "{" ++ [Str (plain "d")] ++ outs ":"
  ++ [Str (plain "a]{[" ++ [Esc dquote] ++ plain "x")] ++ outs "}".

(** ** Reference tokens *)

(** The name of a reference token that the number and date rules leave
    alone: a non-empty word over [@A-Za-z0-9_] that does not start with [D],
    nor with [n] and a digit. *)
Definition plain_ref (ref : text) : bool :=
  match ref with
  | [] => false
  | c :: r =>
      negb (Ascii.eqb c "D")
      && negb (Ascii.eqb c "n" && match r with
                                  | d :: _ => is_digit d
                                  | [] => false
                                  end)
      && forallb ref_char ref
  end.

(** ** Chunk prefixes *)

(** The characters a chunk prefix is made of: whitespace, digits, the
    colon. *)
Definition prefix_char (c : ascii) : bool :=
  is_space c || is_digit c || Ascii.eqb c ":".

(** Every character a pattern can consume is in the class [C]. *)
Definition atom_within (C : ascii -> bool) (a : atom) : Prop :=
  match a with
  | Chr c => C c = true
  | Rep _ _ cls => forall x, cls x = true -> C x = true
  | _ => True
  end.

(** The inside of the record [{'id':'abc123','n':{'x':'}'}}]: the id comes
    before the nested object, whose string holds a closing brace. *)
Definition record_inside : list item :=
  [Str (plain "id")] ++ outs ":" ++ [Str (plain "abc123")] ++ outs ","
  ++ [Str (plain "n")] ++ outs ":{" ++ [Str (plain "x")] ++ outs ":"
  ++ [Str (plain "}")] ++ outs "}".

(** ** The links of the listing page *)

Definition option_list (A : Type) (o : option A) : list A :=
  match o with
  | Some a => [a]
  | None => []
  end.

(** The ids of a list in the order of their first appearance: the k-th one
    is kept exactly when it is not among the k before it. *)
Definition first_occurrences (ids : list text) : list text :=
  flat_map (fun k => let i := nth k ids [] in
                     if text_mem i (firstn k ids) then [] else [i])
           (seq 0 (length ids)).

(** The specification's reading of a matching link: the href is exactly
    [/datasets/<id>], [<id>] a non-empty word over [a-z0-9]. *)
Definition exact_link_id (href : text) : option text :=
  if starts_with (txt "/datasets/") href then
    match skipn 10 href with
    | [] => None
    | i => if forallb id_char i then Some i else None
    end
  else None.

(** The discoverer as the specification words it. *)
Definition spec_ids_of_hrefs (hrefs : list text) : list text :=
  firstn PAGE_LIMIT
    (first_occurrences (flat_map (fun href => option_list (exact_link_id href)) hrefs)).

(** ** Concrete runs *)

(** Floats of the examples: none occurs, any choice does. *)
Definition lexeme_floats : float_ops :=
  {| float_is_zero := fun _ => false;
     float_eq := text_eqb;
     float_eq_int := fun _ _ => false |}.

Definition ok_reply (b : text) : reply := Answers {| status_code := 200; body := b |}.

Definition status_reply (st : Z) : reply := Answers {| status_code := st; body := [] |}.

(** A server whose first page holds one record and whose next answer is an
    internal server error. *)
Definition server_failing_on_page_two : transport :=
  fun n _ => match n with
             | O => ok_reply (q "0:{'datasets':[{'id':'a'}]}")
             | _ => status_reply 500
             end.

(** A server with three pages; the third repeats the cursor it was given. *)
Definition server_that_stalls : transport :=
  fun n _ => match n with
             | 0 => ok_reply (q "0:{'datasets':[{'id':'a'}]}")
             | 1 => ok_reply (q "0:{'datasets':[{'id':'b'},{'id':'c'}]}")
             | _ => ok_reply (q "0:{'datasets':[{'id':'c'}]}")
             end.

(** A server whose first page is a genuine empty array on the first call and
    undecodable on the second; it knows the detail of [a1] only. *)
Definition server_without_first_page : transport :=
  fun n rq => match rq with
              | PostList _ => match n with
                              | O => ok_reply (q "0:{'datasets':[]}")
                              | _ => ok_reply (q "1:{'error':'x'}")
                              end
              | GetList => ok_reply (txt "<html>")
              | GetDetail i =>
                  if text_eqb i (txt "a1")
                  then ok_reply (q "1:{'x':{'id':'a1','n':'$n5'}}")
                  else status_reply 404
              end.

(** The links of the fallback scenario. *)
Definition three_links : list text :=
  [txt "/datasets/a1"; txt "/datasets/a2"; txt "/datasets/a1"].

(** The text may end where the dollar of the pattern stands: at its end, or
    before one last line feed. *)
Definition ends_here (r : text) : bool :=
  match r with
  | [] => true
  | [c] => Ascii.eqb c newline
  | _ => false
  end.

(** ** The crawl *)

(** A computation of the crawl that does not touch the output boundary. *)
Definition keeps_csv (A : Type) (m : M A) : Prop :=
  forall st, csv_out (snd (m st)) = csv_out st.


(** The state after the rows of a page are added to [all_rows]. *)
Definition with_rows (st : crawl_state) (rows : list json) : crawl_state :=
  {| calls := calls st; all_rows := all_rows st ++ rows; csv_out := csv_out st |}.

(** The state after one more call. *)
Definition after_call (st : crawl_state) : crawl_state :=
  {| calls := S (calls st); all_rows := all_rows st; csv_out := csv_out st |}.

(** The page fetched with cursor [c] in state [st] ends the paging: it is
    empty, or its last identifier equals the cursor. *)
Definition stops_here (fl : float_ops) (server : transport) (st : crawl_state)
           (c : json) : bool :=
  truthy fl c
  && match post_load_more server c st with
     | (Ok (rows, next_last), _) =>
         match rows with
         | [] => true
         | _ :: _ => py_eq fl next_last c
         end
     | _ => false
     end.

(** [k] pages in a row, from cursor [c] in state [st], each of them fetched
    without failure, not empty and with a new last identifier: the state and
    the cursor after them. *)
Fixpoint advancing_pages (fl : float_ops) (server : transport) (k : nat)
         (st : crawl_state) (c : json) : option (crawl_state * json) :=
  match k with
  | O => Some (st, c)
  | S k' =>
      if truthy fl c then
        match post_load_more server c st with
        | (Ok (rows, next_last), st1) =>
            match rows with
            | [] => None
            | _ :: _ =>
                if py_eq fl next_last c then None
                else advancing_pages fl server k' (with_rows st1 rows) next_last
            end
        | _ => None
        end
      else None
  end.

(** Every detail fetch for [ids], from the n-th call on, gets an answer. *)
Fixpoint details_answered (server : transport) (n : nat) (ids : list text) : bool :=
  match ids with
  | [] => true
  | ds_id :: rest =>
      match server n (GetDetail ds_id) with
      | Answers _ => details_answered server (S n) rest
      | Fails => false
      end
  end.

(** What the detail fetch made as n-th call yields for [ds_id]. *)
Definition detail_of (server : transport) (n : nat) (ds_id : text) : option json :=
  match server n (GetDetail ds_id) with
  | Answers r => if (400 <=? status_code r)%Z then None
                 else extract_first_object_with_id (body r) ds_id
  | Fails => None
  end.

(** The detail is missing: the decode failed or gave nothing. *)
Definition no_detail (fl : float_ops) (obj : option json) : bool :=
  match obj with
  | Some o => negb (truthy fl o)
  | None => true
  end.

(** A first-page answer from which [get_initial_via_post] gets no rows. *)
Definition yields_no_rows (r : response) : bool :=
  (400 <=? status_code r)%Z
  || match extract_json_array_from_rsc (body r) (txt "datasets") with
     | [] => true
     | _ :: _ => false
     end.

(** The property the specification states for a failure in mid-crawl: when
    the script ends on a transport failure with rows in [all_rows], the
    output boundary has received them. *)
Definition partial_rows_reach_output (fl : float_ops)
           (BeautifulSoup : option (text -> list text)) (server : transport)
           (fuel : nat) : Prop :=
  let (e, st) := script fl BeautifulSoup server fuel in
  (e = ExitOne \/ e = Uncaught RequestException) ->
  all_rows st <> [] ->
  csv_out st = Some (all_rows st).

(** A computation of the crawl that never raises the exception [e]. *)
Definition never_raises (A : Type) (e : exn) (m : M A) : Prop :=
  forall st, fst (m st) <> Raise e.

(** A server none of whose answers has a status that [raise_for_status]
    turns into an exception: 400 to 599. *)
Definition no_error_status (server : transport) : Prop :=
  forall n rq r, server n rq = Answers r ->
                 ((400 <=? status_code r) && (status_code r <? 600))%Z = false.

(** A server that answers every call. *)
Definition always_answers (server : transport) : Prop :=
  forall n rq, server n rq <> Fails.

(** A computation of the crawl that only adds rows at the end of [all_rows]
    and never lowers the call count. *)
Definition only_appends (A : Type) (m : M A) : Prop :=
  forall st, (exists more, all_rows (snd (m st)) = all_rows st ++ more)
             /\ calls st <= calls (snd (m st)).

(** A server whose first page ends with a record without an id. *)
Definition server_with_nameless_record : transport :=
  fun _ _ => ok_reply (q "0:{'datasets':[{'id':'a'},{'name':'b'}]}").

(** A server whose first page ends with a record whose id is an unresolved
    reference, which the normalizer turns into null. *)
Definition server_with_null_id : transport :=
  fun _ _ => ok_reply (q "0:{'datasets':[{'id':'a'},{'id':'$undefined'}]}").

(** A server that has no first page and refuses the listing page. *)
Definition server_refusing_listing : transport :=
  fun _ rq => match rq with
              | GetList => status_reply 503
              | _ => ok_reply (q "0:{'datasets':[]}")
              end.
(** A server with two pages; the id that ends the second is an unresolved
    reference. *)
Definition server_ending_with_null_id : transport :=
  fun n _ => match n with
             | O => ok_reply (q "0:{'datasets':[{'id':'a'}]}")
             | _ => ok_reply (q "0:{'datasets':[{'id':'$undefined'}]}")
             end.

(** ** Flattened records *)

(** [leaf_at path v x]: the member names [path], followed from the dict [v]
    through nested dicts, lead to the member [x], which is no dict. *)
Inductive leaf_at : list ustring -> json -> json -> Prop :=
| leaf_here (k : ustring) (d : list (ustring * json)) (x : json) :
    In (k, x) d -> is_dict x = false -> leaf_at [k] (JObj d) x
| leaf_below (k : ustring) (d sub : list (ustring * json)) (path : list ustring)
             (x : json) :
    In (k, JObj sub) d -> leaf_at path (JObj sub) x -> leaf_at (k :: path) (JObj d) x.

(** The key [flatten] builds for a path of member names below [parent]. *)
Definition path_key (parent : ustring) (path : list ustring) : ustring :=
  fold_left flat_key path parent.

(** A record with a nested dict, as the listing delivers them. *)
Definition nested_record : list (ustring * json) :=
  [(u (txt "id"), JStr (u (txt "a")));
   (u (txt "metadata"), JObj [(u (txt "task"), JStr (u (txt "asr")));
                              (u (txt "tags"), JObj [])]);
   (u (txt "sizeBytes"), JInt 5)].

(** A record without nested dicts. *)
Definition flat_record : list (ustring * json) :=
  [(u (txt "name"), JStr (u (txt "b")));
   (u (txt "id"), JStr (u (txt "a")));
   (u (txt "tags"), JArr [JObj []])].

(** The claim of C7 as the specification words it: whatever the pages are,
    the paging loop comes to an end. *)
Definition paging_terminates (fl : float_ops) (server : transport) (c : json)
           (st : crawl_state) : Prop :=
  exists fuel, fst (load_more_loop fl server fuel c st) <> Diverge.

(** A server whose pages alternate: the page of an even call ends with the
    id [a], the page of an odd call with the id [b]. *)
Definition server_that_alternates : transport :=
  fun n _ => if Nat.even n
             then ok_reply (q "0:{'datasets':[{'id':'a'}]}")
             else ok_reply (q "0:{'datasets':[{'id':'b'}]}").

(** The claim of C9 as the specification words it: every seed id
    contributes one record to the accumulated sequence. *)
Definition every_seed_contributes (fl : float_ops) (server : transport)
           (ids : list text) (st : crawl_state) : Prop :=
  exists recs,
    all_rows (snd (fetch_details fl server ids st)) = all_rows st ++ recs
    /\ length recs = length ids.

(** A server on which the detail fetch for [a2] fails in the session
    (a timeout, a refused connection). *)
Definition server_dropping_a_detail : transport :=
  fun _ rq => match rq with
              | GetDetail i =>
                  if text_eqb i (txt "a2") then Fails
                  else ok_reply (q "1:{'id':'a1','n':'$n5'}")
              | _ => ok_reply (q "0:{'datasets':[]}")
              end.

(** ** Token streams

    A well-formed input of the normalizer, piece by piece: stretches of text
    without a dollar sign, and tokens. A token is a number [$n<digits>], a
    date [$D<payload>] or a reference [$<name>], written in double quotes or
    bare; [arg] is the digits, the payload or the name. *)
Inductive token_kind : Type := Number | Date | Reference.

Inductive segment : Type :=
| Stretch (t : text)
| Token (quoted : bool) (kind : token_kind) (arg : text).

(** What follows the dollar sign. *)
Definition token_body (kind : token_kind) (arg : text) : text :=
  match kind with
  | Number => "n"%char :: arg
  | Date => "D"%char :: arg
  | Reference => arg
  end.

(** A segment as the input has it. *)
Definition written (sg : segment) : text :=
  match sg with
  | Stretch t => t
  | Token true kind arg => dquote :: "$"%char :: token_body kind arg ++ [dquote]
  | Token false kind arg => "$"%char :: token_body kind arg
  end.

(** A segment as the normalizer is meant to leave it: digits for a number,
    the quoted payload for a date, [null] for a reference. *)
Definition normal_form (sg : segment) : text :=
  match sg with
  | Stretch t => t
  | Token _ Number arg => arg
  | Token _ Date arg => dquote :: arg ++ [dquote]
  | Token _ Reference _ => txt "null"
  end.

Definition stream_text (segs : list segment) : text := flat_map written segs.

Definition stream_normal (segs : list segment) : text := flat_map normal_form segs.

Definition no_dollar (c : ascii) : bool := negb (Ascii.eqb c "$").

Definition nonempty (t : text) : bool :=
  match t with
  | [] => false
  | _ :: _ => true
  end.

(** The argument of a token: digits; a payload without dollar sign and, in
    quotes, without double quote, bare, of the characters of the bare date
    pattern; a name that the number and date rules leave alone. *)
Definition arg_ok (quoted : bool) (kind : token_kind) (arg : text) : bool :=
  match kind with
  | Number => nonempty arg && forallb is_digit arg
  | Date => nonempty arg && forallb no_dollar arg
            && forallb (if quoted then not_dquote else date_char) arg
  | Reference => plain_ref arg
  end.

(** The characters that end a bare token: whitespace, comma, closing
    bracket, closing brace, double quote. *)
Definition delimiter (c : ascii) : bool := negb (date_char c).

(** A bare token is followed by the end of the input or by a stretch that
    starts with a delimiter. *)
Definition ends_token (rest : list segment) : bool :=
  match rest with
  | [] => true
  | Stretch (c :: _) :: _ => delimiter c
  | _ => false
  end.

Fixpoint ends_with_quote (t : text) : bool :=
  match t with
  | [] => false
  | [c] => Ascii.eqb c dquote
  | _ :: t' => ends_with_quote t'
  end.

(** The segments are well separated: stretches are not empty and hold no
    dollar sign, the arguments of the tokens are as above, and a bare token
    stands at the start of the input or after a stretch that does not end
    with a double quote ([bare_ok]), and before a delimiter. Quoted tokens
    may stand anywhere. *)
Fixpoint well_separated (bare_ok : bool) (segs : list segment) : bool :=
  match segs with
  | [] => true
  | Stretch t :: rest =>
      nonempty t && forallb no_dollar t
      && well_separated (negb (ends_with_quote t)) rest
  | Token quoted kind arg :: rest =>
      arg_ok quoted kind arg
      && (quoted || (bare_ok && ends_token rest))
      && well_separated false rest
  end.

Definition token_stream (segs : list segment) : bool := well_separated true segs.

(** The order in which the six substitutions take the tokens. *)
Definition rank (quoted : bool) (kind : token_kind) : nat :=
  match kind, quoted with
  | Number, true => 1
  | Number, false => 2
  | Date, true => 3
  | Date, false => 4
  | Reference, true => 5
  | Reference, false => 6
  end.

(** A stream after the substitution of rank [n]: its tokens are
    rewritten. *)
Definition after_pass (n : nat) (sg : segment) : segment :=
  match sg with
  | Stretch _ => sg
  | Token quoted kind _ => if rank quoted kind =? n then Stretch (normal_form sg) else sg
  end.

(** No token of a rank below [n] is left. *)
Definition pending (n : nat) (sg : segment) : bool :=
  match sg with
  | Stretch _ => true
  | Token quoted kind _ => n <=? rank quoted kind
  end.

(** The claim of C5 about the date token as the specification words it:
    an input that holds the quoted date token is normalized to a text that
    holds the quoted payload. *)
Definition date_token_is_rewritten (s : text) : Prop :=
  str_find s date_token <> None ->
  str_find (normalize_rsc_tokens s) (q "'2024-01-01T00:00:00Z'") <> None.
(** What follows a bare token starts with a delimiter. *)
Definition starts_with_delimiter (r : text) : Prop :=
  match r with
  | [] => True
  | c :: _ => delimiter c = true
  end.

(** A server whose first page holds a number before its one record; the
    next page is empty. *)
Definition server_with_number_row : transport :=
  fun n _ => match n with
             | O => ok_reply (q "0:{'datasets':[7,{'id':'a'}]}")
             | _ => ok_reply (q "0:{'datasets':[]}")
             end.

(* ================================================================== *)
(** * Facts about the regular expressions *)

Section SubFacts.

Variable p : regex.
Variable tpl : template.

Lemma sub_from_no_match (prev : option ascii) (c : ascii) (s : text) :
  match_here p prev (c :: s) = None ->
  sub_from p tpl prev (c :: s) 0 = c :: sub_from p tpl (Some c) s 0.
Proof. intros H. simpl. rewrite H. reflexivity. Qed.

Lemma sub_from_match (prev : option ascii) (c : ascii) (s : text) (n : nat)
      (g : option text) :
  match_here p prev (c :: s) = Some (S n, g) ->
  sub_from p tpl prev (c :: s) 0 = expand tpl g ++ sub_from p tpl (Some c) s n.
Proof. intros H. simpl. rewrite H. reflexivity. Qed.

(** Passing over the rest of a match. *)
Lemma sub_from_skip (pre rest : text) :
  forall prev, exists prev',
    sub_from p tpl prev (pre ++ rest) (length pre) = sub_from p tpl prev' rest 0.
Proof.
  induction pre as [|c pre IH]; intros prev.
  - exists prev. reflexivity.
  - destruct (IH (Some c)) as [prev' E]. exists prev'. simpl. exact E.
Qed.

End SubFacts.

(** A text without the dollar sign holds no token. *)
Definition dollar_free (s : text) : Prop := ~ In "$"%char s.

(** Every token pattern starts with the dollar sign or with a double quote
    and the dollar sign. *)
Inductive needs_dollar : regex -> Prop :=
| nd_bare (r : regex) : needs_dollar (Chr "$" :: r)
| nd_quoted (r : regex) : needs_dollar (Chr dquote :: Chr "$" :: r).

Create HintDb rsc.
#[local] Hint Constructors needs_dollar : rsc.

Definition head_is_not_dollar (s : text) : Prop :=
  match s with
  | c :: _ => c <> "$"%char
  | [] => True
  end.

Lemma match_needs_dollar (p : regex) (prev : option ascii) (c : ascii) (s : text) :
  needs_dollar p -> c <> "$"%char -> head_is_not_dollar s ->
  match_here p prev (c :: s) = None.
Proof.
  intros Hp Hc Hs. destruct Hp as [r|r]; simpl.
  - apply Ascii.eqb_neq in Hc. rewrite Hc. reflexivity.
  - destruct (Ascii.eqb c dquote); [|reflexivity].
    destruct s as [|c2 s]; [reflexivity|].
    simpl in Hs. apply Ascii.eqb_neq in Hs. rewrite Hs. reflexivity.
Qed.

Lemma match_needs_dollar_nil (p : regex) (prev : option ascii) :
  needs_dollar p -> match_here p prev [] = None.
Proof. intros [r|r]; reflexivity. Qed.

Lemma dollar_free_cons (c : ascii) (s : text) :
  dollar_free (c :: s) -> c <> "$"%char /\ dollar_free s.
Proof.
  unfold dollar_free. simpl. intros H. split.
  - intros E. apply H. left. exact E.
  - intros I. apply H. right. exact I.
Qed.

Lemma dollar_free_app (a b : text) :
  dollar_free a -> dollar_free b -> dollar_free (a ++ b).
Proof.
  unfold dollar_free. intros Ha Hb I. apply in_app_or in I. tauto.
Qed.

Lemma dollar_free_head (s : text) : dollar_free s -> head_is_not_dollar s.
Proof.
  destruct s as [|c s]; simpl; [trivial|].
  intros H. apply dollar_free_cons in H. tauto.
Qed.

(** A substitution of a token pattern copies a dollar-free prefix. *)
Lemma sub_from_passes (p : regex) (tpl : template) (pre rest : text) :
  needs_dollar p -> dollar_free pre -> head_is_not_dollar rest ->
  forall prev, exists prev',
    sub_from p tpl prev (pre ++ rest) 0 = pre ++ sub_from p tpl prev' rest 0.
Proof.
  intros Hp. induction pre as [|c pre IH]; intros Hpre Hrest prev.
  - exists prev. reflexivity.
  - apply dollar_free_cons in Hpre. destruct Hpre as [Hc Hpre].
    destruct (IH Hpre Hrest (Some c)) as [prev' E].
    exists prev'. rewrite <- app_comm_cons.
    rewrite sub_from_no_match.
    + rewrite E. reflexivity.
    + apply match_needs_dollar; auto.
      destruct pre; [exact Hrest | apply (dollar_free_head Hpre)].
Qed.

(** A substitution of a token pattern leaves a dollar-free text as it is. *)
Lemma sub_from_dollar_free (p : regex) (tpl : template) (s : text) :
  needs_dollar p -> dollar_free s ->
  forall prev, sub_from p tpl prev s 0 = s.
Proof.
  intros Hp Hs prev.
  destruct (@sub_from_passes p tpl s [] Hp Hs I prev) as [prev' E].
  rewrite app_nil_r in E. rewrite E. simpl.
  rewrite (match_needs_dollar_nil prev' Hp). apply app_nil_r.
Qed.

Lemma sub_dollar_free (p : regex) (tpl : template) (s : text) :
  needs_dollar p -> dollar_free s -> sub p tpl s = s.
Proof. intros. apply sub_from_dollar_free; assumption. Qed.

Lemma token_patterns_need_dollar :
  needs_dollar quoted_number /\ needs_dollar bare_number /\
  needs_dollar quoted_date /\ needs_dollar bare_date /\
  needs_dollar quoted_ref /\ needs_dollar bare_ref.
Proof. repeat split; constructor. Qed.

Lemma normalize_dollar_free (s : text) :
  dollar_free s -> normalize_rsc_tokens s = s.
Proof.
  intros H. unfold normalize_rsc_tokens.
  destruct token_patterns_need_dollar as (P1 & P2 & P3 & P4 & P5 & P6).
  rewrite (sub_dollar_free _ P1 H), (sub_dollar_free _ P2 H),
    (sub_dollar_free _ P3 H), (sub_dollar_free _ P4 H),
    (sub_dollar_free _ P5 H), (sub_dollar_free _ P6 H).
  reflexivity.
Qed.

(* ================================================================== *)
(** * The token normalizer *)

Lemma dollar_free_check (s : text) :
  forallb (fun c => negb (Ascii.eqb c "$")) s = true -> dollar_free s.
Proof.
  unfold dollar_free. induction s as [|c s IH]; simpl; [tauto|].
  intros H. apply andb_prop in H. destruct H as [Hc Hs].
  intros [E|I]; [|exact (IH Hs I)].
  subst c. discriminate.
Qed.

(** Both tokens in one record, next to a reference. *)
Example normalize_record :
  normalize_rsc_tokens (q "{'id':'$n42','at':'$D2024-01-01T00:00:00Z','o':'$L1'}")
  = q "{'id':42,'at':'2024-01-01T00:00:00Z','o':null}".
Proof. vm_compute. reflexivity. Qed.

(* ================================================================== *)
(** * The balanced-span extractor and the decoder *)

(** C3. The chunk [0:{'datasets':[{'id':'$n1'},{'id':'$n2'}]}] decodes, with
    the key anchor [datasets], to the two records [{'id':1}] and
    [{'id':2}], in this order. *)
Theorem decode_two_records :
  extract_json_array_from_rsc (q "0:{'datasets':[{'id':'$n1'},{'id':'$n2'}]}")
                              (txt "datasets")
  = [JObj [(u (txt "id"), JInt 1)]; JObj [(u (txt "id"), JInt 2)]].
Proof. vm_compute. reflexivity. Qed.

(** The stages of that decoding. *)
Example decode_two_records_stages :
  strip_chunk_prefixes (q "0:{'datasets':[{'id':'$n1'},{'id':'$n2'}]}")
  = q "{'datasets':[{'id':'$n1'},{'id':'$n2'}]}"
  /\ array_span (q "0:{'datasets':[{'id':'$n1'},{'id':'$n2'}]}") (txt "datasets")
     = Some (q "[{'id':'$n1'},{'id':'$n2'}]")
  /\ normalize_rsc_tokens (q "[{'id':'$n1'},{'id':'$n2'}]") = q "[{'id':1},{'id':2}]".
Proof. repeat split; vm_compute; reflexivity. Qed.

Section Scanner.

Variables opn cls : ascii.
Hypothesis opn_not_quote : opn <> dquote.
Hypothesis cls_not_quote : cls <> dquote.
Hypothesis opn_not_cls : opn <> cls.

Let scan := scan_balanced opn cls.

(** The three states of the scan, one character at a time. *)
Lemma scan_code (ch : ascii) (s : text) (d : Z) (n : nat) :
  scan (ch :: s) Code d n
  = if Ascii.eqb ch opn then scan s Code (d + 1) (S n)
    else if Ascii.eqb ch cls then
           if (d - 1 =? 0)%Z then Some (S n) else scan s Code (d - 1) (S n)
    else if Ascii.eqb ch dquote then scan s InString d (S n)
    else scan s Code d (S n).
Proof. reflexivity. Qed.

Lemma scan_in_string (ch : ascii) (s : text) (d : Z) (n : nat) :
  scan (ch :: s) InString d n
  = if Ascii.eqb ch backslash then scan s Escaped d (S n)
    else if Ascii.eqb ch dquote then scan s Code d (S n)
    else scan s InString d (S n).
Proof. reflexivity. Qed.

Lemma scan_escaped (ch : ascii) (s : text) (d : Z) (n : nat) :
  scan (ch :: s) Escaped d n = scan s InString d (S n).
Proof. reflexivity. Qed.

Lemma quote_is_no_bracket :
  Ascii.eqb dquote opn = false /\ Ascii.eqb dquote cls = false
  /\ Ascii.eqb dquote backslash = false /\ Ascii.eqb cls opn = false.
Proof.
  repeat split; try reflexivity; apply Ascii.eqb_neq; congruence.
Qed.

(** Inside a string nothing counts: the scan passes the characters and the
    escapes and leaves the string at its closing quote, the depth unchanged. *)
Lemma scan_string_chars (chars : list schar) :
  forallb schar_ok chars = true ->
  forall (rest : text) (d : Z) (n : nat),
    scan (flat_map render_schar chars ++ dquote :: rest) InString d n
    = scan rest Code d (n + length (flat_map render_schar chars) + 1).
Proof.
  destruct quote_is_no_bracket as (_ & _ & Eb & _).
  induction chars as [|x chars IH]; intros Hok rest d n.
  - cbn [flat_map app length]. rewrite scan_in_string, Eb, Ascii.eqb_refl.
    f_equal. lia.
  - cbn [forallb] in Hok. apply andb_prop in Hok. destruct Hok as [Hx Hok].
    destruct x as [c|c]; cbn [flat_map render_schar app length].
    + cbn [schar_ok] in Hx. apply andb_prop in Hx. destruct Hx as [Hq Hb].
      apply negb_true_iff in Hq, Hb.
      rewrite scan_in_string, Hb, Hq, IH by assumption. f_equal. lia.
    + rewrite scan_in_string, Ascii.eqb_refl, scan_escaped, IH by assumption.
      f_equal. lia.
Qed.

(** One item that does not close the span. *)
Lemma scan_item (it : item) (rest : text) (d : Z) (n : nat) :
  item_ok it = true -> (0 < d + depth_step opn cls it)%Z ->
  scan (render_item it ++ rest) Code d n
  = scan rest Code (d + depth_step opn cls it) (n + length (render_item it)).
Proof.
  destruct quote_is_no_bracket as (Eo & Ec & _ & _).
  intros Hok Hpos. destruct it as [c|chars]; cbn [render_item app length].
  - cbn [item_ok] in Hok. apply negb_true_iff in Hok.
    cbn [depth_step] in *. rewrite scan_code.
    destruct (Ascii.eqb c opn).
    + f_equal. lia.
    + destruct (Ascii.eqb c cls).
      * replace (d - 1 =? 0)%Z with false by (symmetry; apply Z.eqb_neq; lia).
        f_equal; lia.
      * rewrite Hok. f_equal; lia.
  - cbn [item_ok] in Hok. cbn [depth_step].
    rewrite scan_code, Eo, Ec, Ascii.eqb_refl.
    rewrite <- app_assoc. cbn [app].
    rewrite scan_string_chars by assumption.
    rewrite length_app. cbn [length]. f_equal; lia.
Qed.

(** A run of items during which the depth stays positive. *)
Lemma scan_items (items : list item) :
  forall (rest : text) (d : Z) (n : nat),
    well_formed items = true -> stays_open opn cls d items = true ->
    scan (render items ++ rest) Code d n
    = scan rest Code (d + depth_of opn cls items) (n + length (render items)).
Proof.
  induction items as [|it items IH]; intros rest d n Hwf Hopen.
  - cbn. f_equal; lia.
  - cbn [well_formed forallb] in Hwf. cbn [stays_open] in Hopen.
    apply andb_prop in Hwf. destruct Hwf as [Hit Hwf].
    apply andb_prop in Hopen. destruct Hopen as [Hpos Hopen].
    apply Z.ltb_lt in Hpos.
    change (render (it :: items)) with (render_item it ++ render items).
    rewrite <- app_assoc, scan_item by assumption.
    rewrite IH by assumption.
    rewrite length_app.
    change (depth_of opn cls (it :: items))
      with (depth_step opn cls it + depth_of opn cls items)%Z.
    f_equal; lia.
Qed.

(** A balanced bracket pair is found whole, whatever its strings hold and
    whatever follows it. *)
Lemma scan_bracket_pair (inner : list item) (post : text) :
  well_formed inner = true -> balanced_inside opn cls inner = true ->
  scan (render (Out opn :: inner ++ [Out cls]) ++ post) Code 0 0
  = Some (length (render (Out opn :: inner ++ [Out cls]))).
Proof.
  destruct quote_is_no_bracket as (_ & _ & _ & E).
  intros Hwf Hbal. unfold balanced_inside in Hbal.
  apply andb_prop in Hbal. destruct Hbal as [Hopen Hzero].
  apply Z.eqb_eq in Hzero.
  change (render (Out opn :: inner ++ [Out cls]))
    with (opn :: render (inner ++ [Out cls])).
  unfold render. rewrite flat_map_app. fold (render inner).
  cbn [flat_map render_item app].
  rewrite scan_code, Ascii.eqb_refl.
  rewrite <- app_assoc.
  rewrite scan_items by assumption.
  rewrite Hzero. cbn [app].
  rewrite scan_code, E, Ascii.eqb_refl. 
  cbn [length]. rewrite length_app. cbn [length]. 
  replace (0 + 1 + 0 - 1 =? 0)%Z with true by reflexivity.
  f_equal. lia.
Qed.

End Scanner.

Lemma firstn_length_app (A : Type) (a b : list A) : firstn (length a) (a ++ b) = a.
Proof.
  induction a as [|x a IH]; simpl; [reflexivity | rewrite IH; reflexivity].
Qed.

(** C4. When the text after the chunk prefixes are stripped holds, at the
    first match of the key anchor, a balanced array followed by anything,
    the span of the by-key extractor is exactly that array: its extent is
    fixed by the brackets outside string literals alone. The strings of the
    array are arbitrary sequences of plain characters and escapes, so a
    bracket or a brace inside a string is not counted and an escaped quote
    does not end the string. *)
Theorem array_span_ignores_strings
        (body_text key : text) (inner : list item) (post : text) (a e : nat) :
  search (key_anchor key) (strip_chunk_prefixes body_text) = Some (a, e) ->
  skipn (e - 1) (strip_chunk_prefixes body_text) = render (array_of inner) ++ post ->
  well_formed inner = true ->
  balanced_inside "[" "]" inner = true ->
  array_span body_text key = Some (render (array_of inner)).
Proof.
  intros Hsearch Htext Hwf Hbal.
  unfold array_span. rewrite Hsearch.
  unfold balanced_span. rewrite Htext.
  unfold array_of.
  rewrite scan_bracket_pair by (assumption || discriminate).
  rewrite firstn_length_app. reflexivity.
Qed.

(** The array [[{'d':'a]{[\'x'}]] inside a chunk. *)
Lemma array_span_ignores_strings_witness :
  array_span (q "0:{'datasets':" ++ render (array_of tricky_inside) ++ q ",'n':1}")
             (txt "datasets")
  = Some (render (array_of tricky_inside)).
Proof.
  apply (@array_span_ignores_strings _ _ tricky_inside (q ",'n':1}") 1 13);
    vm_compute; reflexivity.
Defined.

Example tricky_array_text :
  render (array_of tricky_inside)
  = q "[{'d':'a]{[" ++ [backslash] ++ q "'x'}]".
Proof. vm_compute. reflexivity. Qed.

(** ** A span is whole *)

(** The scan answers at the closing bracket: the span it measures is
    itself closed, and lies inside the text. *)
Lemma scan_closed (opn cls : ascii) (s : text) :
  forall (m : scan_mode) (d : Z) (n len : nat),
    scan_balanced opn cls s m d n = Some len ->
    n < len <= n + length s
    /\ scan_balanced opn cls (firstn (len - n) s) m d n = Some len.
Proof.
  induction s as [|ch s IH]; intros m d n len H; [discriminate|].
  assert (step : forall m' d', scan_balanced opn cls s m' d' (S n) = Some len ->
            n < len <= n + length (ch :: s)
            /\ firstn (len - n) (ch :: s) = ch :: firstn (len - S n) s
            /\ scan_balanced opn cls (firstn (len - S n) s) m' d' (S n) = Some len).
  { intros m' d' H'. apply IH in H'. destruct H' as [[L1 L2] H'].
    cbn [length]. repeat split; try lia; [|exact H'].
    replace (len - n) with (S (len - S n)) by lia. reflexivity. }
  assert (stop : Some (S n) = Some len ->
            n < len <= n + length (ch :: s)
            /\ firstn (len - n) (ch :: s) = [ch]).
  { intros E. injection E as E. subst len. cbn [length]. split; [lia|].
    replace (S n - n) with 1 by lia. reflexivity. }
  destruct m; cbn [scan_balanced] in H |- *.
  - destruct (Ascii.eqb ch opn) eqn:Eo.
    + apply step in H. destruct H as (L & F & H). split; [exact L|].
      rewrite F. cbn [scan_balanced]. rewrite Eo. exact H.
    + destruct (Ascii.eqb ch cls) eqn:Ec.
      * destruct (d - 1 =? 0)%Z eqn:Ez.
        -- pose proof H as H0. apply stop in H. destruct H as (L & F). split; [exact L|].
           rewrite F. cbn [scan_balanced]. rewrite Eo, Ec, Ez. exact H0.
        -- apply step in H. destruct H as (L & F & H). split; [exact L|].
           rewrite F. cbn [scan_balanced]. rewrite Eo, Ec, Ez. exact H.
      * destruct (Ascii.eqb ch dquote) eqn:Eq;
          apply step in H; destruct H as (L & F & H); (split; [exact L|]);
          rewrite F; cbn [scan_balanced]; rewrite Eo, Ec, Eq; exact H.
  - destruct (Ascii.eqb ch backslash) eqn:Eb;
      [|destruct (Ascii.eqb ch dquote) eqn:Eq];
      apply step in H; destruct H as (L & F & H); (split; [exact L|]);
      rewrite F; cbn [scan_balanced]; rewrite ?Eb, ?Eq; exact H.
  - apply step in H; destruct H as (L & F & H); (split; [exact L|]);
      rewrite F; cbn [scan_balanced]; exact H.
Qed.

(** ** What a match of a pattern ending in a literal character ends with *)
Lemma longest_first_found (A : Type) (attempt : nat -> option A) (lo : nat) :
  forall k r, longest_first attempt lo k = Some r -> exists j, attempt j = Some r.
Proof.
  induction k as [|k IH]; intros r H; simpl in H.
  - destruct (0 <? lo); [discriminate|].
    destruct (attempt 0) eqn:E; [|discriminate]. exists 0. congruence.
  - destruct (S k <? lo); [discriminate|].
    destruct (attempt (S k)) eqn:E.
    + exists (S k). congruence.
    + apply IH. exact H.
Qed.

Lemma advance_some (k : nat) (g : option text) (r : option found) (n : nat)
      (g0 : option text) :
  advance k g r = Some (n, g0) -> exists n' g', r = Some (n', g') /\ n = k + n'.
Proof.
  destruct r as [[n' g']|]; simpl; [|discriminate].
  intros H. injection H as H1 H2. exists n', g'. split; [reflexivity|lia].
Qed.

Lemma nth_error_skipn_plus (A : Type) (j : nat) :
  forall (s : list A) (k : nat), nth_error (skipn j s) k = nth_error s (j + k).
Proof.
  induction j as [|j IH]; intros s k; [reflexivity|].
  destruct s as [|x s]; simpl; [destruct k; reflexivity | apply IH].
Qed.

Lemma match_ends_with (c : ascii) (p : regex) :
  forall (prev : option ascii) (s : text) (n : nat) (g : option text),
    match_here (p ++ [Chr c]) prev s = Some (n, g) ->
    exists k, n = S k /\ nth_error s k = Some c.
Proof.
  induction p as [|a p IH]; intros prev s n g H.
  - simpl in H. destruct s as [|x s]; [discriminate|].
    destruct (Ascii.eqb x c) eqn:E; [|discriminate].
    apply Ascii.eqb_eq in E. subst x. simpl in H. injection H as H _.
    exists 0. split; [lia|reflexivity].
  - destruct a as [c'|grp lo cl| | |]; cbn [app match_here] in H.
    + destruct s as [|x s]; [discriminate|].
      destruct (Ascii.eqb x c'); [|discriminate].
      apply advance_some in H. destruct H as (n' & g' & H & En).
      apply IH in H. destruct H as (k & Ek & Hk).
      exists (S k). split; [lia|exact Hk].
    + apply longest_first_found in H. destruct H as (j & H).
      apply advance_some in H. destruct H as (n' & g' & H & En).
      apply IH in H. destruct H as (k & Ek & Hk).
      exists (j + k). split; [lia|].
      rewrite <- nth_error_skipn_plus. exact Hk.
    + destruct prev as [c0|]; [destruct (Ascii.eqb c0 newline); [|discriminate]|];
        apply IH in H; exact H.
    + destruct prev as [c0|]; [discriminate|]. apply IH in H; exact H.
    + destruct s as [|c0 [|c1 s]]; [| destruct (Ascii.eqb c0 newline); [|discriminate] | discriminate];
        apply IH in H; exact H.
Qed.

Lemma search_from_ends_with (c : ascii) (p : regex) (s : text) :
  forall (prev : option ascii) (i a e : nat),
    search_from (p ++ [Chr c]) prev s i = Some (a, e) ->
    exists k, e = i + S k /\ nth_error s k = Some c.
Proof.
  induction s as [|x s IH]; intros prev i a e H; simpl in H.
  - destruct (match_here (p ++ [Chr c]) prev []) as [[n g]|] eqn:E; [|discriminate].
    apply match_ends_with in E. destruct E as (k & Ek & Hk).
    destruct k; discriminate.
  - destruct (match_here (p ++ [Chr c]) prev (x :: s)) as [[n g]|] eqn:E.
    + apply match_ends_with in E. destruct E as (k & Ek & Hk).
      injection H as Ha He. exists k. split; [lia|exact Hk].
    + apply IH in H. destruct H as (k & Ek & Hk).
      exists (S k). split; [lia|exact Hk].
Qed.

Lemma key_anchor_ends_with_bracket (key : text) :
  exists p, key_anchor key = p ++ [Chr "["].
Proof.
  exists (Chr dquote :: Lit key ++ [Chr dquote; Star is_space; Chr ":"; Star is_space]).
  unfold key_anchor. simpl. rewrite <- app_assoc. reflexivity.
Qed.

(** The span of the by-key extractor starts with the opening bracket. *)
Lemma array_span_head (body_text key span : text) :
  array_span body_text key = Some span -> exists t, span = "["%char :: t.
Proof.
  unfold array_span. 
  destruct (search (key_anchor key) (strip_chunk_prefixes body_text))
    as [[a e]|] eqn:E; [|discriminate].
  destruct (key_anchor_ends_with_bracket key) as [p Hp]. rewrite Hp in E.
  apply search_from_ends_with in E. destruct E as (k & Ek & Hk).
  replace (e - 1) with k by lia.
  unfold balanced_span.
  destruct (scan_balanced "[" "]" (skipn k (strip_chunk_prefixes body_text)) Code 0 0)
    as [len|] eqn:Es; [|discriminate].
  intros H. injection H as H. subst span.
  apply scan_closed in Es. destruct Es as [[L _] _].
  rewrite <- (Nat.add_0_r k), <- nth_error_skipn_plus in Hk.
  destruct (skipn k (strip_chunk_prefixes body_text)) as [|x r]; [discriminate|].
  injection Hk as Hk. subst x.
  destruct len; [lia|]. eexists. reflexivity.
Qed.

Lemma needs_dollar_not_at_bracket (p : regex) (prev : option ascii) (t : text) :
  needs_dollar p -> match_here p prev ("["%char :: t) = None.
Proof. intros [r|r]; reflexivity. Qed.

Lemma sub_keeps_bracket (p : regex) (tpl : template) (t : text) :
  needs_dollar p -> exists t', sub p tpl ("["%char :: t) = "["%char :: t'.
Proof.
  intros Hp. unfold sub.
  rewrite sub_from_no_match by (apply needs_dollar_not_at_bracket; exact Hp).
  eexists. reflexivity.
Qed.

Lemma normalize_keeps_bracket (t : text) :
  exists t', normalize_rsc_tokens ("["%char :: t) = "["%char :: t'.
Proof.
  destruct token_patterns_need_dollar as (P1 & P2 & P3 & P4 & P5 & P6).
  unfold normalize_rsc_tokens.
  destruct (@sub_keeps_bracket _ [Group1] t P1) as [t1 E1]. rewrite E1.
  destruct (@sub_keeps_bracket _ [Group1] t1 P2) as [t2 E2]. rewrite E2.
  destruct (@sub_keeps_bracket _ [Txt [dquote]; Group1; Txt [dquote]] t2 P3) as [t3 E3].
  rewrite E3.
  destruct (@sub_keeps_bracket _ [Txt [dquote]; Group1; Txt [dquote]] t3 P4) as [t4 E4].
  rewrite E4.
  destruct (@sub_keeps_bracket _ [Txt (txt "null")] t4 P5) as [t5 E5]. rewrite E5.
  destruct (@sub_keeps_bracket _ [Txt (txt "null")] t5 P6) as [t6 E6]. rewrite E6.
  exists t6. reflexivity.
Qed.

Lemma parse_items_array (fuel : nat) :
  forall (s : text) (acc : list json) (v : json) (r : text),
    Json.parse_items fuel s acc = Some (v, r) -> exists rows, v = JArr rows.
Proof.
  induction fuel as [|fuel IH]; intros s acc v r H; [discriminate|].
  cbn [Json.parse_items] in H.
  destruct (Json.scan_once fuel s) as [[v0 r0]|]; [|discriminate].
  destruct (Json.skip_ws r0) as [|d r']; [discriminate|].
  destruct (Ascii.eqb d "]").
  - injection H as H _. eexists. symmetry. exact H.
  - destruct (Ascii.eqb d ","); [|discriminate].
    apply IH in H. exact H.
Qed.

Lemma loads_bracket (t : text) (v : json) :
  Json.loads ("["%char :: t) = Some v -> exists rows, v = JArr rows.
Proof.
  unfold Json.loads.
  change (Json.skip_ws ("["%char :: t)) with ("["%char :: t).
  cbn [length Nat.mul Nat.add].
  cbn [Json.scan_once].
  change (Ascii.eqb "[" dquote) with false.
  change (Ascii.eqb "[" "{") with false.
  change (Ascii.eqb "[" "[") with true. cbv iota.
  destruct (Json.skip_ws t) as [|d r]; [discriminate|].
  destruct (Ascii.eqb d "]").
  - destruct (Json.skip_ws r); [|discriminate].
    intros H. injection H as H. eexists. symmetry. exact H.
  - destruct (Json.parse_items _ (d :: r) []) as [[v0 r0]|] eqn:E; [|discriminate].
    apply parse_items_array in E.
    destruct (Json.skip_ws r0); [|discriminate].
    intros H. injection H as H. subst v0. exact E.
Qed.

(** A span that parses parses to a list. *)
Lemma decoded_span_is_array (body_text key span : text) (v : json) :
  array_span body_text key = Some span ->
  Json.loads (normalize_rsc_tokens span) = Some v ->
  exists rows, v = JArr rows.
Proof.
  intros Hs Hl. apply array_span_head in Hs. destruct Hs as [t Ht]. subst span.
  destruct (normalize_keeps_bracket t) as [t' E]. rewrite E in Hl.
  exact (@loads_bracket _ _ Hl).
Qed.

(** C6. A decode miss gives the empty result and nothing else. By key: when
    the anchor is not found, when the depth does not come back to zero before
    the text ends, or when the normalized span is not JSON, the result is the
    empty list. By value: in the same three cases the result is [None]. The
    extractors are total functions, so nothing is raised. And a result that
    is not empty is never a part of a record: it is the parse of the whole
    span, from the opening bracket to the bracket that closes it. *)
Theorem decode_miss_is_empty (body_text key target_id : text) :
  (* by key *)
  (search (key_anchor key) (strip_chunk_prefixes body_text) = None ->
   extract_json_array_from_rsc body_text key = [])
  /\ (forall a e,
        search (key_anchor key) (strip_chunk_prefixes body_text) = Some (a, e) ->
        scan_balanced "[" "]" (skipn (e - 1) (strip_chunk_prefixes body_text)) Code 0 0
        = None ->
        extract_json_array_from_rsc body_text key = [])
  /\ (forall span,
        array_span body_text key = Some span ->
        Json.loads (normalize_rsc_tokens span) = None ->
        extract_json_array_from_rsc body_text key = [])
  (* by value *)
  /\ (str_find (strip_chunk_prefixes body_text) (id_anchor target_id) = None ->
      extract_first_object_with_id body_text target_id = None)
  /\ (forall pos,
        str_find (strip_chunk_prefixes body_text) (id_anchor target_id) = Some pos ->
        scan_balanced "{" "}"
          (skipn (walk_left (strip_chunk_prefixes body_text) pos)
                 (strip_chunk_prefixes body_text)) Code 0 0 = None ->
        extract_first_object_with_id body_text target_id = None)
  /\ (forall span,
        object_span body_text target_id = Some span ->
        Json.loads (normalize_rsc_tokens span) = None ->
        extract_first_object_with_id body_text target_id = None)
  (* never a part *)
  /\ (extract_json_array_from_rsc body_text key <> [] ->
      exists span,
        array_span body_text key = Some span
        /\ scan_balanced "[" "]" span Code 0 0 = Some (length span)
        /\ Json.loads (normalize_rsc_tokens span)
           = Some (JArr (extract_json_array_from_rsc body_text key)))
  /\ (forall obj,
        extract_first_object_with_id body_text target_id = Some obj ->
        exists span,
          object_span body_text target_id = Some span
          /\ scan_balanced "{" "}" span Code 0 0 = Some (length span)
          /\ Json.loads (normalize_rsc_tokens span) = Some obj).
Proof.
  assert (whole : forall opn cls joined start span,
             balanced_span opn cls joined start = Some span ->
             scan_balanced opn cls span Code 0 0 = Some (length span)).
  { intros opn cls joined start span. unfold balanced_span.
    destruct (scan_balanced opn cls (skipn start joined) Code 0 0) as [len|] eqn:E;
      [|discriminate].
    intros H. injection H as H. subst span.
    apply scan_closed in E. destruct E as [[L1 L2] E].
    rewrite Nat.sub_0_r in E. rewrite E. f_equal.
    rewrite length_firstn. lia. }
  unfold extract_json_array_from_rsc, extract_first_object_with_id.
  repeat split.
  - intros H. unfold array_span. rewrite H. reflexivity.
  - intros a e H1 H2. unfold array_span, balanced_span. rewrite H1, H2. reflexivity.
  - intros span H1 H2. rewrite H1, H2. reflexivity.
  - intros H. unfold object_span. rewrite H. reflexivity.
  - intros pos H1 H2. unfold object_span, balanced_span. rewrite H1, H2. reflexivity.
  - intros span H1 H2. rewrite H1. exact H2.
  - destruct (array_span body_text key) as [span|] eqn:Es; [|congruence].
    intros H. exists span. split; [reflexivity|].
    split.
    + unfold array_span in Es.
      destruct (search (key_anchor key) (strip_chunk_prefixes body_text))
        as [[a e]|]; [|discriminate].
      exact (whole _ _ _ _ _ Es).
    + destruct (Json.loads (normalize_rsc_tokens span)) as [v|] eqn:El; [|congruence].
      destruct (decoded_span_is_array _ _ Es El) as [rows Ev]. subst v. reflexivity.
  - intros obj H.
    destruct (object_span body_text target_id) as [span|] eqn:Es; [|discriminate].
    exists span. split; [reflexivity|]. split; [|exact H].
    unfold object_span in Es.
    destruct (str_find (strip_chunk_prefixes body_text) (id_anchor target_id));
      [|discriminate].
    exact (whole _ _ _ _ _ Es).
Qed.

(** The three misses of each mode, on texts. *)
Example decode_misses :
  extract_json_array_from_rsc (q "0:{'items':[1]}") (txt "datasets") = []
  /\ extract_json_array_from_rsc (q "0:{'datasets':[{'id':1},") (txt "datasets") = []
  /\ extract_json_array_from_rsc (q "0:{'datasets':[{'id':1,}]}") (txt "datasets") = []
  /\ extract_first_object_with_id (q "1:{'id':'b'}") (txt "a") = None
  /\ extract_first_object_with_id (q "1:{'id':'a','n':{'x':1}") (txt "a") = None
  /\ extract_first_object_with_id (q "1:{'id':'a','n':}") (txt "a") = None.
Proof. repeat split; vm_compute; reflexivity. Qed.

(** C2 (the code departs from it). The walk to the left stops at the nearest
    opening brace, matched or not. In [{'a':{'b':1},'id':'V'}] the nearest
    one opens the sibling object [{'b':1}], which closes before the anchor:
    the extractor returns that sibling, not the object that holds the id. *)
Theorem sibling_object_is_returned :
  object_span (q "{'a':{'b':1},'id':'V'}") (txt "V") = Some (q "{'b':1}")
  /\ extract_first_object_with_id (q "{'a':{'b':1},'id':'V'}") (txt "V")
     = Some (JObj [(u (txt "b"), JInt 1)]).
Proof. split; vm_compute; reflexivity. Qed.

(** Without a brace between the opening brace and the anchor, the innermost
    enclosing object is returned, not the outer one. *)
Example innermost_object_is_returned :
  extract_first_object_with_id (q "0:{'o':{'id':'abc123','n':'$n7'},'p':{}}") (txt "abc123")
  = Some (JObj [(u (txt "id"), JStr (u (txt "abc123"))); (u (txt "n"), JInt 7)]).
Proof. vm_compute. reflexivity. Qed.

(* ================================================================== *)
(** * The fallback discoverer *)

(** ** The href pattern *)

Lemma advance_zero (r : option found) : advance 0 None r = r.
Proof. destruct r as [[n g]|]; reflexivity. Qed.

Lemma advance_advance (j k : nat) (r : option found) :
  advance j None (advance k None r) = advance (j + k) None r.
Proof. destruct r as [[n g]|]; simpl; [f_equal; f_equal; lia | reflexivity]. Qed.

(** A literal prefix of a pattern matches exactly that text. *)
Lemma match_literal (t : text) (p : regex) :
  forall (prev : option ascii) (s : text),
  exists prev',
    match_here (Lit t ++ p) prev s
    = if starts_with t s
      then advance (length t) None (match_here p prev' (skipn (length t) s))
      else None.
Proof.
  induction t as [|c t IH]; intros prev s.
  - exists prev. simpl. rewrite advance_zero. reflexivity.
  - destruct s as [|x s]; [exists prev; reflexivity|].
    destruct (IH (Some x) s) as [prev' E]. exists prev'.
    cbn [Lit map app match_here starts_with length skipn].
    fold (Lit t). rewrite E, (Ascii.eqb_sym c x).
    destruct (Ascii.eqb x c); [|reflexivity]. cbn [andb].
    destruct (starts_with t s); [|reflexivity].
    apply advance_advance.
Qed.

Lemma longest_first_top (A : Type) (attempt : nat -> option A) (lo k : nat) (r : A) :
  lo <= k -> attempt k = Some r -> longest_first attempt lo k = Some r.
Proof.
  intros L E. destruct k; simpl.
  - replace (0 <? lo) with false by (symmetry; apply Nat.ltb_ge; lia).
    rewrite E. reflexivity.
  - replace (S k <? lo) with false by (symmetry; apply Nat.ltb_ge; lia).
    rewrite E. reflexivity.
Qed.

Lemma longest_first_none (A : Type) (attempt : nat -> option A) (lo : nat) :
  forall k, (forall j, lo <= j <= k -> attempt j = None) ->
            longest_first attempt lo k = None.
Proof.
  induction k as [|k IH]; intros H; simpl.
  - destruct (0 <? lo) eqn:E; [reflexivity|].
    apply Nat.ltb_ge in E. rewrite H by lia. reflexivity.
  - destruct (S k <? lo) eqn:E; [reflexivity|].
    apply Nat.ltb_ge in E. rewrite H by lia.
    apply IH. intros j Hj. apply H. lia.
Qed.

Lemma take_while_all (p : ascii -> bool) (s : text) :
  forallb p (take_while p s) = true.
Proof.
  induction s as [|c s IH]; simpl; [reflexivity|].
  destruct (p c) eqn:E; simpl; [rewrite E, IH|]; reflexivity.
Qed.

Lemma take_while_split (p : ascii -> bool) (s : text) :
  s = take_while p s ++ skipn (length (take_while p s)) s.
Proof.
  induction s as [|c s IH]; simpl; [reflexivity|].
  destruct (p c); simpl; [f_equal; exact IH | reflexivity].
Qed.

Lemma take_while_firstn (p : ascii -> bool) (s : text) :
  firstn (length (take_while p s)) s = take_while p s.
Proof.
  induction s as [|c s IH]; simpl; [reflexivity|].
  destruct (p c); simpl; [f_equal; exact IH | reflexivity].
Qed.

(** Inside the run of a class every position holds a character of it. *)
Lemma inside_take_while (p : ascii -> bool) (s : text) :
  forall j, j < length (take_while p s) ->
            exists c more, skipn j s = c :: more /\ p c = true.
Proof.
  induction s as [|x s IH]; intros j H; simpl in H; [lia|].
  destruct (p x) eqn:E; simpl in H; [|lia].
  destruct j as [|j].
  - exists x, s. split; [reflexivity|exact E].
  - apply IH. lia.
Qed.

Lemma take_while_stops (p : ascii -> bool) (i tl : text) :
  forallb p i = true ->
  match tl with [] => True | c :: _ => p c = false end ->
  take_while p (i ++ tl) = i.
Proof.
  intros Hi Htl. induction i as [|c i IH]; simpl in *.
  - destruct tl as [|c tl]; [reflexivity|]. simpl. rewrite Htl. reflexivity.
  - apply andb_prop in Hi. destruct Hi as [Hc Hi]. rewrite Hc, IH by assumption.
    reflexivity.
Qed.

Lemma starts_with_split (t s : text) :
  starts_with t s = true -> s = t ++ skipn (length t) s.
Proof.
  revert s. induction t as [|c t IH]; intros s H; [reflexivity|].
  destruct s as [|x s]; [discriminate|]. simpl in H.
  apply andb_prop in H. destruct H as [E H]. apply Ascii.eqb_eq in E. subst x.
  simpl. f_equal. apply IH. exact H.
Qed.

Lemma starts_with_app (t s : text) : starts_with t (t ++ s) = true.
Proof.
  induction t as [|c t IH]; simpl; [reflexivity|].
  rewrite Ascii.eqb_refl, IH. reflexivity.
Qed.

Lemma skipn_length_app (A : Type) (a b : list A) : skipn (length a) (a ++ b) = b.
Proof. induction a as [|x a IH]; simpl; [reflexivity | exact IH]. Qed.

Lemma match_eos (prev : option ascii) (r : text) :
  match_here [Eos] prev r = if ends_here r then Some (0, None) else None.
Proof.
  destruct r as [|c [|c' r]]; simpl; [reflexivity| |reflexivity].
  destruct (Ascii.eqb c newline); reflexivity.
Qed.

Lemma id_char_not_newline (c : ascii) : id_char c = true -> Ascii.eqb c newline = false.
Proof.
  intros H. destruct (Ascii.eqb c newline) eqn:E; [|reflexivity].
  apply Ascii.eqb_eq in E. subst c. discriminate.
Qed.

Lemma match_rep (grp : bool) (lo : nat) (cl : ascii -> bool) (p : regex)
      (prev : option ascii) (s : text) :
  match_here (Rep grp lo cl :: p) prev s
  = longest_first
      (fun k => advance k (if grp then Some (firstn k s) else None)
                        (match_here p (prev_after prev (firstn k s)) (skipn k s)))
      lo (length (take_while cl s)).
Proof. reflexivity. Qed.

(** The tail of the href pattern: the whole run of id characters, or
    nothing. *)
Lemma match_id_to_end (prev : option ascii) (rest : text) :
  match_here [GroupPlus id_char; Eos] prev rest
  = let run := take_while id_char rest in
    match run with
    | [] => None
    | _ :: _ => if ends_here (skipn (length run) rest)
                then Some (length run, Some run)
                else None
    end.
Proof.
  unfold GroupPlus. rewrite match_rep. cbv zeta.
  pose proof (take_while_firstn id_char rest) as Hfirst.
  pose proof (@inside_take_while id_char rest) as Hinside.
  destruct (take_while id_char rest) as [|c run] eqn:Erun.
  - reflexivity.
  - assert (Hn : 1 <= length (c :: run)) by (simpl; lia).
    remember (length (c :: run)) as n eqn:En.
    destruct (ends_here (skipn n rest)) eqn:Eend.
    + apply longest_first_top; [exact Hn|].
      rewrite match_eos, Eend, Hfirst. simpl. rewrite Nat.add_0_r. reflexivity.
    + apply longest_first_none.
      intros j Hj. rewrite match_eos.
      destruct (Nat.eq_dec j n) as [->|Hne].
      * rewrite Eend. reflexivity.
      * destruct (Hinside j) as (x & more & Es & Hx); [lia|].
        rewrite Es. simpl.
        destruct more; [rewrite (id_char_not_newline _ Hx)|]; reflexivity.
Qed.

(** The hrefs the pattern accepts: [/datasets/<id>] with a non-empty [<id>]
    over [a-z0-9], alone or followed by one line feed. *)
Lemma href_id_spec (href i : text) :
  href_id href = Some i
  <-> i <> [] /\ forallb id_char i = true
      /\ (href = txt "/datasets/" ++ i \/ href = txt "/datasets/" ++ i ++ [newline]).
Proof.
  unfold href_id, rmatch, dataset_href. cbn [match_here].
  destruct (match_literal (txt "/datasets/") [GroupPlus id_char; Eos] None href)
    as [prev' E].
  rewrite E. clear E. rewrite match_id_to_end. cbv zeta.
  split.
  - destruct (starts_with (txt "/datasets/") href) eqn:Es; [|discriminate].
    apply starts_with_split in Es.
    set (rest := skipn (length (txt "/datasets/")) href) in *.
    pose proof (take_while_split id_char rest) as Hsplit.
    pose proof (take_while_all id_char rest) as Hall.
    destruct (take_while id_char rest) as [|c run] eqn:Erun; [discriminate|].
    destruct (ends_here (skipn (length (c :: run)) rest)) eqn:Eend; [|discriminate].
    simpl advance. intros H. injection H as H. subst i.
    split; [discriminate|]. split; [exact Hall|].
    rewrite Es, Hsplit.
    destruct (skipn (length (c :: run)) rest) as [|x [|y more]]; simpl in Eend.
    + left. rewrite app_nil_r. reflexivity.
    + right. apply Ascii.eqb_eq in Eend. subst x. reflexivity.
    + discriminate.
  - intros (Hne & Hall & Hform).
    assert (H : exists tl, href = txt "/datasets/" ++ i ++ tl /\ ends_here tl = true
                            /\ match tl with [] => True | c :: _ => id_char c = false end).
    { destruct Hform as [H|H].
      - exists []. rewrite app_nil_r. repeat split. exact H.
      - exists [newline]. repeat split. exact H. }
    destruct H as (tl & Hhref & Hend & Hstop). subst href.
    rewrite starts_with_app, skipn_length_app.
    rewrite (take_while_stops id_char i tl Hall Hstop).
    rewrite skipn_length_app, Hend.
    destruct i as [|c i]; [congruence|]. reflexivity.
Qed.

(** ** First occurrences *)

Lemma text_eqb_eq (a b : text) : text_eqb a b = true <-> a = b.
Proof.
  revert b. induction a as [|x a IH]; intros [|y b]; simpl; split; intros H;
    try discriminate; try reflexivity.
  - apply andb_prop in H. destruct H as [E H]. apply Ascii.eqb_eq in E.
    apply IH in H. congruence.
  - injection H as -> ->. rewrite Ascii.eqb_refl. apply IH. reflexivity.
Qed.

Lemma text_mem_in (x : text) (l : list text) : text_mem x l = true <-> In x l.
Proof.
  unfold text_mem. rewrite existsb_exists. split.
  - intros (y & Hy & E). apply text_eqb_eq in E. subst y. exact Hy.
  - intros H. exists x. split; [exact H | apply text_eqb_eq; reflexivity].
Qed.

Lemma text_mem_same (x : text) (l l' : list text) :
  (forall y, In y l <-> In y l') -> text_mem x l = text_mem x l'.
Proof.
  intros H. destruct (text_mem x l') eqn:E.
  - apply text_mem_in. apply H. apply text_mem_in. exact E.
  - destruct (text_mem x l) eqn:E'; [|reflexivity].
    apply text_mem_in in E'. apply H in E'. apply text_mem_in in E'. congruence.
Qed.

Lemma flat_map_same (A B : Type) (f g : A -> list B) (l : list A) :
  (forall a, In a l -> f a = g a) -> flat_map f l = flat_map g l.
Proof.
  induction l as [|a l IH]; intros H; simpl; [reflexivity|].
  rewrite H by (left; reflexivity). rewrite IH; [reflexivity|].
  intros b Hb. apply H. right. exact Hb.
Qed.

Lemma first_occurrences_snoc (l : list text) (x : text) :
  first_occurrences (l ++ [x])
  = first_occurrences l ++ (if text_mem x l then [] else [x]).
Proof.
  unfold first_occurrences.
  rewrite length_app. simpl length. rewrite Nat.add_1_r, seq_S, flat_map_app.
  f_equal.
  - apply flat_map_same. intros k Hk. apply in_seq in Hk.
    rewrite app_nth1 by lia.
    rewrite firstn_app. replace (k - length l) with 0 by lia.
    simpl firstn. rewrite app_nil_r. reflexivity.
  - simpl. rewrite app_nil_r.
    rewrite app_nth2 by lia. rewrite Nat.sub_diag. simpl nth.
    rewrite firstn_app, Nat.sub_diag, firstn_all. simpl. rewrite app_nil_r.
    reflexivity.
Qed.

(** The loop with its set of seen ids keeps exactly the first occurrences. *)
Lemma keep_new_loop (ids : list text) :
  (forall y, In y (fst (fold_left keep_new ids ([], []))) <-> In y ids)
  /\ snd (fold_left keep_new ids ([], [])) = first_occurrences ids.
Proof.
  induction ids as [|x ids IH] using rev_ind.
  - split; [intros y; reflexivity | reflexivity].
  - rewrite fold_left_app. simpl fold_left.
    destruct (fold_left keep_new ids ([], [])) as [seen ordered].
    simpl in IH. destruct IH as [Hseen Hord].
    rewrite first_occurrences_snoc. unfold keep_new.
    rewrite (@text_mem_same x _ _ Hseen).
    destruct (text_mem x ids) eqn:E; simpl.
    + split; [|rewrite app_nil_r; exact Hord].
      intros y. rewrite Hseen, in_app_iff. simpl. split; [tauto|].
      intros [H|[H|[]]]; [exact H|]. subst y. apply text_mem_in. exact E.
    + split; [|rewrite Hord; reflexivity].
      intros y. rewrite in_app_iff, Hseen. simpl. tauto.
Qed.

(** X27. What the fallback discoverer returns. An href yields an id
    exactly when it is [/datasets/<id>], [<id>] a non-empty word over
    [a-z0-9], alone or followed by one line feed. From the hrefs of a
    document, in document order, the discoverer returns the ids of those
    links in the order of their first appearance, every id once, cut to the
    page size of 24. The three links [/datasets/a1], [/datasets/a2],
    [/datasets/a1] give [a1], [a2]; hrefs without such a link give the
    empty list. With the parser present and the listing page fetched
    without an error status, [get_initial_ids_from_html] returns these ids
    for the hrefs the parser finds. *)
Theorem fallback_ids_in_first_appearance_order :
  (forall href i,
      href_id href = Some i
      <-> i <> [] /\ forallb id_char i = true
          /\ (href = txt "/datasets/" ++ i \/ href = txt "/datasets/" ++ i ++ [newline]))
  /\ (forall hrefs,
         ids_of_hrefs hrefs
         = firstn PAGE_LIMIT
             (first_occurrences (flat_map (fun href => option_list (href_id href)) hrefs)))
  /\ ids_of_hrefs three_links = [txt "a1"; txt "a2"]
  /\ (forall hrefs, (forall href, In href hrefs -> href_id href = None) ->
                    ids_of_hrefs hrefs = [])
  /\ (forall find_all_a_href server st r,
         server (calls st) GetList = Answers r ->
         ((400 <=? status_code r) && (status_code r <? 600))%Z = false ->
         get_initial_ids_from_html (Some find_all_a_href) server st
         = (Ok (ids_of_hrefs (find_all_a_href (body r))), after_call st)).
Proof.
  split; [exact href_id_spec|].
  assert (G : forall hrefs,
             ids_of_hrefs hrefs
             = firstn PAGE_LIMIT
                 (first_occurrences
                    (flat_map (fun href => option_list (href_id href)) hrefs))).
  { intros hrefs. unfold ids_of_hrefs.
    replace (flat_map (fun href => match href_id href with
                                   | Some i => [i]
                                   | None => []
                                   end) hrefs)
      with (flat_map (fun href => option_list (href_id href)) hrefs)
      by (apply flat_map_same; intros a _; destruct (href_id a); reflexivity).
    destruct (keep_new_loop (flat_map (fun href => option_list (href_id href)) hrefs))
      as [_ E].
    rewrite E. reflexivity. }
  split; [exact G|].
  split; [vm_compute; reflexivity|].
  split.
  - intros hrefs H. rewrite G.
    replace (flat_map (fun href => option_list (href_id href)) hrefs) with (@nil text);
      [reflexivity|].
    induction hrefs as [|h hrefs IH]; [reflexivity|].
    simpl. rewrite (H h) by (left; reflexivity). simpl.
    apply IH. intros href Hin. apply H. right. exact Hin.
  - intros find_all_a_href server st r Hr Hst.
    unfold get_initial_ids_from_html, bind, send, raise_for_status.
    rewrite Hr, Hst. reflexivity.
Qed.

(* ================================================================== *)
(** * The JSON parser *)

(** ** The fuel of [loads] is enough *)

Lemma skip_ws_length (s : text) : length (Json.skip_ws s) <= length s.
Proof.
  induction s as [|c s IH]; simpl; [lia|].
  destruct (Json.is_ws c); simpl; lia.
Qed.

Lemma scan_string_shrinks_upto (n : nat) :
  forall s, length s <= n ->
  forall out str r, Json.scan_string s out = Some (str, r) -> length r < length s.
Proof.
  induction n as [|n IH]; intros s Hn out str r H;
    [destruct s; [discriminate | simpl in Hn; lia]|].
  assert (rec : forall s' out', length s' < length s ->
                  Json.scan_string s' out' = Some (str, r) -> length r < length s).
  { intros s' out' L H'. assert (L' : length s' <= n) by lia.
    pose proof (IH s' L' out' str r H'). lia. }
  destruct s as [|c s1]; [discriminate|].
  cbn [Json.scan_string] in H.
  destruct (Ascii.eqb c dquote).
  { injection H as _ <-. simpl. lia. }
  destruct (Ascii.eqb c backslash).
  - destruct s1 as [|e s2]; [discriminate|].
    destruct (Ascii.eqb e "u").
    + destruct s2 as [|h1 [|h2 [|h3 [|h4 s3]]]]; try discriminate.
      destruct (Json.hex4 h1 h2 h3 h4) as [hi|]; [|discriminate].
      destruct (Json.is_high_surrogate hi).
      * destruct s3 as [|b [|v [|l1 [|l2 [|l3 [|l4 s4]]]]]];
          try (apply rec in H; [exact H | simpl; lia]).
        destruct (Ascii.eqb b backslash && Ascii.eqb v "u");
          [|apply rec in H; [exact H | simpl; lia]].
        destruct (Json.hex4 l1 l2 l3 l4) as [lo|]; [|discriminate].
        destruct (Json.is_low_surrogate lo);
          apply rec in H; try exact H; simpl; lia.
      * apply rec in H; [exact H | simpl; lia].
    + destruct (Json.simple_escape e); [|discriminate].
      apply rec in H; [exact H | simpl; lia].
  - destruct (code c <? 32)%N; [discriminate|].
    apply rec in H; [exact H | simpl; lia].
Qed.

Lemma scan_string_shrinks (s : text) (out str : ustring) (r : text) :
  Json.scan_string s out = Some (str, r) -> length r < length s.
Proof. apply (@scan_string_shrinks_upto (length s)). lia. Qed.

Lemma int_part_shrinks (s ip r : text) :
  Json.int_part s = Some (ip, r) -> length r < length s.
Proof.
  destruct s as [|c s]; [discriminate|]. simpl.
  destruct (Ascii.eqb c "0").
  - intros H. injection H as _ <-. lia.
  - destruct (in_range "1" "9" c); [|discriminate].
    intros H. injection H as _ <-. rewrite length_skipn. lia.
Qed.

Lemma frac_part_length (s : text) : length (snd (Json.frac_part s)) <= length s.
Proof.
  destruct s as [|c s]; [simpl; lia|]. unfold Json.frac_part.
  destruct (Ascii.eqb c "."); [|simpl; lia].
  destruct (take_while is_digit s); cbn [snd]; [lia|].
  rewrite length_skipn. cbn [length]. lia.
Qed.

Lemma exp_part_length (s : text) : length (snd (Json.exp_part s)) <= length s.
Proof.
  destruct s as [|c s]; [simpl; lia|]. unfold Json.exp_part.
  destruct (Ascii.eqb c "e" || Ascii.eqb c "E"); [|simpl; lia].
  assert (H : forall sign t, length t <= length s ->
                length (snd match take_while is_digit t with
                            | [] => ([], c :: s)
                            | a :: l => (c :: sign ++ a :: l,
                                         skipn (length (a :: l)) t)
                            end) <= length (c :: s)).
  { intros sign t L. destruct (take_while is_digit t); cbn [snd]; [lia|].
    rewrite length_skipn. cbn [length]. lia. }
  destruct s as [|g r]; [apply H; simpl; lia|].
  destruct (Ascii.eqb g "-" || Ascii.eqb g "+"); apply H; simpl; lia.
Qed.

Lemma scan_number_shrinks (s : text) (v : json) (r : text) :
  Json.scan_number s = Some (v, r) -> length r < length s.
Proof.
  unfold Json.scan_number.
  set (s0 := match s with
             | c :: s' => if Ascii.eqb c "-" then (true, s') else (false, s)
             | [] => (false, s)
             end).
  assert (L0 : length (snd s0) <= length s).
  { unfold s0. destruct s as [|c s']; simpl; [lia|].
    destruct (Ascii.eqb c "-"); simpl; lia. }
  destruct s0 as [neg t]. simpl in L0.
  destruct (Json.int_part t) as [[ip s1]|] eqn:Ei; [|discriminate].
  apply int_part_shrinks in Ei.
  pose proof (frac_part_length s1) as Lf.
  destruct (Json.frac_part s1) as [fp s2]. simpl in Lf.
  pose proof (exp_part_length s2) as Le.
  destruct (Json.exp_part s2) as [ep s3]. simpl in Le.
  destruct fp; [destruct ep|]; intros H; injection H as _ <-; lia.
Qed.

Lemma literal_shrinks (word : string) (v v' : json) (c : ascii) (s r : text) :
  1 <= String.length word ->
  Json.literal word v (c :: s) = Some (v', r) -> length r < length (c :: s).
Proof.
  intros L. unfold Json.literal.
  destruct (starts_with (txt word) (c :: s)); [|discriminate].
  intros H. injection H as _ <-. rewrite length_skipn. cbn [length]. lia.
Qed.

(** A successful parse consumes at least one character. *)
Lemma parse_shrinks (fuel : nat) :
  (forall s v r, Json.scan_once fuel s = Some (v, r) -> length r < length s)
  /\ (forall s acc v r, Json.parse_items fuel s acc = Some (v, r) -> length r < length s)
  /\ (forall s acc v r,
         Json.parse_members fuel s acc = Some (v, r) -> length r < length s).
Proof.
  induction fuel as [|fuel (IHv & IHi & IHm)];
    [repeat split; intros; discriminate|].
  split; [|split].
  - intros s v r H. cbn [Json.scan_once] in H.
    destruct s as [|c s']; [discriminate|].
    destruct (Ascii.eqb c dquote).
    { destruct (Json.scan_string s' []) as [[str r0]|] eqn:E; [|discriminate].
      apply scan_string_shrinks in E. injection H as _ <-. simpl. lia. }
    destruct (Ascii.eqb c "{").
    { pose proof (skip_ws_length s') as L.
      destruct (Json.skip_ws s') as [|d r0]; [discriminate|].
      destruct (Ascii.eqb d "}").
      - injection H as _ <-. simpl in *. lia.
      - apply IHm in H. simpl in *. lia. }
    destruct (Ascii.eqb c "[").
    { pose proof (skip_ws_length s') as L.
      destruct (Json.skip_ws s') as [|d r0]; [discriminate|].
      destruct (Ascii.eqb d "]").
      - injection H as _ <-. simpl in *. lia.
      - apply IHi in H. simpl in *. lia. }
    destruct (Ascii.eqb c "n"); [apply literal_shrinks in H; [exact H|simpl; lia]|].
    destruct (Ascii.eqb c "t"); [apply literal_shrinks in H; [exact H|simpl; lia]|].
    destruct (Ascii.eqb c "f"); [apply literal_shrinks in H; [exact H|simpl; lia]|].
    destruct (Ascii.eqb c "N"); [apply literal_shrinks in H; [exact H|simpl; lia]|].
    destruct (Ascii.eqb c "I"); [apply literal_shrinks in H; [exact H|simpl; lia]|].
    destruct (Ascii.eqb c "-" && starts_with (txt "-Infinity") (c :: s'));
      [apply literal_shrinks in H; [exact H|simpl; lia]|].
    apply scan_number_shrinks in H. exact H.
  - intros s acc v r H. cbn [Json.parse_items] in H.
    destruct (Json.scan_once fuel s) as [[v0 r0]|] eqn:E; [|discriminate].
    apply IHv in E.
    pose proof (skip_ws_length r0) as L.
    destruct (Json.skip_ws r0) as [|d r']; [discriminate|].
    destruct (Ascii.eqb d "]").
    + injection H as _ <-. simpl in *. lia.
    + destruct (Ascii.eqb d ","); [|discriminate].
      apply IHi in H. pose proof (skip_ws_length r'). simpl in *. lia.
  - intros s acc v r H. cbn [Json.parse_members] in H.
    destruct s as [|c s']; [discriminate|].
    destruct (Ascii.eqb c dquote); [|discriminate].
    destruct (Json.scan_string s' []) as [[key r0]|] eqn:Es; [|discriminate].
    apply scan_string_shrinks in Es.
    pose proof (skip_ws_length r0) as L0.
    destruct (Json.skip_ws r0) as [|d r1]; [discriminate|].
    destruct (Ascii.eqb d ":"); [|discriminate].
    pose proof (skip_ws_length r1) as L1.
    destruct (Json.scan_once fuel (Json.skip_ws r1)) as [[v0 r2]|] eqn:Ev; [|discriminate].
    apply IHv in Ev.
    pose proof (skip_ws_length r2) as L2.
    destruct (Json.skip_ws r2) as [|e r3]; [discriminate|].
    destruct (Ascii.eqb e "}").
    + injection H as _ <-. simpl in *. lia.
    + destruct (Ascii.eqb e ","); [|discriminate].
      apply IHm in H. pose proof (skip_ws_length r3). simpl in *. lia.
Qed.

(** More fuel than twice the length of the text changes nothing. *)
Lemma fuel_is_enough (fuel : nat) :
  forall fuel',
    (forall s, 2 * length s + 1 <= fuel -> 2 * length s + 1 <= fuel' ->
               Json.scan_once fuel s = Json.scan_once fuel' s)
    /\ (forall s acc, 2 * length s + 2 <= fuel -> 2 * length s + 2 <= fuel' ->
                      Json.parse_items fuel s acc = Json.parse_items fuel' s acc)
    /\ (forall s acc, 2 * length s + 2 <= fuel -> 2 * length s + 2 <= fuel' ->
                      Json.parse_members fuel s acc = Json.parse_members fuel' s acc).
Proof.
  induction fuel as [|fuel IH]; intros fuel'; [repeat split; intros; lia|].
  destruct fuel' as [|fuel']; [repeat split; intros; lia|].
  destruct (IH fuel') as (IHv & IHi & IHm).
  destruct (parse_shrinks fuel) as (Sv & _ & _).
  split; [|split].
  - intros s L L'. cbn [Json.scan_once].
    destruct s as [|c s']; [reflexivity|]. cbn [length] in L, L'.
    pose proof (skip_ws_length s') as Lw.
    destruct (Ascii.eqb c dquote); [reflexivity|].
    destruct (Ascii.eqb c "{").
    { destruct (Json.skip_ws s') as [|d r0]; [reflexivity|].
      destruct (Ascii.eqb d "}"); [reflexivity|].
      apply IHm; lia. }
    destruct (Ascii.eqb c "[").
    { destruct (Json.skip_ws s') as [|d r0]; [reflexivity|].
      destruct (Ascii.eqb d "]"); [reflexivity|].
      apply IHi; lia. }
    reflexivity.
  - intros s acc L L'. cbn [Json.parse_items].
    rewrite <- (IHv s) by lia.
    destruct (Json.scan_once fuel s) as [[v0 r0]|] eqn:E; [|reflexivity].
    apply Sv in E.
    pose proof (skip_ws_length r0) as L0.
    destruct (Json.skip_ws r0) as [|d r']; [reflexivity|].
    destruct (Ascii.eqb d "]"); [reflexivity|].
    destruct (Ascii.eqb d ","); [|reflexivity].
    pose proof (skip_ws_length r'). apply IHi; simpl in *; lia.
  - intros s acc L L'. cbn [Json.parse_members].
    destruct s as [|c s']; [reflexivity|]. cbn [length] in L, L'.
    destruct (Ascii.eqb c dquote); [|reflexivity].
    destruct (Json.scan_string s' []) as [[key r0]|] eqn:Es; [|reflexivity].
    apply scan_string_shrinks in Es.
    pose proof (skip_ws_length r0) as L0.
    destruct (Json.skip_ws r0) as [|d r1]; [reflexivity|].
    destruct (Ascii.eqb d ":"); [|reflexivity].
    pose proof (skip_ws_length r1) as L1.
    rewrite <- (IHv (Json.skip_ws r1)) by (simpl in *; lia).
    destruct (Json.scan_once fuel (Json.skip_ws r1)) as [[v0 r2]|] eqn:Ev; [|reflexivity].
    apply Sv in Ev.
    pose proof (skip_ws_length r2) as L2.
    destruct (Json.skip_ws r2) as [|e r3]; [reflexivity|].
    destruct (Ascii.eqb e "}"); [reflexivity|].
    destruct (Ascii.eqb e ","); [|reflexivity].
    pose proof (skip_ws_length r3). apply IHm; simpl in *; lia.
Qed.

(** [loads] does not depend on its fuel: [None] is a text that is not JSON,
    never a parse cut short. *)
Lemma loads_total (s : text) (fuel : nat) :
  2 * length s + 1 <= fuel ->
  Json.scan_once fuel (Json.skip_ws s)
  = Json.scan_once (2 * length s + 1) (Json.skip_ws s).
Proof.
  intros L. pose proof (skip_ws_length s) as Lw.
  destruct (fuel_is_enough fuel (2 * length s + 1)) as (H & _ & _).
  apply H; lia.
Qed.

(* ================================================================== *)
(** * The crawl *)

(** ** The output boundary is reached by [write_csv] only *)

Lemma keeps_csv_ret (A : Type) (a : A) : keeps_csv (ret a).
Proof. intros st. reflexivity. Qed.

Lemma keeps_csv_raise (A : Type) (e : exn) : keeps_csv (@raise A e).
Proof. intros st. reflexivity. Qed.

Lemma keeps_csv_bind (A B : Type) (m : M A) (k : A -> M B) :
  keeps_csv m -> (forall a, keeps_csv (k a)) -> keeps_csv (bind m k).
Proof.
  intros Hm Hk st. unfold bind. specialize (Hm st).
  destruct (m st) as [[a|e|] st']; simpl in *; [|exact Hm|exact Hm].
  rewrite (Hk a st'). exact Hm.
Qed.

Create HintDb csv.
#[local] Hint Resolve keeps_csv_ret keeps_csv_raise keeps_csv_bind : csv.

Section CrawlFacts.

Variable fl : float_ops.
Variable BeautifulSoup : option (text -> list text).
Variable server : transport.

Lemma keeps_csv_send (rq : request) : keeps_csv (send server rq).
Proof. intros st. unfold send. destruct (server (calls st) rq); reflexivity. Qed.

Lemma keeps_csv_extend (rows : list json) : keeps_csv (extend rows).
Proof. intros st. reflexivity. Qed.

Lemma keeps_csv_raise_for_status (r : response) : keeps_csv (raise_for_status r).
Proof. unfold raise_for_status. destruct (_ && _)%bool; auto with csv. Qed.

Lemma keeps_csv_getitem_id (row : json) : keeps_csv (getitem_id row).
Proof.
  destruct row; simpl; auto with csv.
  destruct (dict_get _ _); auto with csv.
Qed.

#[local] Hint Resolve keeps_csv_send keeps_csv_extend keeps_csv_raise_for_status
  keeps_csv_getitem_id : csv.

Lemma keeps_csv_first_page_of (payloads : list request) :
  keeps_csv (first_page_of server payloads).
Proof.
  induction payloads as [|p rest IH]; simpl; auto with csv.
  apply keeps_csv_bind; auto with csv.
  intros r. destruct (400 <=? status_code r)%Z; [exact IH|].
  destruct (extract_json_array_from_rsc _ _); auto with csv.
Qed.

Lemma keeps_csv_ids : keeps_csv (get_initial_ids_from_html BeautifulSoup server).
Proof.
  unfold get_initial_ids_from_html. destruct BeautifulSoup; auto 6 with csv.
Qed.

Lemma keeps_csv_detail (ds_id : text) : keeps_csv (get_detail_for_id server ds_id).
Proof.
  unfold get_detail_for_id. apply keeps_csv_bind; auto with csv.
  intros r. destruct (400 <=? status_code r)%Z; auto with csv.
Qed.

Lemma keeps_csv_fetch_details (ids : list text) :
  keeps_csv (fetch_details fl server ids).
Proof.
  induction ids as [|i ids IH]; simpl; auto with csv.
  apply keeps_csv_bind; [apply keeps_csv_detail|].
  intros obj. apply keeps_csv_bind; auto with csv.
Qed.

Lemma keeps_csv_post_load_more (last_id : json) :
  keeps_csv (post_load_more server last_id).
Proof.
  unfold post_load_more. apply keeps_csv_bind; auto with csv.
  intros r. apply keeps_csv_bind; auto with csv.
  intros _. apply keeps_csv_bind; auto with csv.
  destruct (last_row _); auto with csv.
Qed.

Lemma keeps_csv_load_more_loop (fuel : nat) :
  forall last_id, keeps_csv (load_more_loop fl server fuel last_id).
Proof.
  induction fuel as [|fuel IH]; intros last_id; simpl.
  - destruct (truthy fl last_id); [intros st; reflexivity | auto with csv].
  - destruct (truthy fl last_id); [|auto with csv].
    apply keeps_csv_bind; [apply keeps_csv_post_load_more|].
    intros [rows next_last]. destruct rows; auto with csv.
    destruct (py_eq fl next_last last_id); auto with csv.
Qed.

Lemma keeps_csv_first_cursor : keeps_csv (first_cursor fl BeautifulSoup server).
Proof.
  unfold first_cursor, get_initial_via_post, fallback_seed.
  apply keeps_csv_bind; [apply keeps_csv_first_page_of|].
  intros rows. destruct (last_row rows); auto with csv.
  apply keeps_csv_bind; [apply keeps_csv_ids|].
  intros ids. apply keeps_csv_bind; [apply keeps_csv_fetch_details|].
  auto with csv.
Qed.


End CrawlFacts.


(** ** The paging loop *)

Section Paging.

Variable fl : float_ops.
Variable server : transport.

(** A load-more fetch is one call, whatever it returns. *)
Lemma getitem_id_state (row : json) (st : crawl_state) :
  snd (getitem_id row st) = st.
Proof.
  destruct row; try reflexivity.
  simpl. destruct (dict_get _ _); reflexivity.
Qed.

Lemma post_load_more_state (c : json) (st : crawl_state) :
  snd (post_load_more server c st) = after_call st.
Proof.
  unfold post_load_more, bind, send, raise_for_status.
  destruct (server (calls st) (PostList (Some c))) as [r|]; [|reflexivity].
  fold (after_call st).
  destruct ((400 <=? status_code r) && (status_code r <? 600))%Z; [reflexivity|].
  cbn [ret].
  destruct (last_row (extract_json_array_from_rsc (body r) (txt "datasets")))
    as [row|]; [|reflexivity].
  pose proof (getitem_id_state row (after_call st)) as H.
  destruct (getitem_id row (after_call st)) as [[v|e|] st1]; simpl in *;
    subst st1; reflexivity.
Qed.

Lemma load_more_stops (c : json) (st : crawl_state) (fuel : nat) :
  stops_here fl server st c = true ->
  load_more_loop fl server (S fuel) c st = (Ok tt, after_call st).
Proof.
  unfold stops_here. intros H. apply andb_prop in H. destruct H as [Ht H].
  cbn [load_more_loop]. rewrite Ht. unfold bind.
  pose proof (post_load_more_state c st) as Hs.
  destruct (post_load_more server c st) as [[[rows next_last]|e|] st1];
    try discriminate.
  simpl in Hs. subst st1.
  destruct rows as [|row rows]; [reflexivity|].
  rewrite H. reflexivity.
Qed.

Lemma advancing_pages_calls (k : nat) :
  forall st c st' c',
    advancing_pages fl server k st c = Some (st', c') ->
    calls st' = calls st + k.
Proof.
  induction k as [|k IH]; intros st c st' c' H; simpl in H.
  - injection H as <- _. lia.
  - destruct (truthy fl c); [|discriminate].
    pose proof (post_load_more_state c st) as Hs.
    destruct (post_load_more server c st) as [[[rows next_last]|e|] st1];
      try discriminate.
    simpl in Hs. subst st1.
    destruct rows as [|row rows]; [discriminate|].
    destruct (py_eq fl next_last c); [discriminate|].
    apply IH in H. simpl in H. lia.
Qed.


End Paging.


(** The stall guard alone: the first page repeats the cursor. *)
Example stall_on_first_page :
  load_more_loop lexeme_floats server_that_stalls 1 (JStr (u (txt "c")))
    {| calls := 2; all_rows := []; csv_out := None |}
  = (Ok tt, {| calls := 3; all_rows := []; csv_out := None |}).
Proof. vm_compute. reflexivity. Qed.

(** ** The fallback branch *)

Section Fallback.

Variable fl : float_ops.
Variable server : transport.

Lemma detail_fetch (ds_id : text) (st : crawl_state) (r : response) :
  server (calls st) (GetDetail ds_id) = Answers r ->
  get_detail_for_id server ds_id st
  = (Ok (detail_of server (calls st) ds_id), after_call st).
Proof.
  intros H. unfold get_detail_for_id, detail_of, bind, send. rewrite H.
  fold (after_call st).
  destruct (400 <=? status_code r)%Z; reflexivity.
Qed.

Lemma missing_detail_gives_minimal (ds_id : text) (obj : option json) :
  no_detail fl obj = true -> detail_or_minimal fl ds_id obj = minimal_record ds_id.
Proof.
  destruct obj as [o|]; simpl; [|reflexivity].
  intros H. apply negb_true_iff in H. rewrite H. reflexivity.
Qed.


End Fallback.


Section FirstPage.

Variable fl : float_ops.
Variable BeautifulSoup : option (text -> list text).
Variable server : transport.

Lemma first_page_try (payload : request) (rest : list request) (st : crawl_state)
      (r : response) :
  server (calls st) payload = Answers r ->
  yields_no_rows r = true ->
  first_page_of server (payload :: rest) st = first_page_of server rest (after_call st).
Proof.
  intros Hr Hy. cbn [first_page_of]. unfold bind, send. rewrite Hr.
  fold (after_call st). unfold yields_no_rows in Hy.
  destruct (400 <=? status_code r)%Z; [reflexivity|].
  cbn [orb] in Hy.
  destruct (extract_json_array_from_rsc (body r) (txt "datasets"));
    [reflexivity|discriminate].
Qed.

End FirstPage.

(** C10. The by-key extractor gives the same empty list for a span that is
    the empty array, for a missing anchor or an unbalanced span, and for a
    span that does not parse. So [get_initial_via_post] cannot tell them
    apart: when both first-page answers yield no rows, for whichever of these
    reasons (or a status of 400 or more), part A of [main] is the fallback
    branch, run after the two calls. *)
Theorem empty_array_is_a_miss :
  (forall body_text key,
      array_span body_text key = Some (txt "[]") ->
      extract_json_array_from_rsc body_text key = [])
  /\ (forall body_text key,
         array_span body_text key = None ->
         extract_json_array_from_rsc body_text key = [])
  /\ (forall body_text key span,
         array_span body_text key = Some span ->
         Json.loads (normalize_rsc_tokens span) = None ->
         extract_json_array_from_rsc body_text key = [])
  /\ (array_span (q "0:{'datasets':[]}") (txt "datasets") = Some (txt "[]")
      /\ extract_json_array_from_rsc (q "0:{'datasets':[]}") (txt "datasets") = []
      /\ extract_json_array_from_rsc (q "0:{'items':[1]}") (txt "datasets") = [])
  /\ (forall fl BeautifulSoup server st r1 r2,
         server (calls st) (PostList None) = Answers r1 ->
         server (S (calls st)) (PostList (Some (JStr []))) = Answers r2 ->
         yields_no_rows r1 = true ->
         yields_no_rows r2 = true ->
         first_cursor fl BeautifulSoup server st
         = fallback_seed fl BeautifulSoup server (after_call (after_call st))).
Proof.
  unfold extract_json_array_from_rsc.
  split; [|split; [|split; [|split]]].
  - intros body_text key H. rewrite H. reflexivity.
  - intros body_text key H. rewrite H. reflexivity.
  - intros body_text key span H1 H2. rewrite H1, H2. reflexivity.
  - repeat split; vm_compute; reflexivity.
  - intros fl BeautifulSoup server st r1 r2 H1 H2 Y1 Y2.
    unfold first_cursor, get_initial_via_post. unfold bind at 1.
    rewrite (@first_page_try server _ [PostList (Some (JStr []))] st r1 H1 Y1).
    rewrite (@first_page_try server _ [] (after_call st) r2 H2 Y2).
    reflexivity.
Qed.

(** A first page that is a genuine empty array, then one that does not
    decode: the fallback branch runs, and [a2], whose detail is a 404, gets
    its minimal record. *)
Example fallback_run :
  script lexeme_floats (Some (fun _ => three_links)) server_without_first_page 5
  = (Completed,
     {| calls := 6;
        all_rows := [JObj [(u (txt "id"), JStr (u (txt "a1"))); (u (txt "n"), JInt 5)];
                     minimal_record (txt "a2")];
        csv_out := Some [JObj [(u (txt "id"), JStr (u (txt "a1"))); (u (txt "n"), JInt 5)];
                         minimal_record (txt "a2")] |}).
Proof. vm_compute. reflexivity. Qed.

(* ================================================================== *)
(** * More on the token normalizer *)

Lemma match_chr (c : ascii) (p : regex) (prev : option ascii) (s : text) :
  match_here (Chr c :: p) prev (c :: s) = advance 1 None (match_here p (Some c) s).
Proof. simpl. rewrite Ascii.eqb_refl. reflexivity. Qed.

Lemma match_chr_step (c x : ascii) (p : regex) (prev : option ascii) (s : text) :
  match_here (Chr c :: p) prev (x :: s)
  = if Ascii.eqb x c then advance 1 None (match_here p (Some x) s) else None.
Proof. reflexivity. Qed.

(** A repetition of a class followed by a character outside the class takes
    the whole run: [body] is the run, [c] the character. *)
Lemma match_run_then_chr (grp : bool) (cl : ascii -> bool) (c : ascii)
      (body rest : text) (prev : option ascii) :
  body <> [] -> forallb cl body = true -> cl c = false ->
  match_here [Rep grp 1 cl; Chr c] prev (body ++ c :: rest)
  = Some (length body + 1, if grp then Some body else None).
Proof.
  intros Hne Hall Hc. rewrite match_rep.
  rewrite (@take_while_stops cl body (c :: rest) Hall Hc).
  apply longest_first_top.
  - destruct body; [congruence | simpl; lia].
  - rewrite firstn_length_app, skipn_length_app, match_chr. simpl.
    destruct grp; reflexivity.
Qed.

Lemma all_in_class_dollar_free (cl : ascii -> bool) (s : text) :
  cl "$"%char = false -> forallb cl s = true -> dollar_free s.
Proof.
  intros Hd Hall. apply dollar_free_check.
  induction s as [|c s IH]; simpl in *; [reflexivity|].
  apply andb_prop in Hall. destruct Hall as [Hc Hall].
  rewrite (IH Hall), andb_true_r.
  destruct (Ascii.eqb c "$") eqn:E; [|reflexivity].
  apply Ascii.eqb_eq in E. subst c. congruence.
Qed.

Lemma dollar_free_single (c : ascii) : c <> "$"%char -> dollar_free [c].
Proof. intros H [E|[]]. congruence. Qed.

(** A substitution whose pattern matches neither at the quote nor at the
    dollar sign of a quoted token leaves the token as it is. *)
Lemma sub_keeps_quoted_token (p : regex) (tpl : template) (pre body post : text) :
  needs_dollar p ->
  (forall prev, match_here p prev (dquote :: "$"%char :: body ++ dquote :: post) = None) ->
  (forall prev, match_here p prev ("$"%char :: body ++ dquote :: post) = None) ->
  dollar_free pre -> dollar_free body -> dollar_free post ->
  sub p tpl (pre ++ dquote :: "$"%char :: body ++ dquote :: post)
  = pre ++ dquote :: "$"%char :: body ++ dquote :: post.
Proof.
  intros Hp Hq Hd Hpre Hbody Hpost. unfold sub.
  destruct (@sub_from_passes p tpl pre (dquote :: "$"%char :: body ++ dquote :: post)
              Hp Hpre) with (prev := @None ascii) as [prev E];
    [simpl; discriminate|].
  rewrite E. f_equal.
  rewrite sub_from_no_match by apply Hq.
  rewrite sub_from_no_match by apply Hd.
  rewrite sub_from_dollar_free; [reflexivity | exact Hp |].
  apply dollar_free_app; [exact Hbody|].
  change (dquote :: post) with ([dquote] ++ post).
  apply dollar_free_app; [apply dollar_free_single; discriminate | exact Hpost].
Qed.

(** A substitution that matches a quoted token whole puts the replacement
    in its place. *)
Lemma sub_replaces_quoted_token (p : regex) (tpl : template) (pre body post : text)
      (g : option text) :
  needs_dollar p ->
  (forall prev, match_here p prev (dquote :: "$"%char :: body ++ dquote :: post)
                = Some (S (S (length body + 1)), g)) ->
  dollar_free pre -> dollar_free post ->
  sub p tpl (pre ++ dquote :: "$"%char :: body ++ dquote :: post)
  = pre ++ expand tpl g ++ post.
Proof.
  intros Hp Hm Hpre Hpost. unfold sub.
  destruct (@sub_from_passes p tpl pre (dquote :: "$"%char :: body ++ dquote :: post)
              Hp Hpre) with (prev := @None ascii) as [prev E];
    [simpl; discriminate|].
  rewrite E. f_equal.
  rewrite (@sub_from_match p tpl prev dquote _ _ g (Hm prev)). f_equal.
  destruct (sub_from_skip p tpl ("$"%char :: body ++ [dquote]) post (Some dquote))
    as [prev' E'].
  replace (length ("$"%char :: body ++ [dquote])) with (S (length body + 1)) in E'
    by (simpl; rewrite length_app; reflexivity).
  replace (("$"%char :: body ++ [dquote]) ++ post)
    with ("$"%char :: body ++ dquote :: post) in E'
    by (simpl; rewrite <- app_assoc; reflexivity).
  rewrite E'. apply sub_from_dollar_free; assumption.
Qed.

Lemma digit_is_not_dollar : is_digit "$" = false.
Proof. reflexivity. Qed.

(** X1. A quoted numeric token with any digits becomes the bare number: in
    an input without another dollar sign, ['$n<digits>'] is replaced by
    [<digits>], quotes removed, and the text around it stays. *)
Theorem quoted_number_becomes_literal (pre digits post : text) :
  dollar_free pre -> dollar_free post ->
  digits <> [] -> forallb is_digit digits = true ->
  normalize_rsc_tokens (pre ++ q "'$n" ++ digits ++ [dquote] ++ post)
  = pre ++ digits ++ post.
Proof.
  intros Hpre Hpost Hne Hdig.
  destruct token_patterns_need_dollar as (P1 & P2 & P3 & P4 & P5 & P6).
  unfold normalize_rsc_tokens.
  change (pre ++ q "'$n" ++ digits ++ [dquote] ++ post)
    with (pre ++ dquote :: "$"%char :: ("n"%char :: digits) ++ dquote :: post).
  rewrite (@sub_replaces_quoted_token quoted_number [Group1] pre ("n"%char :: digits)
             post (Some digits) P1); [| |assumption|assumption].
  - assert (H : dollar_free (pre ++ expand [Group1] (Some digits) ++ post)).
    { simpl. rewrite app_nil_r. repeat apply dollar_free_app; try assumption.
      exact (@all_in_class_dollar_free is_digit digits digit_is_not_dollar Hdig). }
    rewrite (sub_dollar_free _ P2 H), (sub_dollar_free _ P3 H),
      (sub_dollar_free _ P4 H), (sub_dollar_free _ P5 H), (sub_dollar_free _ P6 H).
    simpl. rewrite app_nil_r. reflexivity.
  - intros prev. unfold quoted_number, GroupPlus.
    rewrite !match_chr. cbn [app]. rewrite match_chr.
    rewrite (@match_run_then_chr true is_digit dquote digits post (Some "n"%char)
               Hne Hdig eq_refl).
    simpl. repeat f_equal.
Qed.

(** X2. A quoted date token with any payload (not empty, without double
    quote and dollar sign) becomes the quoted payload, character for
    character, in an input without another dollar sign. *)
Theorem quoted_date_becomes_string (pre payload post : text) :
  dollar_free pre -> dollar_free post -> dollar_free payload ->
  payload <> [] -> forallb not_dquote payload = true ->
  normalize_rsc_tokens (pre ++ q "'$D" ++ payload ++ [dquote] ++ post)
  = pre ++ [dquote] ++ payload ++ [dquote] ++ post.
Proof.
  intros Hpre Hpost Hpay Hne Hnq.
  destruct token_patterns_need_dollar as (P1 & P2 & P3 & P4 & P5 & P6).
  unfold normalize_rsc_tokens.
  change (pre ++ q "'$D" ++ payload ++ [dquote] ++ post)
    with (pre ++ dquote :: "$"%char :: ("D"%char :: payload) ++ dquote :: post).
  assert (Hbody : dollar_free ("D"%char :: payload)).
  { change ("D"%char :: payload) with (["D"%char] ++ payload).
    apply dollar_free_app; [apply dollar_free_single; discriminate | exact Hpay]. }
  rewrite (@sub_keeps_quoted_token quoted_number [Group1] pre ("D"%char :: payload) post P1);
    try assumption; try (intros prev; reflexivity).
  rewrite (@sub_keeps_quoted_token bare_number [Group1] pre ("D"%char :: payload) post P2);
    try assumption; try (intros prev; reflexivity).
  rewrite (@sub_replaces_quoted_token quoted_date [Txt [dquote]; Group1; Txt [dquote]]
             pre ("D"%char :: payload) post (Some payload) P3);
    [| |assumption|assumption].
  - assert (H : dollar_free (pre ++ expand [Txt [dquote]; Group1; Txt [dquote]]
                                      (Some payload) ++ post)).
    { unfold dollar_free in *. simpl. rewrite !in_app_iff. simpl.
      rewrite !in_app_iff. simpl. intuition discriminate. }
    rewrite (sub_dollar_free _ P4 H), (sub_dollar_free _ P5 H), (sub_dollar_free _ P6 H).
    simpl. rewrite <- app_assoc. reflexivity.
  - intros prev. unfold quoted_date, GroupPlus.
    rewrite !match_chr. cbn [app]. rewrite match_chr.
    rewrite (@match_run_then_chr true not_dquote dquote payload post (Some "D"%char)
               Hne Hnq eq_refl).
    simpl. repeat f_equal.
Qed.

(** What follows [$] in a plain reference is no number: the digits of the
    number rules are missing. *)
Lemma no_number_in_plain_ref (tail : regex) (ref post : text) (prev : option ascii) :
  plain_ref ref = true ->
  match_here (Chr "n" :: Rep true 1 is_digit :: tail) prev (ref ++ dquote :: post) = None.
Proof.
  intros H. destruct ref as [|c r]; [discriminate|].
  cbn [plain_ref] in H. apply andb_prop in H. destruct H as [H _].
  apply andb_prop in H. destruct H as [_ H]. apply negb_true_iff in H.
  cbn [app]. rewrite match_chr_step.
  destruct (Ascii.eqb c "n"); [|reflexivity].
  cbn [andb] in H. rewrite match_rep.
  replace (take_while is_digit (r ++ dquote :: post)) with (@nil ascii);
    [reflexivity|].
  destruct r as [|d r]; [reflexivity|]. cbn [app take_while]. rewrite H. reflexivity.
Qed.

Lemma no_date_in_plain_ref (tail : regex) (ref post : text) (prev : option ascii) :
  plain_ref ref = true ->
  match_here (Chr "D" :: tail) prev (ref ++ dquote :: post) = None.
Proof.
  intros H. destruct ref as [|c r]; [discriminate|].
  cbn [plain_ref] in H. apply andb_prop in H. destruct H as [H _].
  apply andb_prop in H. destruct H as [H _]. apply negb_true_iff in H.
  cbn [app]. rewrite match_chr_step, H. reflexivity.
Qed.

Lemma ref_char_not_dollar : ref_char "$" = false.
Proof. reflexivity. Qed.

Lemma ref_char_not_dquote : ref_char dquote = false.
Proof. reflexivity. Qed.

(** X3. Any other quoted reference becomes [null]: in an input without
    another dollar sign, ['$<ref>'] with a plain reference name is replaced
    by the four characters [null], quotes removed. *)
Theorem quoted_reference_becomes_null (pre ref post : text) :
  dollar_free pre -> dollar_free post -> plain_ref ref = true ->
  normalize_rsc_tokens (pre ++ q "'$" ++ ref ++ [dquote] ++ post)
  = pre ++ txt "null" ++ post.
Proof.
  intros Hpre Hpost Hplain.
  assert (Hall : forallb ref_char ref = true).
  { destruct ref; [discriminate|]. cbn [plain_ref] in Hplain.
    apply andb_prop in Hplain. tauto. }
  assert (Hne : ref <> []) by (destruct ref; [discriminate | congruence]).
  assert (Href : dollar_free ref)
    by exact (@all_in_class_dollar_free ref_char ref ref_char_not_dollar Hall).
  destruct token_patterns_need_dollar as (P1 & P2 & P3 & P4 & P5 & P6).
  unfold normalize_rsc_tokens.
  change (pre ++ q "'$" ++ ref ++ [dquote] ++ post)
    with (pre ++ dquote :: "$"%char :: ref ++ dquote :: post).
  rewrite (@sub_keeps_quoted_token quoted_number [Group1] pre ref post P1);
    try assumption;
    [| intros prev; unfold quoted_number, GroupPlus; rewrite !match_chr;
       rewrite no_number_in_plain_ref by assumption; reflexivity
     | intros prev; reflexivity ].
  rewrite (@sub_keeps_quoted_token bare_number [Group1] pre ref post P2);
    try assumption;
    [| intros prev; reflexivity
     | intros prev; unfold bare_number, GroupPlus; rewrite match_chr;
       rewrite no_number_in_plain_ref by assumption; reflexivity ].
  rewrite (@sub_keeps_quoted_token quoted_date [Txt [dquote]; Group1; Txt [dquote]]
             pre ref post P3);
    try assumption;
    [| intros prev; unfold quoted_date; rewrite !match_chr;
       rewrite no_date_in_plain_ref by assumption; reflexivity
     | intros prev; reflexivity ].
  rewrite (@sub_keeps_quoted_token bare_date [Txt [dquote]; Group1; Txt [dquote]]
             pre ref post P4);
    try assumption;
    [| intros prev; reflexivity
     | intros prev; unfold bare_date; rewrite match_chr;
       rewrite no_date_in_plain_ref by assumption; reflexivity ].
  rewrite (@sub_replaces_quoted_token quoted_ref [Txt (txt "null")] pre ref post None P5);
    [| |assumption|assumption].
  - assert (H : dollar_free (pre ++ expand [Txt (txt "null")] None ++ post)).
    { unfold dollar_free in *. simpl. rewrite !in_app_iff. simpl.
      intuition discriminate. }
    rewrite (sub_dollar_free _ P6 H). simpl. reflexivity.
  - intros prev. unfold quoted_ref, Plus.
    rewrite !match_chr.
    rewrite (@match_run_then_chr false ref_char dquote ref post (Some "$"%char)
               Hne Hall ref_char_not_dquote).
    simpl. repeat f_equal.
Qed.

(** X4. A text without a dollar sign holds no token: the normalizer returns
    it unchanged. *)
Theorem text_without_dollar_is_unchanged (s : text) :
  dollar_free s -> normalize_rsc_tokens s = s.
Proof. exact (@normalize_dollar_free s). Qed.

Lemma text_without_dollar_is_unchanged_witness :
  normalize_rsc_tokens (q "{'name':'n42','tags':['D1',null]}")
  = q "{'name':'n42','tags':['D1',null]}".
Proof.
  apply (@text_without_dollar_is_unchanged (q "{'name':'n42','tags':['D1',null]}")).
  apply dollar_free_check. reflexivity.
Defined.

Lemma quoted_number_becomes_literal_witness :
  normalize_rsc_tokens (q "{'sizeBytes':" ++ q "'$n" ++ txt "1234567890123" ++ [dquote]
                          ++ q ",'x':1}")
  = q "{'sizeBytes':" ++ txt "1234567890123" ++ q ",'x':1}".
Proof.
  apply (@quoted_number_becomes_literal (q "{'sizeBytes':") (txt "1234567890123")
           (q ",'x':1}"));
    [apply dollar_free_check; reflexivity | apply dollar_free_check; reflexivity
     | discriminate | reflexivity].
Defined.

Lemma quoted_date_becomes_string_witness :
  normalize_rsc_tokens (q "{'createdAt':" ++ q "'$D" ++ txt "2025-03-04 {x}" ++ [dquote]
                          ++ q "}")
  = q "{'createdAt':" ++ [dquote] ++ txt "2025-03-04 {x}" ++ [dquote] ++ q "}".
Proof.
  apply (@quoted_date_becomes_string (q "{'createdAt':") (txt "2025-03-04 {x}") (q "}"));
    [apply dollar_free_check; reflexivity | apply dollar_free_check; reflexivity
     | apply dollar_free_check; reflexivity | discriminate | reflexivity].
Defined.

Lemma quoted_reference_becomes_null_witness :
  normalize_rsc_tokens (q "['a'," ++ q "'$" ++ txt "undefined" ++ [dquote] ++ q "]")
  = q "['a'," ++ txt "null" ++ q "]".
Proof.
  apply (@quoted_reference_becomes_null (q "['a',") (txt "undefined") (q "]"));
    [apply dollar_free_check; reflexivity | apply dollar_free_check; reflexivity
     | reflexivity].
Defined.

(* ================================================================== *)
(** * More on the chunk prefixes *)

Lemma longest_first_bounded (A : Type) (attempt : nat -> option A) (lo : nat) :
  forall k r, longest_first attempt lo k = Some r ->
              exists j, j <= k /\ attempt j = Some r.
Proof.
  induction k as [|k IH]; intros r H; simpl in H.
  - destruct (0 <? lo); [discriminate|].
    destruct (attempt 0) eqn:E; [|discriminate]. exists 0. split; [lia|congruence].
  - destruct (S k <? lo); [discriminate|].
    destruct (attempt (S k)) eqn:E.
    + exists (S k). split; [lia|congruence].
    + destruct (IH r H) as (j & Hj & Ej). exists j. split; [lia|exact Ej].
Qed.

Lemma firstn_plus (A : Type) (a b : nat) :
  forall l : list A, firstn (a + b) l = firstn a l ++ firstn b (skipn a l).
Proof.
  induction a as [|a IH]; intros l; [reflexivity|].
  destruct l as [|x l]; simpl; [destruct b; reflexivity|].
  rewrite IH. reflexivity.
Qed.

Lemma firstn_in_run (cl : ascii -> bool) (s : text) :
  forall j, j <= length (take_while cl s) -> forallb cl (firstn j s) = true.
Proof.
  induction s as [|c s IH]; intros j Hj; [destruct j; reflexivity|].
  destruct j as [|j]; [reflexivity|].
  simpl in Hj. destruct (cl c) eqn:E; simpl in Hj; [|lia].
  simpl. rewrite E. apply IH. lia.
Qed.

Lemma forallb_weaken (C cl : ascii -> bool) (l : text) :
  (forall x, cl x = true -> C x = true) -> forallb cl l = true -> forallb C l = true.
Proof.
  intros H. induction l as [|x l IH]; simpl; [reflexivity|].
  intros E. apply andb_prop in E. destruct E as [E1 E2].
  rewrite (H x E1), (IH E2). reflexivity.
Qed.

(** A match consumes characters of [C] only. *)
Lemma match_within (C : ascii -> bool) (p : regex) :
  Forall (atom_within C) p ->
  forall prev s n g,
    match_here p prev s = Some (n, g) -> forallb C (firstn n s) = true.
Proof.
  induction p as [|a p IH]; intros Hp prev s n g H.
  - simpl in H. injection H as <- _. reflexivity.
  - inversion Hp as [|a' p' Ha Hp']; subst.
    destruct a as [c|grp lo cl| | |].
    + destruct s as [|x s]; [discriminate|]. rewrite match_chr_step in H.
      destruct (Ascii.eqb x c) eqn:E; [|discriminate].
      apply Ascii.eqb_eq in E. subst x.
      apply advance_some in H. destruct H as (n' & g' & H & ->).
      simpl. simpl in Ha. rewrite Ha. apply (IH Hp' _ _ _ _ H).
    + rewrite match_rep in H.
      apply longest_first_bounded in H. destruct H as (j & Hj & H).
      apply advance_some in H. destruct H as (n' & g' & H & ->).
      rewrite firstn_plus, forallb_app.
      rewrite (forallb_weaken C cl _ Ha (firstn_in_run cl s Hj)).
      apply (IH Hp' _ _ _ _ H).
    + simpl in H. destruct prev as [c0|];
        [destruct (Ascii.eqb c0 newline); [|discriminate]|];
        apply (IH Hp' _ _ _ _ H).
    + simpl in H. destruct prev as [c0|]; [discriminate|].
      apply (IH Hp' _ _ _ _ H).
    + simpl in H.
      destruct s as [|c0 [|c1 s]];
        [| destruct (Ascii.eqb c0 newline); [|discriminate] | discriminate];
        apply (IH Hp' _ _ _ _ H).
Qed.

(** Deleting the matches of such a pattern deletes characters of [C]
    only. *)
Lemma sub_deletes_within (C : ascii -> bool) (p : regex) :
  Forall (atom_within C) p ->
  forall s prev skip,
    forallb C (firstn skip s) = true ->
    filter (fun c => negb (C c)) (sub_from p [] prev s skip)
    = filter (fun c => negb (C c)) s.
Proof.
  intros Hp. induction s as [|c s IH]; intros prev skip Hskip.
  - simpl. destruct skip; [|reflexivity].
    destruct (match_here p prev []) as [[n g]|]; reflexivity.
  - destruct skip as [|k].
    + cbn [sub_from].
      destruct (match_here p prev (c :: s)) as [[[|n] g]|] eqn:E.
      * simpl. rewrite IH by reflexivity. reflexivity.
      * apply (match_within Hp) in E. simpl in E.
        apply andb_prop in E. destruct E as [Ec E].
        simpl. rewrite Ec. simpl. apply IH. exact E.
      * simpl. rewrite IH by reflexivity. reflexivity.
    + simpl in Hskip. apply andb_prop in Hskip. destruct Hskip as [Ec E].
      simpl. rewrite Ec. simpl. apply IH. exact E.
Qed.

Lemma chunk_prefix_within : Forall (atom_within prefix_char) chunk_prefix.
Proof.
  unfold chunk_prefix, Star, Plus, prefix_char.
  repeat constructor; simpl; try reflexivity; intros x E; rewrite E;
    rewrite ?orb_true_r; reflexivity.
Qed.

(** X5. Stripping the chunk prefixes removes whitespace, digits and colons
    only: every other character of the body (brackets, braces, quotes,
    backslashes, letters) is kept, in its order. *)
Theorem strip_removes_prefix_chars_only (rsc_body : text) :
  filter (fun c => negb (prefix_char c)) (strip_chunk_prefixes rsc_body)
  = filter (fun c => negb (prefix_char c)) rsc_body.
Proof.
  unfold strip_chunk_prefixes, sub.
  apply (sub_deletes_within chunk_prefix_within). reflexivity.
Qed.

(** ** One chunk on one line *)

Lemma match_star_empty_run (grp : bool) (cl : ascii -> bool) (p : regex)
      (prev : option ascii) (s : text) :
  take_while cl s = [] ->
  match_here (Rep grp 0 cl :: p) prev s
  = advance 0 (if grp then Some [] else None) (match_here p prev s).
Proof.
  intros E. rewrite match_rep, E. simpl.
  destruct (advance 0 _ _); reflexivity.
Qed.

Lemma digit_is_no_space (c : ascii) : is_digit c = true -> is_space c = false.
Proof.
  unfold is_digit, in_range, is_space. cbv zeta.
  change (code "0") with 48%N. change (code "9") with 57%N.
  intros H. apply andb_prop in H. destruct H as [H1 H2].
  apply N.leb_le in H1, H2.
  repeat match goal with
         | |- context [(?a <=? ?b)%N] => destruct (N.leb_spec a b)
         | |- context [(?a =? ?b)%N] => destruct (N.eqb_spec a b)
         end; simpl; try reflexivity; lia.
Qed.

(** Passing over a match, the last character passed is the one before the
    position reached. *)
Lemma sub_from_skip_last (p : regex) (tpl : template) (pre rest : text)
      (c : ascii) (prev : option ascii) :
  sub_from p tpl prev ((pre ++ [c]) ++ rest) (length (pre ++ [c]))
  = sub_from p tpl (Some c) rest 0.
Proof.
  revert prev. induction pre as [|x pre IH]; intros prev; [reflexivity|].
  simpl. apply IH.
Qed.

(** Away from a line start the chunk prefix pattern finds nothing. *)
Lemma no_prefix_inside_a_line (rest : text) :
  ~ In newline rest ->
  forall c, c <> newline -> sub_from chunk_prefix [] (Some c) rest 0 = rest.
Proof.
  induction rest as [|x rest IH]; intros Hn c Hc.
  - simpl. apply Ascii.eqb_neq in Hc. rewrite Hc. reflexivity.
  - rewrite sub_from_no_match.
    + f_equal. apply IH.
      * intros I. apply Hn. right. exact I.
      * intros E. apply Hn. left. exact E.
    + simpl. apply Ascii.eqb_neq in Hc. rewrite Hc. reflexivity.
Qed.

(** X6. A chunk on one line, [<digits>:<rest>] with [<rest>] free of line
    feeds and not starting with whitespace, loses exactly its prefix. *)
Theorem one_line_chunk_loses_its_prefix (digits rest : text) :
  digits <> [] -> forallb is_digit digits = true ->
  ~ In newline rest ->
  match rest with c :: _ => is_space c = false | [] => True end ->
  strip_chunk_prefixes (digits ++ ":"%char :: rest) = rest.
Proof.
  intros Hne Hdig Hnl Hhead.
  assert (Hrun : take_while is_space rest = []).
  { destruct rest as [|c rest]; [reflexivity|]. simpl. rewrite Hhead. reflexivity. }
  assert (Hm : match_here chunk_prefix None (digits ++ ":"%char :: rest)
               = Some (length digits + 1, None)).
  { unfold chunk_prefix, Star, Plus.
    change (match_here (Bol :: ?p) None ?s) with (match_here p None s).
    rewrite match_star_empty_run.
    2:{ destruct digits as [|d ds]; [congruence|]. simpl in Hdig |- *.
        apply andb_prop in Hdig. destruct Hdig as [Hd _].
        rewrite (digit_is_no_space _ Hd). reflexivity. }
    rewrite match_rep.
    rewrite (@take_while_stops is_digit digits (":"%char :: rest) Hdig eq_refl).
    rewrite (@longest_first_top found _ 1 (length digits) (length digits + 1, @None text)).
    - reflexivity.
    - destruct digits; [congruence | simpl; lia].
    - rewrite skipn_length_app.
      rewrite match_star_empty_run by reflexivity.
      rewrite match_chr.
      rewrite match_star_empty_run by exact Hrun.
      simpl. repeat f_equal. }
  unfold strip_chunk_prefixes, sub.
  destruct digits as [|d ds]; [congruence|].
  cbn [app] in *. 
  rewrite (@sub_from_match chunk_prefix [] None d _ (length ds + 1) None)
    by (rewrite Hm; simpl; reflexivity).
  cbn [expand flat_map app].
  replace (ds ++ ":"%char :: rest) with ((ds ++ [":"%char]) ++ rest)
    by (rewrite <- app_assoc; reflexivity).
  replace (length ds + 1) with (length (ds ++ [":"%char]))
    by (rewrite length_app; reflexivity).
  rewrite sub_from_skip_last.
  apply no_prefix_inside_a_line; [exact Hnl | discriminate].
Qed.

Lemma one_line_chunk_loses_its_prefix_witness :
  strip_chunk_prefixes (txt "12" ++ ":"%char :: q "{'id':'a', 'n': 7}")
  = q "{'id':'a', 'n': 7}".
Proof.
  apply (@one_line_chunk_loses_its_prefix (txt "12") (q "{'id':'a', 'n': 7}"));
    [ discriminate | reflexivity
    | vm_compute; intuition discriminate | reflexivity ].
Defined.

(* ================================================================== *)
(** * More on the balanced-span extractor *)

(** ** The walk to the left *)

(** X7. The walk to the left in extract_first_object_with_id never moves
    to the right of where it starts, ends either at index 0 or on an opening
    brace, and passes over no opening brace on its way: it stops at the
    nearest one at or before the anchor. *)
Theorem walk_left_finds_nearest_brace (joined : text) (start : nat) :
  walk_left joined start <= start
  /\ (walk_left joined start = 0
      \/ nth (walk_left joined start) joined "000"%char = "{"%char)
  /\ (forall i, walk_left joined start < i <= start ->
                nth i joined "000"%char <> "{"%char).
Proof.
  induction start as [|k (IH1 & IH2 & IH3)].
  - simpl. repeat split; [lia | left; reflexivity | intros i Hi; lia].
  - cbn [walk_left].
    destruct (Ascii.eqb (nth (S k) joined "000"%char) "{") eqn:E.
    + apply Ascii.eqb_eq in E. repeat split; [lia | right; exact E | intros i Hi; lia].
    + apply Ascii.eqb_neq in E. repeat split; [lia | exact IH2 |].
      intros i Hi. destruct (Nat.eq_dec i (S k)) as [->|Hne]; [exact E|].
      apply IH3. lia.
Qed.

Lemma walk_left_stops (joined : text) (a : nat) :
  forall start,
    a <= start ->
    nth a joined "000"%char = "{"%char ->
    (forall i, a < i <= start -> nth i joined "000"%char <> "{"%char) ->
    walk_left joined start = a.
Proof.
  induction start as [|k IH]; intros Ha Hbrace Hnone.
  - simpl. lia.
  - cbn [walk_left].
    destruct (Nat.eq_dec a (S k)) as [->|Hne].
    + rewrite Hbrace. reflexivity.
    + assert (E : nth (S k) joined "000"%char <> "{"%char) by (apply Hnone; lia).
      apply Ascii.eqb_neq in E. rewrite E.
      apply IH; [lia | exact Hbrace | intros i Hi; apply Hnone; lia].
Qed.

Lemma nth_of_skipn (A : Type) (a : nat) (d x : A) :
  forall (l r : list A), skipn a l = x :: r -> nth a l d = x.
Proof.
  induction a as [|a IH]; intros l r H.
  - simpl in H. subst l. reflexivity.
  - destruct l as [|y l]; [discriminate|]. simpl in *. apply (IH _ _ H).
Qed.

(** X8. When the anchor of the id is found at [pos], the nearest opening
    brace at or before it sits at [a], and the text from [a] on is a
    well-formed object followed by anything, extract_first_object_with_id
    cuts out exactly that object: the innermost one that opens before the
    anchor, whatever follows it. *)
Theorem enclosing_object_is_found
        (body_text target_id : text) (inner : list item) (post : text) (a pos : nat) :
  str_find (strip_chunk_prefixes body_text) (id_anchor target_id) = Some pos ->
  a <= pos ->
  (forall i, a < i <= pos ->
             nth i (strip_chunk_prefixes body_text) "000"%char <> "{"%char) ->
  skipn a (strip_chunk_prefixes body_text)
  = render (Out "{" :: inner ++ [Out "}"]) ++ post ->
  well_formed inner = true ->
  balanced_inside "{" "}" inner = true ->
  object_span body_text target_id = Some (render (Out "{" :: inner ++ [Out "}"])).
Proof.
  intros Hfind Ha Hnone Htext Hwf Hbal.
  unfold object_span. rewrite Hfind.
  rewrite (@walk_left_stops _ a pos Ha); [| |exact Hnone].
  - unfold balanced_span. rewrite Htext.
    rewrite scan_bracket_pair by (assumption || discriminate).
    rewrite firstn_length_app. reflexivity.
  - apply (@nth_of_skipn _ a "000"%char "{"%char _ _ Htext).
Qed.

Lemma enclosing_object_is_found_witness :
  object_span (q "0:{'o':" ++ render (Out "{" :: record_inside ++ [Out "}"]) ++ q ",'p':{}}")
              (txt "abc123")
  = Some (render (Out "{" :: record_inside ++ [Out "}"])).
Proof.
  apply (@enclosing_object_is_found _ _ record_inside (q ",'p':{}}") 5 6);
    [ vm_compute; reflexivity
    | lia
    | intros i Hi; assert (E : i = 6) by lia; subst i; vm_compute; discriminate
    | vm_compute; reflexivity
    | reflexivity
    | reflexivity ].
Defined.

(** ** The span is the shortest closed prefix *)

Lemma scan_not_before (opn cls : ascii) (s : text) :
  forall (m : scan_mode) (d : Z) (n len : nat),
    scan_balanced opn cls s m d n = Some len ->
    forall k, k < len - n -> scan_balanced opn cls (firstn k s) m d n = None.
Proof.
  induction s as [|ch s IH]; intros m d n len H k Hk; [discriminate|].
  destruct k as [|k]; [reflexivity|].
  assert (step : forall m' d', scan_balanced opn cls s m' d' (S n) = Some len ->
                               scan_balanced opn cls (firstn k s) m' d' (S n) = None).
  { intros m' d' H'. apply (IH _ _ _ _ H'). lia. }
  cbn [firstn]. destruct m; cbn [scan_balanced] in H |- *.
  - destruct (Ascii.eqb ch opn); [apply step; exact H|].
    destruct (Ascii.eqb ch cls).
    + destruct (d - 1 =? 0)%Z; [injection H as H; lia | apply step; exact H].
    + destruct (Ascii.eqb ch dquote); apply step; exact H.
  - destruct (Ascii.eqb ch backslash); [apply step; exact H|].
    destruct (Ascii.eqb ch dquote); apply step; exact H.
  - apply step; exact H.
Qed.

(** The scan answers at a closing bracket. *)
Lemma scan_ends_at_closing (opn cls : ascii) (s : text) :
  forall (m : scan_mode) (d : Z) (n len : nat),
    scan_balanced opn cls s m d n = Some len ->
    exists pre rest, s = pre ++ cls :: rest /\ len = n + length pre + 1.
Proof.
  induction s as [|ch s IH]; intros m d n len H; [discriminate|].
  assert (step : forall m' d', scan_balanced opn cls s m' d' (S n) = Some len ->
            exists pre rest, ch :: s = pre ++ cls :: rest /\ len = n + length pre + 1).
  { intros m' d' H'. destruct (IH _ _ _ _ H') as (pre & rest & -> & ->).
    exists (ch :: pre), rest. split; [reflexivity | simpl; lia]. }
  destruct m; cbn [scan_balanced] in H.
  - destruct (Ascii.eqb ch opn); [apply (step _ _ H)|].
    destruct (Ascii.eqb ch cls) eqn:Ec.
    + destruct (d - 1 =? 0)%Z; [|apply (step _ _ H)].
      injection H as <-. apply Ascii.eqb_eq in Ec. subst ch.
      exists [], s. split; [reflexivity | simpl; lia].
    + destruct (Ascii.eqb ch dquote); apply (step _ _ H).
  - destruct (Ascii.eqb ch backslash); [apply (step _ _ H)|].
    destruct (Ascii.eqb ch dquote); apply (step _ _ H).
  - apply (step _ _ H).
Qed.

(** X9. Whatever the brace matcher of the two extractors returns is a
    prefix of the text from [start], ends in the closing bracket, closes
    when scanned on its own, and none of its proper prefixes closes: the
    span is the shortest closed prefix. *)
Theorem span_is_shortest_closed_prefix
        (opn cls : ascii) (joined : text) (start : nat) (span : text) :
  balanced_span opn cls joined start = Some span ->
  (exists rest, skipn start joined = span ++ rest)
  /\ (exists pre, span = pre ++ [cls])
  /\ scan_balanced opn cls span Code 0 0 = Some (length span)
  /\ (forall k, k < length span ->
                scan_balanced opn cls (firstn k span) Code 0 0 = None).
Proof.
  unfold balanced_span.
  destruct (scan_balanced opn cls (skipn start joined) Code 0 0) as [len|] eqn:E;
    [|discriminate].
  intros H. injection H as <-.
  destruct (scan_ends_at_closing _ _ _ _ _ _ E) as (pre & rest & Hs & Hlen).
  pose proof (scan_closed _ _ _ _ _ _ E) as [[L1 L2] Hclosed].
  assert (Hspan : firstn len (skipn start joined) = pre ++ [cls]).
  { rewrite Hs, Hlen. replace (0 + length pre + 1) with (length (pre ++ [cls]))
      by (rewrite length_app; simpl; lia).
    replace (pre ++ cls :: rest) with ((pre ++ [cls]) ++ rest)
      by (rewrite <- app_assoc; reflexivity).
    apply firstn_length_app. }
  assert (Hl : length (firstn len (skipn start joined)) = len)
    by (rewrite length_firstn; lia).
  split; [|split; [|split]].
  - exists rest. rewrite Hspan, Hs, <- app_assoc. reflexivity.
  - exists pre. exact Hspan.
  - rewrite Hl. rewrite Nat.sub_0_r in Hclosed. exact Hclosed.
  - intros k Hk. rewrite Hl in Hk.
    rewrite firstn_firstn. replace (Nat.min k len) with k by lia.
    apply (scan_not_before _ _ _ _ _ _ E). lia.
Qed.

Lemma span_is_shortest_closed_prefix_witness :
  (exists rest, skipn 3 (q "x: [[1,']'],[]] , [2]") = q "[[1,']'],[]]" ++ rest)
  /\ (exists pre, q "[[1,']'],[]]" = pre ++ ["]"%char])
  /\ scan_balanced "[" "]" (q "[[1,']'],[]]") Code 0 0 = Some (length (q "[[1,']'],[]]"))
  /\ (forall k, k < length (q "[[1,']'],[]]") ->
                scan_balanced "[" "]" (firstn k (q "[[1,']'],[]]")) Code 0 0 = None).
Proof.
  apply (@span_is_shortest_closed_prefix "[" "]" (q "x: [[1,']'],[]] , [2]") 3
           (q "[[1,']'],[]]")).
  vm_compute. reflexivity.
Defined.

(** X10. The text that extract_json_array_from_rsc hands to the token
    normalizer and the JSON parser always opens with a left square bracket
    and ends with a right square bracket. *)
Theorem array_span_is_bracketed (body_text key span : text) :
  array_span body_text key = Some span ->
  exists mid, span = "["%char :: mid ++ ["]"%char].
Proof.
  intros H. destruct (array_span_head _ _ H) as [t Ht].
  unfold array_span in H.
  destruct (search (key_anchor key) (strip_chunk_prefixes body_text)) as [[a e]|];
    [|discriminate].
  unfold balanced_span in H.
  destruct (scan_balanced "[" "]" (skipn (e - 1) (strip_chunk_prefixes body_text)) Code 0 0)
    as [len|] eqn:E; [|discriminate].
  injection H as H.
  destruct (scan_ends_at_closing _ _ _ _ _ _ E) as (pre & rest & Hs & Hlen).
  assert (Hspan : span = pre ++ ["]"%char]).
  { rewrite <- H, Hs, Hlen.
    replace (0 + length pre + 1) with (length (pre ++ ["]"%char]))
      by (rewrite length_app; simpl; lia).
    replace (pre ++ "]"%char :: rest) with ((pre ++ ["]"%char]) ++ rest)
      by (rewrite <- app_assoc; reflexivity).
    apply firstn_length_app. }
  rewrite Hspan in Ht. destruct pre as [|c pre]; [discriminate|].
  injection Ht as -> _. exists pre. exact Hspan.
Qed.

Lemma array_span_is_bracketed_witness :
  exists mid, q "[{'id':'$n1'},{'id':'$n2'}]" = "["%char :: mid ++ ["]"%char].
Proof.
  apply (@array_span_is_bracketed (q "0:{'datasets':[{'id':'$n1'},{'id':'$n2'}]}")
           (txt "datasets") (q "[{'id':'$n1'},{'id':'$n2'}]")).
  vm_compute. reflexivity.
Defined.

(* ================================================================== *)
(** * More on the crawl *)

Section CrawlOutcomes.

Variable fl : float_ops.
Variable BeautifulSoup : option (text -> list text).
Variable server : transport.

(** ** The first page *)

Lemma first_page_of_outcomes (payloads : list request) :
  forall st,
    let (res, st') := first_page_of server payloads st in
    all_rows st' = all_rows st /\ csv_out st' = csv_out st
    /\ match res with
       | Ok [] => calls st' = calls st + length payloads
       | Ok (_ :: _) => 1 <= calls st' - calls st <= length payloads
       | Raise e => e = RequestException
                    /\ 1 <= calls st' - calls st <= length payloads
       | Diverge => False
       end.
Proof.
  induction payloads as [|p rest IH]; intros st.
  - simpl. repeat split. lia.
  - cbn [first_page_of]. unfold bind, send. fold (after_call st).
    assert (next :
      let (res, st') := first_page_of server rest (after_call st) in
      all_rows st' = all_rows st /\ csv_out st' = csv_out st
      /\ match res with
         | Ok [] => calls st' = calls st + length (p :: rest)
         | Ok (_ :: _) => 1 <= calls st' - calls st <= length (p :: rest)
         | Raise e => e = RequestException
                      /\ 1 <= calls st' - calls st <= length (p :: rest)
         | Diverge => False
         end).
    { specialize (IH (after_call st)).
      destruct (first_page_of server rest (after_call st)) as [[[|row rows]|e|] st'];
        simpl in *; repeat split; try tauto; lia. }
    destruct (server (calls st) p) as [r|]; [|unfold after_call, ret; cbn [calls all_rows csv_out length]; repeat split; try reflexivity; cbn [calls]; lia].
    destruct (400 <=? status_code r)%Z; [exact next|].
    destruct (extract_json_array_from_rsc (body r) (txt "datasets"));
      [exact next | unfold after_call, ret; cbn [calls all_rows csv_out length]; repeat split; try reflexivity; cbn [calls]; lia].
Qed.

(** X11. [get_initial_via_post] makes one call or two and leaves [all_rows]
    and the output alone. It returns rows after the first or the second
    call, the empty list only after both, and it raises nothing but the
    failure of the session itself: a first-page answer with an error status
    is passed over, never raised. *)
Theorem first_page_request_outcomes (st : crawl_state) :
  let (res, st') := get_initial_via_post server st in
  all_rows st' = all_rows st /\ csv_out st' = csv_out st
  /\ match res with
     | Ok [] => calls st' = calls st + 2
     | Ok (_ :: _) => calls st' = calls st + 1 \/ calls st' = calls st + 2
     | Raise e => e = RequestException
                  /\ (calls st' = calls st + 1 \/ calls st' = calls st + 2)
     | Diverge => False
     end.
Proof.
  unfold get_initial_via_post.
  pose proof (first_page_of_outcomes [PostList None; PostList (Some (JStr []))] st) as H.
  destruct (first_page_of server [PostList None; PostList (Some (JStr []))] st)
    as [[[|row rows]|e|] st']; simpl in *; repeat split; try tauto; lia.
Qed.

(** The first page leaves [all_rows] and the output boundary alone. *)
Lemma first_page_from_start (rows : list json) (st1 : crawl_state) :
  get_initial_via_post server start_state = (Ok rows, st1) ->
  st1 = {| calls := calls st1; all_rows := []; csv_out := None |}.
Proof.
  intros H. pose proof (first_page_of_outcomes
                          [PostList None; PostList (Some (JStr []))] start_state) as Ho.
  unfold get_initial_via_post in H. rewrite H in Ho.
  destruct Ho as (Hr & Hc & _). destruct st1 as [n rs out]. simpl in *.
  subst. reflexivity.
Qed.

Lemma load_more_falsy (fuel : nat) (c : json) (st : crawl_state) :
  truthy fl c = false -> load_more_loop fl server fuel c st = (Ok tt, st).
Proof. intros H. destruct fuel; simpl; rewrite H; reflexivity. Qed.

(** [k] advancing pages use up [k] turns of the loop. *)
Lemma loop_after_advancing_pages (k : nat) :
  forall st c st' c' fuel,
    advancing_pages fl server k st c = Some (st', c') ->
    load_more_loop fl server (k + fuel) c st = load_more_loop fl server fuel c' st'.
Proof.
  induction k as [|k IH]; intros st c st' c' fuel H.
  - simpl in H. injection H as <- <-. reflexivity.
  - cbn [advancing_pages] in H. cbn [Nat.add load_more_loop].
    destruct (truthy fl c); [|discriminate].
    unfold bind at 1.
    destruct (post_load_more server c st) as [[[rows next_last]|e|] st1];
      try discriminate.
    destruct rows as [|row rows]; [discriminate|].
    destruct (py_eq fl next_last c); [discriminate|].
    unfold bind, extend. apply IH. exact H.
Qed.

Lemma advancing_pages_keep_csv (k : nat) :
  forall st c st' c',
    advancing_pages fl server k st c = Some (st', c') -> csv_out st' = csv_out st.
Proof.
  induction k as [|k IH]; intros st c st' c' H; simpl in H.
  - injection H as <- _. reflexivity.
  - destruct (truthy fl c); [|discriminate].
    pose proof (post_load_more_state server c st) as Hs.
    destruct (post_load_more server c st) as [[[rows next_last]|e|] st1];
      try discriminate.
    simpl in Hs. subst st1.
    destruct rows as [|row rows]; [discriminate|].
    destruct (py_eq fl next_last c); [discriminate|].
    apply IH in H. exact H.
Qed.

Lemma main_from_cursor (fuel : nat) (c : json) (st1 : crawl_state) :
  first_cursor fl BeautifulSoup server start_state = (Ok c, st1) ->
  main fl BeautifulSoup server fuel start_state
  = bind (load_more_loop fl server fuel c) (fun _ => write_csv) st1.
Proof. intros H. unfold main. unfold bind at 1. rewrite H. reflexivity. Qed.

Lemma first_cursor_csv (c : json) (st1 : crawl_state) :
  first_cursor fl BeautifulSoup server start_state = (Ok c, st1) ->
  csv_out st1 = None.
Proof.
  intros H. pose proof (keeps_csv_first_cursor fl BeautifulSoup server start_state) as K.
  rewrite H in K. exact K.
Qed.

(** ** A record without an id *)

(** X12. When the last record of the first page has no [id] member,
    [init_rows[-1]['id']] raises KeyError: the guard does not catch it, the
    rows of the page were collected and nothing is written. *)
Theorem first_page_without_id_is_key_error
        (fuel : nat) (rows : list json) (st1 : crawl_state) (d : list (ustring * json)) :
  get_initial_via_post server start_state = (Ok rows, st1) ->
  last_row rows = Some (JObj d) ->
  dict_get (u (txt "id")) d = None ->
  script fl BeautifulSoup server fuel
  = (Uncaught KeyError, {| calls := calls st1; all_rows := rows; csv_out := None |}).
Proof.
  intros Hfirst Hlast Hid.
  pose proof (@first_page_from_start _ _ Hfirst) as Hst.
  unfold script, main, first_cursor.
  unfold bind at 1. unfold bind at 1. rewrite Hfirst, Hlast.
  unfold bind, extend, getitem_id. rewrite Hid.
  rewrite Hst. reflexivity.
Qed.

(** ** The end of the paging *)

Lemma flatten_rows_dicts (rows : list json) :
  flatten_rows rows = None <-> forallb is_dict rows = false.
Proof.
  induction rows as [|r rows IH]; simpl; [split; discriminate|].
  destruct r; simpl; try (split; reflexivity).
  destruct (flatten_rows rows) as [flat|].
  - split; [discriminate|]. intros H. apply IH in H. discriminate.
  - split; [intros _; apply IH; reflexivity | reflexivity].
Qed.

(** [write_csv] raises exactly when a row is no dict, and then before
    anything is written. *)
Lemma write_csv_outcome (st : crawl_state) :
  write_csv st
  = if forallb is_dict (all_rows st)
    then (Ok tt, {| calls := calls st; all_rows := all_rows st;
                    csv_out := Some (all_rows st) |})
    else (Raise AttributeError, st).
Proof.
  unfold write_csv. pose proof (flatten_rows_dicts (all_rows st)) as H.
  destruct (flatten_rows (all_rows st)) as [flat|].
  - destruct (forallb is_dict (all_rows st)); [reflexivity|].
    destruct H as [_ H]. discriminate (H eq_refl).
  - destruct H as [H _]. rewrite (H eq_refl). reflexivity.
Qed.

Lemma paging_state (k : nat) (c c' : json) (st1 st' : crawl_state) :
  first_cursor fl BeautifulSoup server start_state = (Ok c, st1) ->
  advancing_pages fl server k st1 c = Some (st', c') ->
  st' = {| calls := calls st'; all_rows := all_rows st'; csv_out := None |}.
Proof.
  intros Hfirst Hadv.
  pose proof (@advancing_pages_keep_csv k _ _ _ _ Hadv) as Hcsv.
  rewrite (@first_cursor_csv _ _ Hfirst) in Hcsv.
  destruct st' as [n rows out]. simpl in *. subst out. reflexivity.
Qed.




(** X15. When a load-more answer has a status from 400 to 599, after the
    first cursor and [k] advancing pages, the script ends with exit status 1
    right after that call and [write_csv] is never called: the rows
    collected up to then are not written. *)
Theorem error_status_in_paging_loses_the_rows
        (k fuel : nat) (c c' : json) (st1 st' : crawl_state) (r : response) :
  first_cursor fl BeautifulSoup server start_state = (Ok c, st1) ->
  advancing_pages fl server k st1 c = Some (st', c') ->
  truthy fl c' = true ->
  server (calls st') (PostList (Some c')) = Answers r ->
  ((400 <=? status_code r) && (status_code r <? 600))%Z = true ->
  k < fuel ->
  script fl BeautifulSoup server fuel
  = (ExitOne, {| calls := S (calls st'); all_rows := all_rows st'; csv_out := None |}).
Proof.
  intros Hfirst Hadv Htruthy Hr Hstatus Hfuel.
  pose proof (@advancing_pages_keep_csv k _ _ _ _ Hadv) as Hcsv.
  rewrite (@first_cursor_csv _ _ Hfirst) in Hcsv.
  unfold script. rewrite (@main_from_cursor fuel _ _ Hfirst).
  replace fuel with (k + S (fuel - k - 1)) by lia.
  unfold bind at 1. rewrite (@loop_after_advancing_pages k _ _ _ _ _ Hadv).
  cbn [load_more_loop]. rewrite Htruthy.
  unfold bind at 1. unfold post_load_more. unfold bind at 1. unfold send.
  rewrite Hr. unfold bind at 1. unfold raise_for_status. rewrite Hstatus.
  unfold raise. rewrite Hcsv. reflexivity.
Qed.

(** ** The fallback without a listing *)

Lemma no_first_page (st : crawl_state) (r1 r2 : response) :
  server (calls st) (PostList None) = Answers r1 ->
  yields_no_rows r1 = true ->
  server (S (calls st)) (PostList (Some (JStr []))) = Answers r2 ->
  yields_no_rows r2 = true ->
  get_initial_via_post server st = (Ok [], after_call (after_call st)).
Proof.
  intros H1 Y1 H2 Y2. unfold get_initial_via_post.
  rewrite (@first_page_try server _ _ st r1 H1 Y1).
  rewrite (@first_page_try server _ _ (after_call st) r2 H2 Y2).
  reflexivity.
Qed.

(** X16. Without bs4 and with two first-page answers that yield no rows,
    the script makes those two calls and no other, and [main] calls
    [write_csv] with no rows at all. *)
Theorem no_parser_and_no_first_page_writes_no_rows
        (fuel : nat) (r1 r2 : response) :
  server 0 (PostList None) = Answers r1 ->
  yields_no_rows r1 = true ->
  server 1 (PostList (Some (JStr []))) = Answers r2 ->
  yields_no_rows r2 = true ->
  script fl None server fuel
  = (Completed, {| calls := 2; all_rows := []; csv_out := Some [] |}).
Proof.
  intros H1 Y1 H2 Y2.
  unfold script, main, first_cursor.
  unfold bind at 1. unfold bind at 1.
  rewrite (@no_first_page start_state r1 r2 H1 Y1 H2 Y2).
  cbn [last_row rev]. unfold fallback_seed, get_initial_ids_from_html.
  unfold bind at 1. unfold bind at 1. unfold ret at 1.
  cbn [fetch_details]. unfold bind at 1. unfold ret at 1.
  cbn [rev]. unfold ret at 1. unfold bind.
  rewrite (@load_more_falsy fuel JNull _ (eq_refl : truthy fl JNull = false)).
  reflexivity.
Qed.

(** X17. With bs4 present and two first-page answers that yield no rows,
    a listing page answered with a status from 400 to 599 ends the script
    with exit status 1 after three calls; nothing is collected and nothing
    is written. *)
Theorem refused_listing_page_exits
        (fuel : nat) (find_all_a_href : text -> list text) (r1 r2 r : response) :
  server 0 (PostList None) = Answers r1 ->
  yields_no_rows r1 = true ->
  server 1 (PostList (Some (JStr []))) = Answers r2 ->
  yields_no_rows r2 = true ->
  server 2 GetList = Answers r ->
  ((400 <=? status_code r) && (status_code r <? 600))%Z = true ->
  script fl (Some find_all_a_href) server fuel
  = (ExitOne, {| calls := 3; all_rows := []; csv_out := None |}).
Proof.
  intros H1 Y1 H2 Y2 H3 Hstatus.
  unfold script, main, first_cursor.
  unfold bind at 1. unfold bind at 1.
  rewrite (@no_first_page start_state r1 r2 H1 Y1 H2 Y2).
  cbn [last_row rev]. unfold fallback_seed, get_initial_ids_from_html.
  unfold bind at 1. unfold bind at 1. unfold bind at 1. unfold send.
  cbn [calls after_call start_state]. rewrite H3.
  unfold bind at 1. unfold raise_for_status. rewrite Hstatus. reflexivity.
Qed.

(** ** Which failures can end the script *)

Lemma never_raises_bind (A B : Type) (e : exn) (m : M A) (k : A -> M B) :
  never_raises e m -> (forall a, never_raises e (k a)) -> never_raises e (bind m k).
Proof.
  intros Hm Hk st. unfold bind. specialize (Hm st).
  destruct (m st) as [[a|e'|] st']; simpl in *; [apply Hk | congruence | discriminate].
Qed.

Lemma never_raises_ret (A : Type) (e : exn) (a : A) : never_raises e (ret a).
Proof. intros st. discriminate. Qed.

Lemma never_raises_other (A : Type) (e e' : exn) :
  e <> e' -> never_raises e (@raise A e').
Proof. intros H st. simpl. congruence. Qed.

Lemma never_raises_extend (e : exn) (rows : list json) : never_raises e (extend rows).
Proof. intros st. discriminate. Qed.

Lemma never_raises_write_csv (e : exn) :
  e <> AttributeError -> never_raises e write_csv.
Proof.
  intros He st. rewrite write_csv_outcome.
  destruct (forallb is_dict (all_rows st)); simpl; congruence.
Qed.

(** The session raises nothing but its own exception, and an answer it
    returns is an answer of the server. *)
Lemma never_raises_after_send (B : Type) (e : exn) (rq : request) (k : response -> M B) :
  e <> RequestException ->
  (forall n r, server n rq = Answers r -> never_raises e (k r)) ->
  never_raises e (bind (send server rq) k).
Proof.
  intros He Hk st. unfold bind, send.
  destruct (server (calls st) rq) as [r|] eqn:E.
  - apply (Hk _ _ E).
  - simpl. congruence.
Qed.

Lemma never_raises_getitem_id (e : exn) (row : json) :
  e <> KeyError -> e <> TypeError -> never_raises e (getitem_id row).
Proof.
  intros H1 H2. destruct row; simpl; try (apply never_raises_other; exact H2).
  destruct (dict_get _ _); [apply never_raises_ret | apply never_raises_other; exact H1].
Qed.

Lemma never_raises_first_page_of (e : exn) (payloads : list request) :
  e <> RequestException -> never_raises e (first_page_of server payloads).
Proof.
  intros He. induction payloads as [|p rest IH]; cbn [first_page_of].
  - apply never_raises_ret.
  - apply never_raises_after_send; [exact He|]. intros n r _.
    destruct (400 <=? status_code r)%Z; [exact IH|].
    destruct (extract_json_array_from_rsc _ _); [exact IH | apply never_raises_ret].
Qed.

Lemma never_raises_detail (e : exn) (ds_id : text) :
  e <> RequestException -> never_raises e (get_detail_for_id server ds_id).
Proof.
  intros He. unfold get_detail_for_id.
  apply never_raises_after_send; [exact He|]. intros n r _.
  destruct (400 <=? status_code r)%Z; apply never_raises_ret.
Qed.

Lemma never_raises_fetch_details (e : exn) (ids : list text) :
  e <> RequestException -> never_raises e (fetch_details fl server ids).
Proof.
  intros He. induction ids as [|i ids IH]; cbn [fetch_details].
  - apply never_raises_ret.
  - apply never_raises_bind; [apply never_raises_detail; exact He|].
    intros obj. apply never_raises_bind; [apply never_raises_extend|].
    intros _. exact IH.
Qed.

Section NoErrorStatus.

Hypothesis good_statuses : no_error_status server.

Lemma no_http_error_status (n : nat) (rq : request) (r : response) :
  server n rq = Answers r -> never_raises HTTPError (raise_for_status r).
Proof.
  intros H. unfold raise_for_status.
  pose proof good_statuses as G. unfold no_error_status in G. rewrite (G n rq r H).
  apply never_raises_ret.
Qed.

Lemma no_http_error_ids : never_raises HTTPError (get_initial_ids_from_html BeautifulSoup server).
Proof.
  unfold get_initial_ids_from_html. destruct BeautifulSoup as [find|];
    [|apply never_raises_ret].
  apply never_raises_after_send; [discriminate|]. intros n r Hr.
  apply never_raises_bind; [apply (@no_http_error_status n _ r Hr)|].
  intros _. apply never_raises_ret.
Qed.

Lemma no_http_error_post_load_more (c : json) :
  never_raises HTTPError (post_load_more server c).
Proof.
  unfold post_load_more.
  apply never_raises_after_send; [discriminate|]. intros n r Hr.
  apply never_raises_bind; [apply (@no_http_error_status n _ r Hr)|].
  intros _. apply never_raises_bind; [|intros v; apply never_raises_ret].
  destruct (last_row _); [apply never_raises_getitem_id; discriminate
                         | apply never_raises_ret].
Qed.

Lemma no_http_error_loop (fuel : nat) :
  forall c, never_raises HTTPError (load_more_loop fl server fuel c).
Proof.
  induction fuel as [|fuel IH]; intros c; cbn [load_more_loop].
  - destruct (truthy fl c); [intros st; discriminate | apply never_raises_ret].
  - destruct (truthy fl c); [|apply never_raises_ret].
    apply never_raises_bind; [apply no_http_error_post_load_more|].
    intros [rows next_last]. destruct rows as [|row rows]; [apply never_raises_ret|].
    destruct (py_eq fl next_last c); [apply never_raises_ret|].
    apply never_raises_bind; [apply never_raises_extend | intros _; apply IH].
Qed.

Lemma no_http_error_main (fuel : nat) :
  never_raises HTTPError (main fl BeautifulSoup server fuel).
Proof.
  unfold main. apply never_raises_bind.
  - unfold first_cursor, get_initial_via_post.
    apply never_raises_bind; [apply never_raises_first_page_of; discriminate|].
    intros rows. destruct (last_row rows).
    + apply never_raises_bind; [apply never_raises_extend|].
      intros _. apply never_raises_getitem_id; discriminate.
    + unfold fallback_seed. apply never_raises_bind; [apply no_http_error_ids|].
      intros ids. apply never_raises_bind;
        [apply never_raises_fetch_details; discriminate|].
      intros _. apply never_raises_ret.
  - intros c. apply never_raises_bind; [apply no_http_error_loop|].
    intros _. apply never_raises_write_csv. discriminate.
Qed.

End NoErrorStatus.

(** X18. The handler of the [__main__] guard runs only through
    [raise_for_status]: when no answer of the server has a status from 400
    to 599, [main] never raises HTTPError, so the guard never prints its
    message and never calls [sys.exit(1)]. The script can still end on
    another exception, which the guard lets through. *)
Theorem http_error_handler_needs_an_error_status (fuel : nat) :
  no_error_status server ->
  fst (main fl BeautifulSoup server fuel start_state) <> Raise HTTPError
  /\ fst (script fl BeautifulSoup server fuel) <> ExitOne.
Proof.
  intros Hgood. pose proof (no_http_error_main Hgood fuel start_state) as H.
  split; [exact H|]. unfold script.
  destruct (main fl BeautifulSoup server fuel start_state) as [[a|e|] st]; simpl in *;
    try discriminate.
  destruct e; try discriminate. congruence.
Qed.

Section AlwaysAnswers.

Hypothesis answers : always_answers server.

Lemma send_answers (rq : request) : never_raises RequestException (send server rq).
Proof.
  intros st. unfold send. pose proof answers as H. unfold always_answers in H.
  specialize (H (calls st) rq).
  destruct (server (calls st) rq); [discriminate | congruence].
Qed.

Lemma status_is_no_transport_failure (r : response) :
  never_raises RequestException (raise_for_status r).
Proof.
  unfold raise_for_status. destruct (_ && _)%bool;
    [apply never_raises_other; discriminate | apply never_raises_ret].
Qed.

Lemma no_failure_first_page_of (payloads : list request) :
  never_raises RequestException (first_page_of server payloads).
Proof.
  induction payloads as [|p rest IH]; cbn [first_page_of].
  - apply never_raises_ret.
  - apply never_raises_bind; [apply send_answers|]. intros r.
    destruct (400 <=? status_code r)%Z; [exact IH|].
    destruct (extract_json_array_from_rsc _ _); [exact IH | apply never_raises_ret].
Qed.

Lemma no_failure_fetch_details (ids : list text) :
  never_raises RequestException (fetch_details fl server ids).
Proof.
  induction ids as [|i ids IH]; cbn [fetch_details].
  - apply never_raises_ret.
  - apply never_raises_bind.
    + unfold get_detail_for_id. apply never_raises_bind; [apply send_answers|].
      intros r. destruct (400 <=? status_code r)%Z; apply never_raises_ret.
    + intros obj. apply never_raises_bind; [apply never_raises_extend|].
      intros _. exact IH.
Qed.

Lemma no_failure_post_load_more (c : json) :
  never_raises RequestException (post_load_more server c).
Proof.
  unfold post_load_more. apply never_raises_bind; [apply send_answers|].
  intros r. apply never_raises_bind; [apply status_is_no_transport_failure|].
  intros _. apply never_raises_bind; [|intros v; apply never_raises_ret].
  destruct (last_row _); [apply never_raises_getitem_id; discriminate
                         | apply never_raises_ret].
Qed.

Lemma no_failure_loop (fuel : nat) :
  forall c, never_raises RequestException (load_more_loop fl server fuel c).
Proof.
  induction fuel as [|fuel IH]; intros c; cbn [load_more_loop].
  - destruct (truthy fl c); [intros st; discriminate | apply never_raises_ret].
  - destruct (truthy fl c); [|apply never_raises_ret].
    apply never_raises_bind; [apply no_failure_post_load_more|].
    intros [rows next_last]. destruct rows as [|row rows]; [apply never_raises_ret|].
    destruct (py_eq fl next_last c); [apply never_raises_ret|].
    apply never_raises_bind; [apply never_raises_extend | intros _; apply IH].
Qed.

Lemma no_failure_main (fuel : nat) :
  never_raises RequestException (main fl BeautifulSoup server fuel).
Proof.
  unfold main. apply never_raises_bind.
  - unfold first_cursor, get_initial_via_post.
    apply never_raises_bind; [apply no_failure_first_page_of|].
    intros rows. destruct (last_row rows).
    + apply never_raises_bind; [apply never_raises_extend|].
      intros _. apply never_raises_getitem_id; discriminate.
    + unfold fallback_seed, get_initial_ids_from_html. apply never_raises_bind.
      * destruct BeautifulSoup as [find|]; [|apply never_raises_ret].
        apply never_raises_bind; [apply send_answers|]. intros r.
        apply never_raises_bind; [apply status_is_no_transport_failure|].
        intros _. apply never_raises_ret.
      * intros ids. apply never_raises_bind; [apply no_failure_fetch_details|].
        intros _. apply never_raises_ret.
  - intros c. apply never_raises_bind; [apply no_failure_loop|].
    intros _. apply never_raises_write_csv. discriminate.
Qed.

End AlwaysAnswers.

(** X19. When the server answers every call, whatever the statuses, the
    script never ends on the exception of the session. *)
Theorem answered_calls_never_leak_a_transport_error (fuel : nat) :
  always_answers server ->
  fst (script fl BeautifulSoup server fuel) <> Uncaught RequestException.
Proof.
  intros Hans. pose proof (no_failure_main Hans fuel start_state) as H.
  unfold script.
  destruct (main fl BeautifulSoup server fuel start_state) as [[a|e|] st]; simpl in *;
    try discriminate.
  destruct e; try discriminate. congruence.
Qed.

(** ** The rows are only added to *)

Lemma only_appends_bind (A B : Type) (m : M A) (k : A -> M B) :
  only_appends m -> (forall a, only_appends (k a)) -> only_appends (bind m k).
Proof.
  intros Hm Hk st. unfold bind. specialize (Hm st).
  destruct (m st) as [[a|e|] st1]; simpl in *; [|exact Hm|exact Hm].
  destruct Hm as ([more1 E1] & L1). destruct (Hk a st1) as ([more2 E2] & L2).
  split; [|lia]. exists (more1 ++ more2). rewrite E2, E1, app_assoc. reflexivity.
Qed.

Lemma only_appends_ret (A : Type) (a : A) : only_appends (ret a).
Proof. intros st. split; [exists []; rewrite app_nil_r; reflexivity | simpl; lia]. Qed.

Lemma only_appends_raise (A : Type) (e : exn) : only_appends (@raise A e).
Proof. intros st. split; [exists []; rewrite app_nil_r; reflexivity | simpl; lia]. Qed.

Lemma only_appends_send (rq : request) : only_appends (send server rq).
Proof.
  intros st. unfold send.
  destruct (server (calls st) rq); simpl;
    (split; [exists []; rewrite app_nil_r; reflexivity | lia]).
Qed.

Lemma only_appends_extend (rows : list json) : only_appends (extend rows).
Proof. intros st. split; [exists rows; reflexivity | simpl; lia]. Qed.

Lemma only_appends_getitem_id (row : json) : only_appends (getitem_id row).
Proof.
  destruct row; simpl; try apply only_appends_raise.
  destruct (dict_get _ _); [apply only_appends_ret | apply only_appends_raise].
Qed.

Lemma only_appends_first_cursor : only_appends (first_cursor fl BeautifulSoup server).
Proof.
  unfold first_cursor, get_initial_via_post. apply only_appends_bind.
  - generalize [PostList None; PostList (Some (JStr []))].
    intros payloads. induction payloads as [|p rest IH]; cbn [first_page_of].
    + apply only_appends_ret.
    + apply only_appends_bind; [apply only_appends_send|]. intros r.
      destruct (400 <=? status_code r)%Z; [exact IH|].
      destruct (extract_json_array_from_rsc _ _); [exact IH | apply only_appends_ret].
  - intros rows. destruct (last_row rows).
    + apply only_appends_bind; [apply only_appends_extend|].
      intros _. apply only_appends_getitem_id.
    + unfold fallback_seed, get_initial_ids_from_html. apply only_appends_bind.
      * destruct BeautifulSoup as [find|]; [|apply only_appends_ret].
        apply only_appends_bind; [apply only_appends_send|]. intros r.
        apply only_appends_bind; [|intros _; apply only_appends_ret].
        unfold raise_for_status. destruct (_ && _)%bool;
          [apply only_appends_raise | apply only_appends_ret].
      * intros ids. apply only_appends_bind; [|intros _; apply only_appends_ret].
        induction ids as [|i ids IH]; cbn [fetch_details]; [apply only_appends_ret|].
        apply only_appends_bind.
        -- unfold get_detail_for_id. apply only_appends_bind; [apply only_appends_send|].
           intros r. destruct (400 <=? status_code r)%Z; apply only_appends_ret.
        -- intros obj. apply only_appends_bind; [apply only_appends_extend|].
           intros _. exact IH.
Qed.

Lemma only_appends_loop (fuel : nat) :
  forall c, only_appends (load_more_loop fl server fuel c).
Proof.
  induction fuel as [|fuel IH]; intros c; cbn [load_more_loop].
  - destruct (truthy fl c); [|apply only_appends_ret].
    intros st. split; [exists []; rewrite app_nil_r; reflexivity | simpl; lia].
  - destruct (truthy fl c); [|apply only_appends_ret].
    apply only_appends_bind.
    + unfold post_load_more. apply only_appends_bind; [apply only_appends_send|].
      intros r. apply only_appends_bind.
      * unfold raise_for_status. destruct (_ && _)%bool;
          [apply only_appends_raise | apply only_appends_ret].
      * intros _. apply only_appends_bind; [|intros v; apply only_appends_ret].
        destruct (last_row _); [apply only_appends_getitem_id | apply only_appends_ret].
    + intros [rows next_last]. destruct rows as [|row rows]; [apply only_appends_ret|].
      destruct (py_eq fl next_last c); [apply only_appends_ret|].
      apply only_appends_bind; [apply only_appends_extend | intros _; apply IH].
Qed.

(** X20. From any state, [main] only adds rows at the end of [all_rows]
    and never lowers the call count, however it ends: no row once collected
    is dropped or moved. *)
Theorem collected_rows_are_never_dropped (fuel : nat) (st : crawl_state) :
  (exists more, all_rows (snd (main fl BeautifulSoup server fuel st)) = all_rows st ++ more)
  /\ calls st <= calls (snd (main fl BeautifulSoup server fuel st)).
Proof.
  revert st. change (only_appends (main fl BeautifulSoup server fuel)).
  unfold main. apply only_appends_bind; [apply only_appends_first_cursor|].
  intros c. apply only_appends_bind; [apply only_appends_loop|].
  intros _ st. rewrite write_csv_outcome.
  destruct (forallb is_dict (all_rows st)); simpl;
    (split; [exists []; rewrite app_nil_r; reflexivity | lia]).
Qed.

End CrawlOutcomes.

(** The nameless record ends the first page: the crawl ends there. *)
Lemma first_page_without_id_is_key_error_witness :
  script lexeme_floats None server_with_nameless_record 3
  = (Uncaught KeyError,
     {| calls := 1;
        all_rows := [JObj [(u (txt "id"), JStr (u (txt "a")))];
                     JObj [(u (txt "name"), JStr (u (txt "b")))]];
        csv_out := None |}).
Proof.
  apply (@first_page_without_id_is_key_error lexeme_floats None
           server_with_nameless_record 3
           [JObj [(u (txt "id"), JStr (u (txt "a")))];
            JObj [(u (txt "name"), JStr (u (txt "b")))]]
           {| calls := 1; all_rows := []; csv_out := None |}
           [(u (txt "name"), JStr (u (txt "b")))]);
    vm_compute; reflexivity.
Defined.



Lemma error_status_in_paging_loses_the_rows_witness :
  script lexeme_floats None server_failing_on_page_two 1
  = (ExitOne,
     {| calls := 2; all_rows := [JObj [(u (txt "id"), JStr (u (txt "a")))]];
        csv_out := None |}).
Proof.
  apply (@error_status_in_paging_loses_the_rows lexeme_floats None
           server_failing_on_page_two 0 1
           (JStr (u (txt "a"))) (JStr (u (txt "a")))
           {| calls := 1; all_rows := [JObj [(u (txt "id"), JStr (u (txt "a")))]];
              csv_out := None |}
           {| calls := 1; all_rows := [JObj [(u (txt "id"), JStr (u (txt "a")))]];
              csv_out := None |}
           {| status_code := 500; body := [] |});
    [vm_compute; reflexivity | reflexivity | reflexivity | reflexivity | reflexivity | lia].
Defined.

Lemma no_parser_and_no_first_page_writes_no_rows_witness :
  script lexeme_floats None server_without_first_page 0
  = (Completed, {| calls := 2; all_rows := []; csv_out := Some [] |}).
Proof.
  apply (@no_parser_and_no_first_page_writes_no_rows lexeme_floats
           server_without_first_page 0
           {| status_code := 200; body := q "0:{'datasets':[]}" |}
           {| status_code := 200; body := q "1:{'error':'x'}" |});
    [reflexivity | vm_compute; reflexivity | reflexivity | vm_compute; reflexivity].
Defined.

Lemma refused_listing_page_exits_witness :
  script lexeme_floats (Some (fun _ => three_links)) server_refusing_listing 0
  = (ExitOne, {| calls := 3; all_rows := []; csv_out := None |}).
Proof.
  apply (@refused_listing_page_exits lexeme_floats server_refusing_listing 0
           (fun _ => three_links)
           {| status_code := 200; body := q "0:{'datasets':[]}" |}
           {| status_code := 200; body := q "0:{'datasets':[]}" |}
           {| status_code := 503; body := [] |});
    [reflexivity | vm_compute; reflexivity | reflexivity | vm_compute; reflexivity
    | reflexivity | reflexivity].
Defined.

Lemma http_error_handler_needs_an_error_status_witness :
  fst (main lexeme_floats None server_that_stalls 5 start_state) <> Raise HTTPError
  /\ fst (script lexeme_floats None server_that_stalls 5) <> ExitOne.
Proof.
  apply (@http_error_handler_needs_an_error_status lexeme_floats None
           server_that_stalls 5).
  intros n rq r H. unfold server_that_stalls, ok_reply in H.
  destruct n as [|[|n]]; injection H as <-; reflexivity.
Defined.

Lemma answered_calls_never_leak_a_transport_error_witness :
  fst (script lexeme_floats (Some (fun _ => three_links)) server_without_first_page 5)
  <> Uncaught RequestException.
Proof.
  apply (@answered_calls_never_leak_a_transport_error lexeme_floats
           (Some (fun _ => three_links)) server_without_first_page 5).
  intros n rq. unfold server_without_first_page, ok_reply, status_reply.
  destruct rq as [c| |i].
  - destruct n; discriminate.
  - discriminate.
  - destruct (text_eqb i (txt "a1")); discriminate.
Defined.

(* ================================================================== *)
(** * The CSV helpers *)

Lemma ustring_eqb_eq (a b : ustring) : ustring_eqb a b = true <-> a = b.
Proof.
  revert b. induction a as [|x a IH]; intros [|y b]; simpl; split; intros H;
    try discriminate; try reflexivity.
  - apply andb_prop in H. destruct H as [E H]. apply N.eqb_eq in E.
    apply IH in H. congruence.
  - injection H as -> ->. rewrite N.eqb_refl. apply IH. reflexivity.
Qed.

Lemma ustring_eqb_neq (a b : ustring) : ustring_eqb a b = false <-> a <> b.
Proof.
  split.
  - intros H E. apply ustring_eqb_eq in E. congruence.
  - intros H. destruct (ustring_eqb a b) eqn:E; [|reflexivity].
    apply ustring_eqb_eq in E. contradiction.
Qed.

Lemma ustring_mem_in (k : ustring) (l : list ustring) :
  ustring_mem k l = true <-> In k l.
Proof.
  unfold ustring_mem. rewrite existsb_exists. split.
  - intros (y & Hy & E). apply ustring_eqb_eq in E. subst y. exact Hy.
  - intros H. exists k. split; [exact H | apply ustring_eqb_eq; reflexivity].
Qed.

Lemma ustring_mem_same (k : ustring) (l l' : list ustring) :
  (forall y, In y l <-> In y l') -> ustring_mem k l = ustring_mem k l'.
Proof.
  intros H. destruct (ustring_mem k l') eqn:E.
  - apply ustring_mem_in. apply H. apply ustring_mem_in. exact E.
  - destruct (ustring_mem k l) eqn:E'; [|reflexivity].
    apply ustring_mem_in in E'. apply H in E'. apply ustring_mem_in in E'. congruence.
Qed.

(** ** Dicts *)

Lemma dict_set_in (k : ustring) (v : json) (d : list (ustring * json))
      (e : ustring * json) :
  In e (dict_set k v d) -> e = (k, v) \/ In e d.
Proof.
  induction d as [|[k' v'] d IH]; simpl.
  - intros [H|[]]. left. symmetry. exact H.
  - destruct (ustring_eqb k k') eqn:E; simpl.
    + apply ustring_eqb_eq in E. subst k'. intros [H|H]; [left; symmetry; exact H|].
      right. right. exact H.
    + intros [H|H]; [right; left; exact H|].
      destruct (IH H) as [H'|H']; [left; exact H' | right; right; exact H'].
Qed.

Lemma dict_update_in (sub : list (ustring * json)) :
  forall (out : list (ustring * json)) (e : ustring * json),
    In e (dict_update out sub) -> In e out \/ In e sub.
Proof.
  unfold dict_update. induction sub as [|[k v] sub IH]; intros out e H; simpl in H.
  - left. exact H.
  - destruct (IH _ _ H) as [H'|H'].
    + apply dict_set_in in H'. destruct H' as [->|H']; [right; left; reflexivity|].
      left. exact H'.
    + right. right. exact H'.
Qed.

Lemma dict_set_fresh (k : ustring) (v : json) (d : list (ustring * json)) :
  ~ In k (map fst d) -> dict_set k v d = d ++ [(k, v)].
Proof.
  induction d as [|[k' v'] d IH]; simpl; intros H; [reflexivity|].
  assert (E : ustring_eqb k k' = false).
  { apply ustring_eqb_neq. intros ->. apply H. left. reflexivity. }
  rewrite E, IH; [reflexivity|]. intros Hin. apply H. right. exact Hin.
Qed.

(** ** The flattener *)

Lemma json_obj_ind (P : json -> Prop) :
  (forall v, is_dict v = false -> P v) ->
  (forall d, Forall (fun kv => P (snd kv)) d -> P (JObj d)) ->
  forall v, P v.
Proof.
  intros Hleaf Hobj. fix IH 1. intros v.
  destruct v as [| | | | | |d]; try (apply Hleaf; reflexivity).
  apply Hobj. induction d as [|[k x] d IHd]; constructor; [apply IH | exact IHd].
Qed.

Lemma flatten_value_obj (parent : ustring) (d : list (ustring * json)) :
  flatten_value parent (JObj d) = flatten_members parent d [].
Proof.
  cbn [flatten_value]. generalize (@nil (ustring * json)).
  induction d as [|[k x] d IH]; intros out; [reflexivity|].
  cbn [flatten_members]. rewrite <- IH. reflexivity.
Qed.

Lemma flatten_members_app (parent : ustring) (d1 d2 : list (ustring * json)) :
  forall out,
    flatten_members parent (d1 ++ d2) out
    = flatten_members parent d2 (flatten_members parent d1 out).
Proof.
  induction d1 as [|[k x] d1 IH]; intros out; [reflexivity|].
  cbn [app flatten_members]. apply IH.
Qed.

(** What the loop of [flatten] puts into [out]: a member that is no dict,
    under its key, or an entry of the flattening of a member that is one. *)
Lemma flatten_members_in (parent : ustring) (d : list (ustring * json)) :
  forall out e,
    In e (flatten_members parent d out) ->
    In e out
    \/ exists k y, In (k, y) d
                   /\ ((is_dict y = false /\ e = (flat_key parent k, y))
                       \/ (is_dict y = true
                           /\ In e (flatten_value (flat_key parent k) y))).
Proof.
  induction d as [|[k y] d IH]; intros out e H; [left; exact H|].
  cbn [flatten_members] in H. apply IH in H. destruct H as [H|(k' & y' & Hin & H)].
  - assert (leaf : In e (dict_set (flat_key parent k) y out) -> is_dict y = false ->
                   In e out
                   \/ exists k0 y0, In (k0, y0) ((k, y) :: d)
                        /\ ((is_dict y0 = false /\ e = (flat_key parent k0, y0))
                            \/ (is_dict y0 = true
                                /\ In e (flatten_value (flat_key parent k0) y0)))).
    { intros Hs Hy. apply dict_set_in in Hs. destruct Hs as [->|Hs]; [|left; exact Hs].
      right. exists k, y. split; [left; reflexivity|]. left. split; [exact Hy|reflexivity]. }
    destruct y; try (apply leaf; [exact H | reflexivity]).
    apply dict_update_in in H. destruct H as [H|H]; [left; exact H|].
    right. exists k, (JObj fields). split; [left; reflexivity|].
    right. split; [reflexivity | exact H].
  - right. exists k', y'. split; [right; exact Hin | exact H].
Qed.

Lemma leaf_is_no_dict (path : list ustring) (v x : json) :
  leaf_at path v x -> is_dict x = false.
Proof. intros H. induction H; assumption. Qed.

Lemma path_key_cons (parent k : ustring) (path : list ustring) :
  path_key parent (k :: path) = path_key (flat_key parent k) path.
Proof. reflexivity. Qed.

(** X21. Every entry of [flatten(d, parent)] is a member of [d], or of a
    dict nested in [d], that is itself no dict; its key is [parent] followed
    by the member names on the way to it, joined as [flatten] joins them.
    So no value of the result is a dict and no key is made up. *)
Theorem flatten_entries_are_leaves
        (d : list (ustring * json)) (parent key : ustring) (x : json) :
  In (key, x) (flatten d parent) ->
  is_dict x = false
  /\ exists path, leaf_at path (JObj d) x /\ key = path_key parent path.
Proof.
  intros Hin.
  assert (Hpath : exists path, leaf_at path (JObj d) x /\ key = path_key parent path);
    [|split; [|exact Hpath];
      destruct Hpath as (path & Hleaf & _); apply (leaf_is_no_dict Hleaf)].
  revert Hin. unfold flatten. revert parent key x.
  apply (@json_obj_ind
           (fun v => forall parent key x,
                In (key, x) (flatten_value parent v) ->
                exists path, leaf_at path v x /\ key = path_key parent path)).
  - intros v Hv parent key x H. destruct v; try discriminate; destruct H.
  - intros d0 IH parent key x H. rewrite flatten_value_obj in H.
    apply flatten_members_in in H. destruct H as [[]|(k & y & Hin & H)].
    destruct H as [[Hy E]|[Hy H]].
    + injection E as -> ->. exists [k]. split; [|reflexivity].
      apply leaf_here; assumption.
    + destruct y as [| | | | | |sub]; try discriminate.
      rewrite Forall_forall in IH. specialize (IH _ Hin). simpl in IH.
      destruct (IH _ _ _ H) as (path & Hleaf & Hkey).
      exists (k :: path). split; [|rewrite path_key_cons; exact Hkey].
      apply (leaf_below _ _ Hin Hleaf).
Qed.

Lemma flatten_entries_are_leaves_witness :
  is_dict (JStr (u (txt "asr"))) = false
  /\ exists path, leaf_at path (JObj nested_record) (JStr (u (txt "asr")))
                  /\ u (txt "metadata.task") = path_key [] path.
Proof.
  apply (@flatten_entries_are_leaves nested_record [] (u (txt "metadata.task"))
           (JStr (u (txt "asr")))).
  vm_compute. right. left. reflexivity.
Defined.

(** X22. On a dict none of whose values is a dict, [flatten] with the
    default empty [parent] changes nothing: the same keys, the same values,
    the same order. *)
Theorem flatten_of_flat_dict_is_identity (d : list (ustring * json)) :
  Forall (fun kv => is_dict (snd kv) = false) d ->
  NoDup (map fst d) ->
  flatten d [] = d.
Proof.
  intros Hflat Hnodup. unfold flatten. rewrite flatten_value_obj.
  change d with ([] ++ d) at 2.
  assert (Hdisj : forall k, In k (map fst d) -> ~ In k (map fst (@nil (ustring * json))))
    by (intros k _ []).
  revert Hflat Hnodup Hdisj. generalize (@nil (ustring * json)) as out.
  induction d as [|[k x] d IH]; intros out Hflat Hnodup Hdisj.
  - simpl. rewrite app_nil_r. reflexivity.
  - inversion Hflat as [|? ? Hx Hflat']; subst. simpl in Hx.
    inversion Hnodup as [|? ? Hk Hnodup']; subst.
    cbn [flatten_members flat_key].
    assert (E : match x with
                | JObj _ => dict_update out (flatten_value k x)
                | _ => dict_set k x out
                end = out ++ [(k, x)]).
    { destruct x; try discriminate; apply dict_set_fresh; apply Hdisj; left; reflexivity. }
    rewrite E. rewrite IH; [rewrite <- app_assoc; reflexivity | exact Hflat' | exact Hnodup' |].
    intros k' Hk' Hin. rewrite map_app, in_app_iff in Hin. destruct Hin as [Hin|[<-|[]]].
    + apply (Hdisj k'); [right; exact Hk' | exact Hin].
    + apply Hk. exact Hk'.
Qed.

Lemma flatten_of_flat_dict_is_identity_witness :
  flatten flat_record [] = flat_record.
Proof.
  apply (@flatten_of_flat_dict_is_identity flat_record).
  - repeat constructor.
  - repeat constructor; simpl; intuition discriminate.
Defined.

(** X23. A member whose value is the empty dict leaves no entry: [flatten]
    gives the same result as without that member, so such a member gets no
    column. *)
Theorem empty_dict_member_leaves_no_entry
        (d1 d2 : list (ustring * json)) (k parent : ustring) :
  flatten (d1 ++ (k, JObj []) :: d2) parent = flatten (d1 ++ d2) parent.
Proof.
  unfold flatten. rewrite !flatten_value_obj, !flatten_members_app. reflexivity.
Qed.

(** ** The columns *)

Lemma note_key_loop (keys : list ustring) :
  (forall y, In y (fst (fold_left note_key keys ([], []))) <-> In y keys)
  /\ (forall y, In y (snd (fold_left note_key keys ([], []))) <-> In y keys)
  /\ NoDup (snd (fold_left note_key keys ([], []))).
Proof.
  induction keys as [|x keys IH] using rev_ind.
  - repeat split; try (intros []); constructor.
  - rewrite fold_left_app. simpl fold_left.
    destruct (fold_left note_key keys ([], [])) as [seen keys_order].
    simpl in IH. destruct IH as (Hseen & Hord & Hnodup).
    unfold note_key. destruct (ustring_mem x seen) eqn:E; cbn [fst snd].
    + apply ustring_mem_in in E. apply Hseen in E.
      split; [|split; [|exact Hnodup]].
      * intros y. rewrite in_app_iff, Hseen. simpl. split; [tauto|].
        intros [H|[<-|[]]]; assumption.
      * intros y. rewrite in_app_iff, Hord. simpl. split; [tauto|].
        intros [H|[<-|[]]]; assumption.
    + assert (Hx : ~ In x keys_order).
      { intros H. apply Hord in H. apply Hseen in H. apply ustring_mem_in in H.
        congruence. }
      split; [|split].
      * intros y. simpl. rewrite in_app_iff, Hseen. simpl. tauto.
      * intros y. rewrite !in_app_iff, Hord. simpl. tauto.
      * apply NoDup_app; [exact Hnodup | repeat constructor; intros [] |].
        intros a Ha [<-|[]]. apply Hx. exact Ha.
Qed.

Lemma preferred_distinct : NoDup preferred.
Proof.
  unfold preferred. cbn [map].
  repeat (constructor; [vm_compute; intuition discriminate|]). constructor.
Qed.

(** X24. The [fieldnames] that [write_csv] gives to [csv.DictWriter] hold
    no name twice and are exactly the keys that occur in the flattened rows:
    no row has a key that is not a column, and no column is without a
    row that has it. *)
Theorem fieldnames_are_the_keys_of_the_rows (flat : list (list (ustring * json))) :
  NoDup (csv_fieldnames flat)
  /\ forall k, In k (csv_fieldnames flat) <-> In k (all_keys flat).
Proof.
  unfold csv_fieldnames.
  destruct (note_key_loop (all_keys flat)) as (Hseen & Hord & Hnodup).
  destruct (fold_left note_key (all_keys flat) ([], [])) as [seen keys_order].
  cbn [fst snd] in *. split.
  - apply NoDup_app.
    + apply NoDup_filter. exact preferred_distinct.
    + apply NoDup_filter. exact Hnodup.
    + intros a Ha Hb. apply filter_In in Ha. apply filter_In in Hb.
      destruct Ha as [Ha _]. destruct Hb as [_ Hb].
      apply ustring_mem_in in Ha. rewrite Ha in Hb. discriminate.
  - intros k. rewrite in_app_iff, !filter_In. split.
    + intros [[_ H]|[H _]].
      * apply Hseen. apply ustring_mem_in. exact H.
      * apply Hord. exact H.
    + intros H. destruct (ustring_mem k preferred) eqn:E.
      * left. split; [apply ustring_mem_in; exact E|].
        apply ustring_mem_in. apply Hseen. exact H.
      * right. split; [apply Hord; exact H | reflexivity].
Qed.

(** X25. The columns start with the names of the preferred list that
    occur in some row, in the order of that list, whatever the order in
    which the rows have them; no other column is a preferred name. Hence
    [id] is the first column as soon as one row has an [id]. *)
Theorem preferred_columns_come_first (flat : list (list (ustring * json))) :
  (exists others,
      csv_fieldnames flat
      = filter (fun k => ustring_mem k (all_keys flat)) preferred ++ others
      /\ Forall (fun k => ~ In k preferred) others)
  /\ (In (u (txt "id")) (all_keys flat) ->
      exists rest, csv_fieldnames flat = u (txt "id") :: rest).
Proof.
  unfold csv_fieldnames.
  destruct (note_key_loop (all_keys flat)) as (Hseen & _ & _).
  destruct (fold_left note_key (all_keys flat) ([], [])) as [seen keys_order].
  cbn [fst snd] in *.
  assert (Hmem : forall k, ustring_mem k seen = ustring_mem k (all_keys flat))
    by (intros k; apply ustring_mem_same; exact Hseen).
  rewrite (filter_ext _ _ Hmem). split.
  - eexists. split; [reflexivity|].
    apply Forall_forall. intros k Hk Hin. apply filter_In in Hk. destruct Hk as [_ Hk].
    apply ustring_mem_in in Hin. rewrite Hin in Hk. discriminate.
  - intros Hid. apply ustring_mem_in in Hid.
    unfold preferred. cbn [map filter]. rewrite Hid. eexists. reflexivity.
Qed.

(* ================================================================== *)
(** * More on the seed ids *)

Lemma keep_new_distinct (ids : list text) :
  NoDup (snd (fold_left keep_new ids ([], [])))
  /\ forall y, In y (snd (fold_left keep_new ids ([], []))) -> In y ids.
Proof.
  induction ids as [|x ids IH] using rev_ind.
  - split; [constructor | intros y []].
  - pose proof (keep_new_loop ids) as [Hseen _].
    rewrite fold_left_app. simpl fold_left.
    destruct (fold_left keep_new ids ([], [])) as [seen ordered].
    cbn [fst snd] in *. destruct IH as [Hnodup Hin].
    unfold keep_new. destruct (text_mem x seen) eqn:E; cbn [snd].
    + split; [exact Hnodup|]. intros y Hy. apply in_or_app. left. apply Hin. exact Hy.
    + split.
      * apply NoDup_app; [exact Hnodup | repeat constructor; intros [] |].
        intros a Ha [<-|[]]. apply Hin in Ha. apply Hseen in Ha.
        apply text_mem_in in Ha. congruence.
      * intros y Hy. rewrite in_app_iff in *. simpl.
        destruct Hy as [Hy|Hy]; [left; apply Hin; exact Hy | right; exact Hy].
Qed.

Lemma in_firstn (A : Type) (n : nat) (l : list A) (x : A) :
  In x (firstn n l) -> In x l.
Proof.
  intros H. rewrite <- (firstn_skipn n l). apply in_or_app. left. exact H.
Qed.

(** X26. The ids that the fallback discoverer returns are pairwise
    distinct and at most [PAGE_LIMIT], 24; each is a non-empty word over
    [a-z0-9] taken from a link of the page. *)
Theorem seed_ids_are_distinct_and_bounded (hrefs : list text) :
  NoDup (ids_of_hrefs hrefs)
  /\ length (ids_of_hrefs hrefs) <= PAGE_LIMIT
  /\ forall i, In i (ids_of_hrefs hrefs) ->
               i <> [] /\ forallb id_char i = true
               /\ exists href, In href hrefs /\ href_id href = Some i.
Proof.
  unfold ids_of_hrefs.
  set (ids := flat_map (fun href => match href_id href with
                                    | Some i => [i]
                                    | None => []
                                    end) hrefs).
  destruct (keep_new_distinct ids) as [Hnodup Hin].
  split; [|split].
  - rewrite <- (firstn_skipn PAGE_LIMIT (snd (fold_left keep_new ids ([], [])))) in Hnodup.
    apply NoDup_app_remove_r in Hnodup. exact Hnodup.
  - rewrite length_firstn. apply Nat.le_min_l.
  - intros i Hi. apply in_firstn in Hi. apply Hin in Hi.
    unfold ids in Hi. apply in_flat_map in Hi. destruct Hi as (href & Hhref & Hi).
    destruct (href_id href) as [i'|] eqn:E; [|destruct Hi].
    destruct Hi as [<-|[]].
    pose proof (proj1 (href_id_spec href i') E) as (Hne & Hchars & _).
    split; [exact Hne|]. split; [exact Hchars|]. exists href. split; assumption.
Qed.

(** ** A server that never sends a stopping page *)

Lemma alternating_page_a :
  extract_json_array_from_rsc (q "0:{'datasets':[{'id':'a'}]}") (txt "datasets")
  = [JObj [(u (txt "id"), JStr (u (txt "a")))]].
Proof. vm_compute. reflexivity. Qed.

Lemma alternating_page_b :
  extract_json_array_from_rsc (q "0:{'datasets':[{'id':'b'}]}") (txt "datasets")
  = [JObj [(u (txt "id"), JStr (u (txt "b")))]].
Proof. vm_compute. reflexivity. Qed.

Lemma alternating_fetch (c : json) (st : crawl_state) :
  post_load_more server_that_alternates c st
  = if Nat.even (calls st)
    then (Ok ([JObj [(u (txt "id"), JStr (u (txt "a")))]], JStr (u (txt "a"))),
          after_call st)
    else (Ok ([JObj [(u (txt "id"), JStr (u (txt "b")))]], JStr (u (txt "b"))),
          after_call st).
Proof.
  unfold post_load_more, bind, send, server_that_alternates, ok_reply.
  destruct (Nat.even (calls st)); cbn [status_code body];
    change (raise_for_status {| status_code := 200; body := ?b |}) with (@ret unit tt);
    unfold ret; [rewrite alternating_page_a | rewrite alternating_page_b]; reflexivity.
Qed.

Lemma alternating_loop_runs_on (fuel : nat) :
  forall st,
    (Nat.even (calls st) = false ->
     fst (load_more_loop lexeme_floats server_that_alternates fuel
                         (JStr (u (txt "a"))) st) = Diverge)
    /\ (Nat.even (calls st) = true ->
        fst (load_more_loop lexeme_floats server_that_alternates fuel
                            (JStr (u (txt "b"))) st) = Diverge).
Proof.
  induction fuel as [|fuel IH]; intros st; [split; intros _; reflexivity|].
  split; intros Hpar; cbn [load_more_loop];
    change (truthy lexeme_floats (JStr (u (txt "a")))) with true;
    change (truthy lexeme_floats (JStr (u (txt "b")))) with true;
    cbv iota; unfold bind at 1; rewrite alternating_fetch, Hpar.
  - change (py_eq lexeme_floats (JStr (u (txt "b"))) (JStr (u (txt "a")))) with false.
    cbv iota. unfold bind, extend.
    apply (IH _). cbn [calls after_call]. rewrite Nat.even_succ, <- Nat.negb_even, Hpar.
    reflexivity.
  - change (py_eq lexeme_floats (JStr (u (txt "a"))) (JStr (u (txt "b")))) with false.
    cbv iota. unfold bind, extend.
    apply (IH _). cbn [calls after_call]. rewrite Nat.even_succ, <- Nat.negb_even, Hpar.
    reflexivity.
Qed.


(** The whole script on that server never gets to its end. *)
Example alternating_script_runs_on (fuel : nat) :
  fst (script lexeme_floats None server_that_alternates fuel) = StillRunning.
Proof.
  assert (E : first_cursor lexeme_floats None server_that_alternates start_state
              = (Ok (JStr (u (txt "a"))),
                 {| calls := 1; all_rows := [JObj [(u (txt "id"), JStr (u (txt "a")))]];
                    csv_out := None |})) by (vm_compute; reflexivity).
  unfold script, main. unfold bind at 1. rewrite E. unfold bind.
  pose proof (proj1 (alternating_loop_runs_on fuel
                       {| calls := 1;
                          all_rows := [JObj [(u (txt "id"), JStr (u (txt "a")))]];
                          csv_out := None |}) eq_refl) as H.
  destruct (load_more_loop lexeme_floats server_that_alternates fuel
              (JStr (u (txt "a"))) _) as [[[]|e|] st2]; simpl in H;
    try discriminate. reflexivity.
Qed.

(** ** A detail fetch that fails in the session *)


(** ** A link with a line feed *)

(** C8. The href [/datasets/a1] followed by a line feed is no exact match of
    [/datasets/<id>], yet the pattern of the code accepts it and the
    discoverer returns the id [a1]: the dollar sign of the pattern also
    matches before a last line feed. *)
Lemma line_feed_link_is_accepted :
  href_id (txt "/datasets/a1" ++ [newline]) = Some (txt "a1")
  /\ exact_link_id (txt "/datasets/a1" ++ [newline]) = None
  /\ ids_of_hrefs [txt "/datasets/a1" ++ [newline]] = [txt "a1"]
  /\ spec_ids_of_hrefs [txt "/datasets/a1" ++ [newline]] = [].
Proof. repeat split; vm_compute; reflexivity. Qed.

(* ================================================================== *)
(** * The token normalizer on token streams *)

Lemma no_dollar_free (t : text) : forallb no_dollar t = true -> dollar_free t.
Proof. exact (@dollar_free_check t). Qed.

Lemma match_needs_dollar_strict (p : regex) (prev : option ascii) (c : ascii) (s : text) :
  needs_dollar p -> c <> "$"%char -> c <> dquote ->
  match_here p prev (c :: s) = None.
Proof.
  intros Hp Hc Hq. destruct Hp as [r|r]; simpl.
  - apply Ascii.eqb_neq in Hc. rewrite Hc. reflexivity.
  - apply Ascii.eqb_neq in Hq. rewrite Hq. reflexivity.
Qed.

(** A stretch that does not end with a double quote is copied, whatever
    follows it. *)
Lemma sub_from_passes_strict (p : regex) (tpl : template) (pre rest : text) :
  needs_dollar p -> dollar_free pre -> pre <> [] -> ends_with_quote pre = false ->
  forall prev, exists prev',
    sub_from p tpl prev (pre ++ rest) 0 = pre ++ sub_from p tpl prev' rest 0.
Proof.
  intros Hp. induction pre as [|c pre IH]; intros Hpre Hne Hq prev; [congruence|].
  apply dollar_free_cons in Hpre. destruct Hpre as [Hc Hpre].
  destruct pre as [|c' pre].
  - exists (Some c). cbn [app]. rewrite sub_from_no_match; [reflexivity|].
    apply match_needs_dollar_strict; [exact Hp | exact Hc |].
    cbn [ends_with_quote] in Hq. apply Ascii.eqb_neq. exact Hq.
  - destruct (IH Hpre) with (prev := Some c) as [prev' E]; [discriminate | exact Hq |].
    exists prev'. rewrite <- app_comm_cons. rewrite sub_from_no_match.
    + rewrite E. reflexivity.
    + apply match_needs_dollar; [exact Hp | exact Hc |].
      apply dollar_free_cons in Hpre. simpl. tauto.
Qed.

(** ** What the segments are made of *)

Lemma body_dollar_free (quoted : bool) (kind : token_kind) (arg : text) :
  arg_ok quoted kind arg = true -> dollar_free (token_body kind arg).
Proof.
  intros H. apply dollar_free_check. destruct kind; cbn [token_body arg_ok] in *.
  - apply andb_prop in H. destruct H as [_ H]. cbn [forallb]. cbn [andb negb].
    change (negb (Ascii.eqb "n" "$")) with true. cbn [andb].
    induction arg as [|c arg IH]; [reflexivity|]. cbn [forallb] in *.
    apply andb_prop in H. destruct H as [Hc H]. rewrite (IH H), andb_true_r.
    destruct (Ascii.eqb c "$") eqn:E; [|reflexivity].
    apply Ascii.eqb_eq in E. subst c. discriminate.
  - apply andb_prop in H. destruct H as [H _]. apply andb_prop in H.
    destruct H as [_ H]. cbn [forallb].
    change (negb (Ascii.eqb "D" "$")) with true. exact H.
  - destruct arg as [|c r]; [discriminate|]. cbn [plain_ref] in H.
    apply andb_prop in H. destruct H as [_ H].
    pose proof (@all_in_class_dollar_free ref_char (c :: r) ref_char_not_dollar H) as F.
    clear H. induction (c :: r) as [|x l IH]; [reflexivity|].
    cbn [forallb]. apply dollar_free_cons in F. destruct F as [Hx F].
    rewrite (IH F), andb_true_r. apply Ascii.eqb_neq in Hx. rewrite Hx. reflexivity.
Qed.

Lemma delimiter_is_no_dollar (c : ascii) : delimiter c = true -> c <> "$"%char.
Proof. intros H ->. discriminate. Qed.

(** The text of a stream does not start with a dollar sign, unless a bare
    token is allowed at its head. *)
Lemma stream_head (segs : list segment) :
  well_separated false segs = true -> head_is_not_dollar (stream_text segs).
Proof.
  destruct segs as [|[t|quoted kind arg] rest]; cbn [well_separated stream_text flat_map written].
  - intros _. exact I.
  - intros H. apply andb_prop in H. destruct H as [H _]. apply andb_prop in H.
    destruct H as [Hne Hd]. destruct t as [|c t]; [discriminate|].
    cbn [forallb] in Hd. apply andb_prop in Hd. destruct Hd as [Hc _].
    simpl. intros ->. discriminate.
  - intros H. apply andb_prop in H. destruct H as [H _]. apply andb_prop in H.
    destruct H as [_ H]. destruct quoted; [simpl; discriminate|]. discriminate.
Qed.

Lemma ends_token_text (rest : list segment) :
  ends_token rest = true -> starts_with_delimiter (stream_text rest).
Proof.
  destruct rest as [|[[|c t]|quoted kind arg] rest]; simpl; try discriminate; auto.
Qed.

Lemma delimiter_head (r : text) : starts_with_delimiter r -> head_is_not_dollar r.
Proof.
  destruct r as [|c r]; simpl; [trivial|]. apply delimiter_is_no_dollar.
Qed.

Lemma well_separated_weaken (segs : list segment) (b : bool) :
  well_separated false segs = true -> well_separated b segs = true.
Proof.
  destruct segs as [|[t|quoted kind arg] rest]; cbn [well_separated]; auto.
  intros H. apply andb_prop in H. destruct H as [H Hrest].
  apply andb_prop in H. destruct H as [Harg H].
  rewrite Harg, Hrest. destruct quoted; [reflexivity|]. discriminate.
Qed.

(** ** One substitution on a stream *)

Section Pass.

Variable p : regex.
Variable tpl : template.
Variable n : nat.

Hypothesis p_needs_dollar : needs_dollar p.

(** The substitution of rank [n] takes the tokens of its rank whole and
    finds no match at the tokens of a later rank. *)
Hypothesis quoted_hit : forall kind arg prev rest,
  rank true kind = n -> arg_ok true kind arg = true ->
  exists g,
    match_here p prev (dquote :: "$"%char :: token_body kind arg ++ dquote :: rest)
    = Some (S (S (length (token_body kind arg) + 1)), g)
    /\ expand tpl g = normal_form (Token true kind arg).

Hypothesis quoted_miss : forall kind arg prev rest,
  n < rank true kind -> arg_ok true kind arg = true ->
  match_here p prev (dquote :: "$"%char :: token_body kind arg ++ dquote :: rest) = None
  /\ match_here p prev ("$"%char :: token_body kind arg ++ dquote :: rest) = None.

Hypothesis bare_hit : forall kind arg prev rest,
  rank false kind = n -> arg_ok false kind arg = true -> starts_with_delimiter rest ->
  exists g,
    match_here p prev ("$"%char :: token_body kind arg ++ rest)
    = Some (S (length (token_body kind arg)), g)
    /\ expand tpl g = normal_form (Token false kind arg).

Hypothesis bare_miss : forall kind arg prev rest,
  n < rank false kind -> arg_ok false kind arg = true -> starts_with_delimiter rest ->
  match_here p prev ("$"%char :: token_body kind arg ++ rest) = None.

Lemma sub_stream (segs : list segment) :
  forall b prev,
    well_separated b segs = true -> forallb (pending n) segs = true ->
    sub_from p tpl prev (stream_text segs) 0 = stream_text (map (after_pass n) segs).
Proof.
  induction segs as [|sg rest IH]; intros b prev Hsep Hpend.
  - simpl. rewrite (match_needs_dollar_nil prev p_needs_dollar). reflexivity.
  - cbn [forallb] in Hpend. apply andb_prop in Hpend. destruct Hpend as [Hrank Hpend].
    cbn [stream_text flat_map map]. fold (stream_text rest).
    fold (stream_text (map (after_pass n) rest)).
    destruct sg as [t|quoted kind arg].
    + (* a stretch *)
      cbn [well_separated] in Hsep. apply andb_prop in Hsep. destruct Hsep as [Ht Hsep].
      apply andb_prop in Ht. destruct Ht as [Hne Hd].
      cbn [after_pass written].
      assert (Hpass : exists prev',
                 sub_from p tpl prev (t ++ stream_text rest) 0
                 = t ++ sub_from p tpl prev' (stream_text rest) 0).
      { destruct (ends_with_quote t) eqn:Eq.
        - apply sub_from_passes;
            [exact p_needs_dollar | apply no_dollar_free; exact Hd
            | apply stream_head; exact Hsep].
        - apply sub_from_passes_strict;
            [exact p_needs_dollar | apply no_dollar_free; exact Hd
            | destruct t; [discriminate | congruence] | exact Eq]. }
      destruct Hpass as [prev' E]. rewrite E. f_equal.
      apply (IH _ _ Hsep Hpend).
    + (* a token *)
      cbn [well_separated] in Hsep. apply andb_prop in Hsep. destruct Hsep as [Ht Hsep].
      apply andb_prop in Ht. destruct Ht as [Harg Hplace].
      cbn [pending] in Hrank. apply Nat.leb_le in Hrank.
      pose proof (body_dollar_free _ _ _ Harg) as Hbody.
      pose proof (stream_head _ Hsep) as Hhead.
      destruct quoted.
      * (* in quotes *)
        cbn [written]. rewrite <- !app_comm_cons, <- app_assoc. cbn [app].
        destruct (Nat.eq_dec (rank true kind) n) as [Heq|Hne].
        -- destruct (quoted_hit kind arg prev (stream_text rest) Heq Harg)
             as (g & Hm & Hg).
           rewrite (@sub_from_match p tpl prev dquote _ _ g Hm).
           cbn [after_pass]. rewrite (proj2 (Nat.eqb_eq _ _) Heq).
           cbn [written]. rewrite Hg. f_equal.
           destruct (sub_from_skip p tpl ("$"%char :: token_body kind arg ++ [dquote])
                       (stream_text rest) (Some dquote)) as [prev' E'].
           replace (length ("$"%char :: token_body kind arg ++ [dquote]))
             with (S (length (token_body kind arg) + 1)) in E'
             by (simpl; rewrite length_app; reflexivity).
           replace (("$"%char :: token_body kind arg ++ [dquote]) ++ stream_text rest)
             with ("$"%char :: token_body kind arg ++ dquote :: stream_text rest) in E'
             by (simpl; rewrite <- app_assoc; reflexivity).
           rewrite E'. apply (IH _ _ Hsep Hpend).
        -- destruct (quoted_miss kind arg) with (rest := stream_text rest)
             (prev := prev) as [M1 _]; [lia | exact Harg |].
           destruct (quoted_miss kind arg) with (rest := stream_text rest)
             (prev := Some dquote) as [_ M2]; [lia | exact Harg |].
           rewrite (@sub_from_no_match p tpl prev dquote _ M1).
           rewrite (@sub_from_no_match p tpl (Some dquote) "$"%char _ M2).
           cbn [after_pass]. rewrite (proj2 (Nat.eqb_neq _ _) Hne).
           cbn [written]. rewrite <- !app_comm_cons, <- app_assoc. cbn [app].
           do 2 f_equal.
           destruct (@sub_from_passes p tpl (token_body kind arg ++ [dquote])
                       (stream_text rest) p_needs_dollar)
             with (prev := Some "$"%char) as [prev' E'].
           { apply dollar_free_app; [exact Hbody|].
             apply dollar_free_single. discriminate. }
           { exact Hhead. }
           replace (token_body kind arg ++ dquote :: stream_text rest)
             with ((token_body kind arg ++ [dquote]) ++ stream_text rest)
             by (rewrite <- app_assoc; reflexivity).
           rewrite E'.
           replace (token_body kind arg ++ dquote :: stream_text (map (after_pass n) rest))
             with ((token_body kind arg ++ [dquote])
                   ++ stream_text (map (after_pass n) rest))
             by (rewrite <- app_assoc; reflexivity).
           f_equal. apply (IH _ _ Hsep Hpend).
      * (* bare *)
        cbn [orb] in Hplace. apply andb_prop in Hplace. destruct Hplace as [_ Hends].
        pose proof (ends_token_text _ Hends) as Hdelim.
        cbn [written]. rewrite <- !app_comm_cons.
        destruct (Nat.eq_dec (rank false kind) n) as [Heq|Hne].
        -- destruct (bare_hit kind arg prev (stream_text rest) Heq Harg Hdelim)
             as (g & Hm & Hg).
           rewrite (@sub_from_match p tpl prev "$"%char _ _ g Hm).
           cbn [after_pass]. rewrite (proj2 (Nat.eqb_eq _ _) Heq).
           cbn [written]. rewrite Hg. f_equal.
           destruct (sub_from_skip p tpl (token_body kind arg) (stream_text rest)
                       (Some "$"%char)) as [prev' E'].
           rewrite E'. apply (IH _ _ Hsep Hpend).
        -- rewrite (@sub_from_no_match p tpl prev "$"%char _
                      (bare_miss kind arg prev (stream_text rest)
                         ltac:(lia) Harg Hdelim)).
           cbn [after_pass]. rewrite (proj2 (Nat.eqb_neq _ _) Hne).
           cbn [written]. rewrite <- !app_comm_cons. f_equal.
           destruct (@sub_from_passes p tpl (token_body kind arg) (stream_text rest)
                       p_needs_dollar Hbody Hhead)
             with (prev := Some "$"%char) as [prev' E'].
           rewrite E'. f_equal. apply (IH _ _ Hsep Hpend).
Qed.

End Pass.

(** ** The six substitutions *)

Lemma delimiter_classes (c : ascii) :
  delimiter c = true -> is_digit c = false /\ ref_char c = false /\ date_char c = false.
Proof.
  destruct c as [[] [] [] [] [] [] [] []]; vm_compute; intros H;
    first [discriminate H | repeat split; reflexivity].
Qed.

Lemma delimiter_stops (cl : ascii -> bool) (rest : text) :
  (forall c, delimiter c = true -> cl c = false) ->
  starts_with_delimiter rest ->
  match rest with [] => True | c :: _ => cl c = false end.
Proof. intros H. destruct rest as [|c rest]; simpl; auto. Qed.

(** A repetition at the end of a pattern takes the whole run when a
    character outside the class, or nothing, follows. *)
Lemma match_run_then_stop (grp : bool) (cl : ascii -> bool) (body rest : text)
      (prev : option ascii) :
  body <> [] -> forallb cl body = true ->
  match rest with [] => True | c :: _ => cl c = false end ->
  match_here [Rep grp 1 cl] prev (body ++ rest)
  = Some (length body, if grp then Some body else None).
Proof.
  intros Hne Hall Hstop. rewrite match_rep.
  rewrite (@take_while_stops cl body rest Hall Hstop).
  apply longest_first_top.
  - destruct body; [congruence | simpl; lia].
  - rewrite firstn_length_app. cbn [match_here advance]. rewrite Nat.add_0_r.
    destruct grp; reflexivity.
Qed.

Lemma nonempty_not_nil (t : text) : nonempty t = true -> t <> [].
Proof. destruct t; [discriminate | congruence]. Qed.

Lemma plain_ref_chars (ref : text) :
  plain_ref ref = true -> ref <> [] /\ forallb ref_char ref = true.
Proof.
  destruct ref as [|c r]; [discriminate|]. cbn [plain_ref]. intros H.
  apply andb_prop in H. destruct H as [_ H]. split; [congruence | exact H].
Qed.

(** What follows [$] in a plain reference is no number and no date, whatever
    comes after the name, as long as it is no digit. *)
Lemma no_number_in_ref (tail : regex) (ref rest : text) (prev : option ascii) :
  plain_ref ref = true ->
  match rest with [] => True | c :: _ => is_digit c = false end ->
  match_here (Chr "n" :: Rep true 1 is_digit :: tail) prev (ref ++ rest) = None.
Proof.
  intros H Hrest. destruct ref as [|c r]; [discriminate|].
  cbn [plain_ref] in H. apply andb_prop in H. destruct H as [H _].
  apply andb_prop in H. destruct H as [_ H]. apply negb_true_iff in H.
  cbn [app]. rewrite match_chr_step.
  destruct (Ascii.eqb c "n"); [|reflexivity].
  cbn [andb] in H. rewrite match_rep.
  replace (take_while is_digit (r ++ rest)) with (@nil ascii); [reflexivity|].
  destruct r as [|d r].
  - cbn [app]. destruct rest as [|x rest]; [reflexivity|].
    cbn [take_while]. rewrite Hrest. reflexivity.
  - cbn [app take_while]. rewrite H. reflexivity.
Qed.

Lemma no_date_in_ref (tail : regex) (ref rest : text) (prev : option ascii) :
  plain_ref ref = true ->
  match_here (Chr "D" :: tail) prev (ref ++ rest) = None.
Proof.
  intros H. destruct ref as [|c r]; [discriminate|].
  cbn [plain_ref] in H. apply andb_prop in H. destruct H as [H _].
  apply andb_prop in H. destruct H as [H _]. apply negb_true_iff in H.
  cbn [app]. rewrite match_chr_step, H. reflexivity.
Qed.

Ltac wrong_rank :=
  match goal with
  | H : rank _ ?k = _ |- _ => destruct k; discriminate H
  | H : _ < rank _ ?k |- _ => destruct k; cbn [rank] in H; lia
  end.

Lemma pass_quoted_number (segs : list segment) (b : bool) (prev : option ascii) :
  well_separated b segs = true -> forallb (pending 1) segs = true ->
  sub_from quoted_number [Group1] prev (stream_text segs) 0
  = stream_text (map (after_pass 1) segs).
Proof.
  apply sub_stream; [constructor | | | |].
  - intros kind arg prev0 rest Hr Ha.
    destruct kind; try discriminate Hr. cbn [arg_ok] in Ha.
    apply andb_prop in Ha. destruct Ha as [Hne Hdig]. apply nonempty_not_nil in Hne.
    exists (Some arg). split; [|simpl; apply app_nil_r].
    unfold quoted_number, GroupPlus. cbn [token_body].
    rewrite !match_chr. cbn [app]. rewrite match_chr.
    rewrite (@match_run_then_chr true is_digit dquote arg rest (Some "n"%char)
               Hne Hdig eq_refl).
    simpl. repeat f_equal.
  - intros kind arg prev0 rest Hr Ha. destruct kind; cbn [rank] in Hr; try lia.
    + split; reflexivity.
    + split; [|reflexivity]. cbn [token_body arg_ok] in *.
      unfold quoted_number, GroupPlus. rewrite !match_chr.
      rewrite no_number_in_plain_ref by assumption. reflexivity.
  - intros kind arg prev0 rest Hr. wrong_rank.
  - intros kind arg prev0 rest Hr Ha Hd. reflexivity.
Qed.

Lemma pass_bare_number (segs : list segment) (b : bool) (prev : option ascii) :
  well_separated b segs = true -> forallb (pending 2) segs = true ->
  sub_from bare_number [Group1] prev (stream_text segs) 0
  = stream_text (map (after_pass 2) segs).
Proof.
  apply sub_stream; [constructor | | | |].
  - intros kind arg prev0 rest Hr. wrong_rank.
  - intros kind arg prev0 rest Hr Ha. destruct kind; cbn [rank] in Hr; try lia.
    + split; reflexivity.
    + split; [reflexivity|]. cbn [token_body arg_ok] in *.
      unfold bare_number, GroupPlus. rewrite match_chr.
      rewrite no_number_in_plain_ref by assumption. reflexivity.
  - intros kind arg prev0 rest Hr Ha Hd.
    destruct kind; try discriminate Hr. cbn [arg_ok] in Ha.
    apply andb_prop in Ha. destruct Ha as [Hne Hdig]. apply nonempty_not_nil in Hne.
    exists (Some arg). split; [|simpl; apply app_nil_r].
    unfold bare_number, GroupPlus. cbn [token_body app].
    rewrite !match_chr.
    rewrite (@match_run_then_stop true is_digit arg rest (Some "n"%char) Hne Hdig).
    + simpl. reflexivity.
    + apply delimiter_stops; [|exact Hd]. intros c Hc. apply (delimiter_classes _ Hc).
  - intros kind arg prev0 rest Hr Ha Hd. destruct kind; cbn [rank] in Hr; try lia.
    + reflexivity.
    + cbn [token_body arg_ok] in *. unfold bare_number, GroupPlus. rewrite match_chr.
      rewrite no_number_in_ref; [reflexivity | exact Ha |].
      apply delimiter_stops; [|exact Hd]. intros c Hc. apply (delimiter_classes _ Hc).
Qed.

Lemma quoted_date_arg (arg : text) :
  arg_ok true Date arg = true ->
  arg <> [] /\ forallb no_dollar arg = true /\ forallb not_dquote arg = true.
Proof.
  cbn [arg_ok]. intros H. apply andb_prop in H. destruct H as [H Hq].
  apply andb_prop in H. destruct H as [Hne Hd].
  split; [apply nonempty_not_nil; exact Hne | split; assumption].
Qed.

Lemma bare_date_arg (arg : text) :
  arg_ok false Date arg = true ->
  arg <> [] /\ forallb no_dollar arg = true /\ forallb date_char arg = true.
Proof.
  cbn [arg_ok]. intros H. apply andb_prop in H. destruct H as [H Hq].
  apply andb_prop in H. destruct H as [Hne Hd].
  split; [apply nonempty_not_nil; exact Hne | split; assumption].
Qed.

Lemma pass_quoted_date (segs : list segment) (b : bool) (prev : option ascii) :
  well_separated b segs = true -> forallb (pending 3) segs = true ->
  sub_from quoted_date [Txt [dquote]; Group1; Txt [dquote]] prev (stream_text segs) 0
  = stream_text (map (after_pass 3) segs).
Proof.
  apply sub_stream; [constructor | | | |].
  - intros kind arg prev0 rest Hr Ha.
    destruct kind; try discriminate Hr.
    destruct (quoted_date_arg _ Ha) as (Hne & _ & Hnq).
    exists (Some arg). split; [|simpl; rewrite ?app_nil_r; reflexivity].
    unfold quoted_date, GroupPlus. cbn [token_body].
    rewrite !match_chr. cbn [app]. rewrite match_chr.
    rewrite (@match_run_then_chr true not_dquote dquote arg rest (Some "D"%char)
               Hne Hnq eq_refl).
    simpl. repeat f_equal.
  - intros kind arg prev0 rest Hr Ha. destruct kind; cbn [rank] in Hr; try lia.
    split; [|reflexivity]. cbn [token_body arg_ok] in *.
    unfold quoted_date. rewrite !match_chr.
    rewrite no_date_in_plain_ref by assumption. reflexivity.
  - intros kind arg prev0 rest Hr. wrong_rank.
  - intros kind arg prev0 rest Hr Ha Hd. reflexivity.
Qed.

Lemma pass_bare_date (segs : list segment) (b : bool) (prev : option ascii) :
  well_separated b segs = true -> forallb (pending 4) segs = true ->
  sub_from bare_date [Txt [dquote]; Group1; Txt [dquote]] prev (stream_text segs) 0
  = stream_text (map (after_pass 4) segs).
Proof.
  apply sub_stream; [constructor | | | |].
  - intros kind arg prev0 rest Hr. wrong_rank.
  - intros kind arg prev0 rest Hr Ha. destruct kind; cbn [rank] in Hr; try lia.
    split; [reflexivity|]. cbn [token_body arg_ok] in *.
    unfold bare_date. rewrite match_chr.
    rewrite no_date_in_plain_ref by assumption. reflexivity.
  - intros kind arg prev0 rest Hr Ha Hd.
    destruct kind; try discriminate Hr.
    destruct (bare_date_arg _ Ha) as (Hne & _ & Hdc).
    exists (Some arg). split; [|simpl; rewrite ?app_nil_r; reflexivity].
    unfold bare_date, GroupPlus. cbn [token_body app].
    rewrite !match_chr.
    rewrite (@match_run_then_stop true date_char arg rest (Some "D"%char) Hne Hdc).
    + simpl. reflexivity.
    + apply delimiter_stops; [|exact Hd]. intros c Hc. apply (delimiter_classes _ Hc).
  - intros kind arg prev0 rest Hr Ha Hd. destruct kind; cbn [rank] in Hr; try lia.
    cbn [token_body arg_ok] in *. unfold bare_date. rewrite match_chr.
    rewrite no_date_in_ref; [reflexivity | exact Ha].
Qed.

Lemma pass_quoted_ref (segs : list segment) (b : bool) (prev : option ascii) :
  well_separated b segs = true -> forallb (pending 5) segs = true ->
  sub_from quoted_ref [Txt (txt "null")] prev (stream_text segs) 0
  = stream_text (map (after_pass 5) segs).
Proof.
  apply sub_stream; [constructor | | | |].
  - intros kind arg prev0 rest Hr Ha.
    destruct kind; try discriminate Hr. cbn [arg_ok] in Ha.
    destruct (plain_ref_chars _ Ha) as [Hne Hall].
    exists None. split; [|reflexivity].
    unfold quoted_ref, Plus. cbn [token_body].
    rewrite !match_chr.
    rewrite (@match_run_then_chr false ref_char dquote arg rest (Some "$"%char)
               Hne Hall ref_char_not_dquote).
    simpl. repeat f_equal.
  - intros kind arg prev0 rest Hr. wrong_rank.
  - intros kind arg prev0 rest Hr. wrong_rank.
  - intros kind arg prev0 rest Hr Ha Hd. reflexivity.
Qed.

Lemma pass_bare_ref (segs : list segment) (b : bool) (prev : option ascii) :
  well_separated b segs = true -> forallb (pending 6) segs = true ->
  sub_from bare_ref [Txt (txt "null")] prev (stream_text segs) 0
  = stream_text (map (after_pass 6) segs).
Proof.
  apply sub_stream; [constructor | | | |].
  - intros kind arg prev0 rest Hr. wrong_rank.
  - intros kind arg prev0 rest Hr. wrong_rank.
  - intros kind arg prev0 rest Hr Ha Hd.
    destruct kind; try discriminate Hr. cbn [arg_ok] in Ha.
    destruct (plain_ref_chars _ Ha) as [Hne Hall].
    exists None. split; [|reflexivity].
    unfold bare_ref, Plus. cbn [token_body].
    rewrite match_chr.
    rewrite (@match_run_then_stop false ref_char arg rest (Some "$"%char) Hne Hall).
    + simpl. reflexivity.
    + apply delimiter_stops; [|exact Hd]. intros c Hc. apply (delimiter_classes _ Hc).
  - intros kind arg prev0 rest Hr. wrong_rank.
Qed.

(** ** The stream between the substitutions *)

Lemma ends_token_after_pass (n : nat) (rest : list segment) :
  ends_token rest = true -> ends_token (map (after_pass n) rest) = true.
Proof.
  destruct rest as [|[[|c t]|quoted kind arg] rest]; simpl; try discriminate; auto.
Qed.

Lemma normal_form_is_stretch (quoted : bool) (kind : token_kind) (arg : text) :
  arg_ok quoted kind arg = true ->
  nonempty (normal_form (Token quoted kind arg)) = true
  /\ forallb no_dollar (normal_form (Token quoted kind arg)) = true.
Proof.
  intros H. destruct kind; cbn [normal_form arg_ok] in *.
  - apply andb_prop in H. destruct H as [Hne Hdig]. split; [exact Hne|].
    clear Hne. induction arg as [|c arg IH]; [reflexivity|]. cbn [forallb] in *.
    apply andb_prop in Hdig. destruct Hdig as [Hc Hdig]. rewrite (IH Hdig), andb_true_r.
    unfold no_dollar. destruct (Ascii.eqb c "$") eqn:E; [|reflexivity].
    apply Ascii.eqb_eq in E. subst c. discriminate.
  - apply andb_prop in H. destruct H as [H _]. apply andb_prop in H.
    destruct H as [_ Hd]. split; [reflexivity|].
    cbn [forallb]. rewrite forallb_app, Hd. reflexivity.
  - split; reflexivity.
Qed.

Lemma after_pass_separated (n : nat) (segs : list segment) :
  forall b, well_separated b segs = true ->
            well_separated b (map (after_pass n) segs) = true.
Proof.
  induction segs as [|[t|quoted kind arg] rest IH]; intros b H; [reflexivity| |].
  - cbn [map after_pass well_separated] in *.
    apply andb_prop in H. destruct H as [Ht H]. rewrite Ht, (IH _ H). reflexivity.
  - cbn [map after_pass]. cbn [well_separated] in H.
    apply andb_prop in H. destruct H as [H Hrest].
    apply andb_prop in H. destruct H as [Harg Hplace].
    destruct (rank quoted kind =? n).
    + cbn [well_separated].
      destruct (normal_form_is_stretch _ _ _ Harg) as [N1 N2]. rewrite N1, N2.
      apply IH. apply well_separated_weaken. exact Hrest.
    + cbn [well_separated]. rewrite Harg, (IH _ Hrest), andb_true_r. cbn [andb].
      destruct quoted; [reflexivity|]. cbn [orb] in *.
      apply andb_prop in Hplace. destruct Hplace as [Hb He].
      rewrite Hb, (ends_token_after_pass n _ He). reflexivity.
Qed.

Lemma after_pass_pending (n : nat) (segs : list segment) :
  forallb (pending n) segs = true ->
  forallb (pending (S n)) (map (after_pass n) segs) = true.
Proof.
  induction segs as [|[t|quoted kind arg] rest IH]; intros H; [reflexivity| |];
    cbn [map forallb] in *; apply andb_prop in H; destruct H as [Hsg H];
      rewrite (IH H), andb_true_r.
  - reflexivity.
  - cbn [after_pass pending] in *. destruct (Nat.eqb_spec (rank quoted kind) n).
    + reflexivity.
    + cbn [pending]. apply Nat.leb_le in Hsg. apply Nat.leb_le. lia.
Qed.

Lemma all_pending (segs : list segment) : forallb (pending 1) segs = true.
Proof.
  induction segs as [|[t|quoted kind arg] rest IH]; [reflexivity|exact IH|].
  cbn [forallb]. rewrite IH, andb_true_r. destruct quoted, kind; reflexivity.
Qed.

Lemma after_all_passes (segs : list segment) :
  stream_text
    (map (after_pass 6)
       (map (after_pass 5)
          (map (after_pass 4)
             (map (after_pass 3) (map (after_pass 2) (map (after_pass 1) segs))))))
  = stream_normal segs.
Proof.
  rewrite !map_map. unfold stream_text, stream_normal.
  induction segs as [|sg rest IH]; [reflexivity|].
  cbn [map flat_map]. rewrite IH. f_equal.
  destruct sg as [t|[] [] arg]; reflexivity.
Qed.

(** On a token stream the normalizer rewrites every token, and nothing
    else. *)
Lemma normalize_stream (segs : list segment) :
  token_stream segs = true ->
  normalize_rsc_tokens (stream_text segs) = stream_normal segs.
Proof.
  unfold token_stream. intros H1.
  pose proof (all_pending segs) as P1.
  pose proof (after_pass_separated 1 _ _ H1) as H2.
  pose proof (after_pass_pending _ _ P1) as P2.
  pose proof (after_pass_separated 2 _ _ H2) as H3.
  pose proof (after_pass_pending _ _ P2) as P3.
  pose proof (after_pass_separated 3 _ _ H3) as H4.
  pose proof (after_pass_pending _ _ P3) as P4.
  pose proof (after_pass_separated 4 _ _ H4) as H5.
  pose proof (after_pass_pending _ _ P4) as P5.
  pose proof (after_pass_separated 5 _ _ H5) as H6.
  pose proof (after_pass_pending _ _ P5) as P6.
  unfold normalize_rsc_tokens, sub.
  rewrite (pass_quoted_number _ _ None H1 P1).
  rewrite (pass_bare_number _ _ None H2 P2).
  rewrite (pass_quoted_date _ _ None H3 P3).
  rewrite (pass_bare_date _ _ None H4 P4).
  rewrite (pass_quoted_ref _ _ None H5 P5).
  rewrite (pass_bare_ref _ _ None H6 P6).
  apply after_all_passes.
Qed.




Example date_token_after_reference_text :
  normalize_rsc_tokens (q "'$abc'$D2024-01-01T00:00:00Z'")
  = q "null2024-01-01T00:00:00Z'".
Proof. vm_compute. reflexivity. Qed.



(** ** A row that is no dict *)

(** The paging ends normally on the empty second page, and [write_csv]
    fails on the number among the rows before it opens the file. *)
Example number_row_fails_in_write_csv :
  script lexeme_floats None server_with_number_row 3
  = (Uncaught AttributeError,
     {| calls := 2;
        all_rows := [JInt 7; JObj [(u (txt "id"), JStr (u (txt "a")))]];
        csv_out := None |}).
Proof. vm_compute. reflexivity. Qed.
